(** * Conjugate-gradient solver (MPI + OpenMP): a shallow embedding

    Source: [src/conjugate_gradients-main/src/conjugate_gradients.cpp].

    Modelling decisions.

    - [double] is a parameter of the development (class [Scalar]): the
      kernels are written once, with the operations the source applies to
      doubles (the literals 0.0 and 1.0, [+], [*], [/], unary [-], [sqrt]
      and [<]).  Two instances are given: [binary64], IEEE-754 binary64 as
      the kernel's primitive floats, on which the code runs as written; and
      [exact], the real numbers, for statements "in exact arithmetic".
    - Arrays are lists; a pointer argument is the name of one of the six
      arrays alive during [conjugate_gradients] ([ptr]) and memory is a
      record of their contents ([heap]).  Every array access is checked: an
      access out of bounds is undefined behaviour in the source and yields
      [Undefined] here.
    - [size_t] values are [nat]: every index that is computed is bounded by
      the length of an array that exists, so no 64-bit wrap-around occurs.
      [int] values ([num_iters], [max_iters]) are [Z], with [int] of 32
      bits; incrementing [INT_MAX] is undefined behaviour in the source
      and [Undefined] here.
    - [new double[n]] gives an array of [n] elements with indeterminate
      contents: the arrays [r], [p] and [Ap] of the solver are part of the
      memory a run starts from, with any contents.
    - MPI: the program is SPMD over [size_mpi] participants, each with its
      own memory.  At entry [main] has broadcast the matrix and the
      right-hand side, and every later vector and scalar is computed from
      collective results, so all participants hold the same values; the
      model keeps one [heap] that stands for the memory of each of them,
      and a collective gets the contribution of rank [q] by running the
      local part of the kernel for rank [q] on that heap.  (The contents of
      the freshly allocated [Ap] may differ between participants; rank [q]
      only reads its own row band of it, so one list, made of the bands the
      ranks see, stands for all of them.)
    - OpenMP: a [parallel for] whose iterations are independent is run in
      index order; a [reduction(+)] is accumulated in index order, which is
      the schedule with one thread (any order gives the same sum in exact
      arithmetic).
    - Files are lists of bytes, by path; a [size_t] and a [double] are
      stored as their 8 bytes, the least significant first, as on the
      machines the program is built for.  [fopen] for reading fails when
      the file does not exist, and for writing when the path is not
      writable; once a file is open, reading and writing it do not fail
      otherwise than by its end.
    - Text output is the list of the calls of [printf] and [fprintf], each
      with its format, as the source has it, and its arguments: the
      conversion to characters is not modelled, nor are [atoi] and [atof],
      which [main] is given.
    - [MPI_Init] and the ranks are given: [main] is run on participant
      [rank] of [size_mpi].  The program never calls [MPI_Finalize], and
      what the launcher makes of that, or of a participant that returns
      while others wait, is not modelled.
    - Every [new] succeeds.  A size that cannot be allocated makes [new]
      throw, which ends the program; this is not modelled, and a
      statement that a call allocates and returns bounds the size. *)

From Stdlib Require Import ZArith List Lia Reals Lra.
From Stdlib Require PrimFloat.
From Stdlib Require Floats.
From coqutil Require Byte Word.LittleEndianList.
From stdpp Require Import base tactics option list strings gmap.

Set Default Proof Using "Type".

(* ===================================================================== *)
(** ** Scalars *)

Class Scalar (F : Type) : Type := {
  f0 : F;                       (* the literal 0.0 *)
  f1 : F;                       (* the literal 1.0 *)
  fadd : F -> F -> F;
  fmul : F -> F -> F;
  fdiv : F -> F -> F;
  fneg : F -> F;
  fsqrt : F -> F;               (* sqrt of <cmath> *)
  fltb : F -> F -> bool         (* operator< *)
}.

(** Reading an array cell by [!!!] gives 0.0 outside the array; the
    checked accessors below never do that. *)
#[export] Instance scalar_inhabited {F : Type} {SF : Scalar F} : Inhabited F :=
  populate f0.

Declare Scope scalar_scope.
Delimit Scope scalar_scope with sc.
Infix "+" := fadd : scalar_scope.
Infix "*" := fmul : scalar_scope.
Infix "/" := fdiv : scalar_scope.
Notation "- x" := (fneg x) : scalar_scope.
Infix "<?" := fltb : scalar_scope.

(** IEEE-754 binary64: the arithmetic the compiled program uses. *)
#[export] Instance binary64 : Scalar PrimFloat.float := {|
  f0 := PrimFloat.zero;
  f1 := PrimFloat.one;
  fadd := PrimFloat.add;
  fmul := PrimFloat.mul;
  fdiv := PrimFloat.div;
  fneg := PrimFloat.opp;
  fsqrt := PrimFloat.sqrt;
  fltb := PrimFloat.ltb
|}.

(** Exact arithmetic: the real numbers.  Division by zero has no meaning
    there; statements over [exact] whose divisors may vanish are only made
    where the quotient does not matter. *)
#[export] Instance exact : Scalar R := {|
  f0 := 0%R;
  f1 := 1%R;
  fadd := Rplus;
  fmul := Rmult;
  fdiv := Rdiv;
  fneg := Ropp;
  fsqrt := R_sqrt.sqrt;
  fltb := fun a b => if Rlt_dec a b then true else false
|}.

(* ===================================================================== *)
(** ** Outcomes of a run *)

Inductive outcome (A : Type) : Type :=
| Ok (a : A)
| Undefined      (* undefined behaviour: access out of bounds, signed overflow *)
| OutOfFuel.     (* the model's loop counter ran out: never the source's doing *)
Arguments Ok {A} a.
Arguments Undefined {A}.
Arguments OutOfFuel {A}.

#[export] Instance outcome_ret : MRet outcome := fun _ a => Ok a.
#[export] Instance outcome_bind : MBind outcome := fun _ _ k m =>
  match m with
  | Ok a => k a
  | Undefined => Undefined
  | OutOfFuel => OutOfFuel
  end.

(** [for (size_t i = lo; i < hi; i++) s = body(i, s);] *)
Fixpoint for_loop {St : Type} (n i : nat) (body : nat -> St -> outcome St) (s : St)
  : outcome St :=
  match n with
  | O => Ok s
  | S n' => s' ← body i s; for_loop n' (S i) body s'
  end.

Definition for_range {St : Type} (lo hi : nat) (body : nat -> St -> outcome St) (s : St)
  : outcome St :=
  for_loop (hi - lo) lo body s.

(** Running [f] for every element of a list, in order, stopping at the first
    run that has no result. *)
Fixpoint for_each {A B : Type} (f : A -> outcome B) (l : list A) : outcome (list B) :=
  match l with
  | [] => Ok []
  | a :: l' => b ← f a; bs ← for_each f l'; Ok (b :: bs)
  end.

(* ===================================================================== *)
(** ** Integers of type [int] *)

Definition INT_MAX : Z := 2147483647.

(** [n++] on an [int]: overflow is undefined behaviour. *)
Definition int_incr (n : Z) : outcome Z :=
  if (n <? INT_MAX)%Z then Ok (n + 1)%Z else Undefined.

(* ===================================================================== *)
(** ** Memory *)

(** The arrays alive during [conjugate_gradients]: the caller's [A], [b]
    and [x], and the solver's own [r], [p] and [Ap]. *)
Inductive ptr : Type := ptrA | ptrb | ptrx | ptrr | ptrp | ptrAp.

Section Kernels.
Context {F : Type} {SF : Scalar F}.

Record heap : Type := mkHeap {
  cellA : list F;
  cellb : list F;
  cellx : list F;
  cellr : list F;
  cellp : list F;
  cellAp : list F
}.

Definition sel (h : heap) (a : ptr) : list F :=
  match a with
  | ptrA => cellA h
  | ptrb => cellb h
  | ptrx => cellx h
  | ptrr => cellr h
  | ptrp => cellp h
  | ptrAp => cellAp h
  end.

Definition upd (h : heap) (a : ptr) (v : list F) : heap :=
  match a with
  | ptrA => mkHeap v (cellb h) (cellx h) (cellr h) (cellp h) (cellAp h)
  | ptrb => mkHeap (cellA h) v (cellx h) (cellr h) (cellp h) (cellAp h)
  | ptrx => mkHeap (cellA h) (cellb h) v (cellr h) (cellp h) (cellAp h)
  | ptrr => mkHeap (cellA h) (cellb h) (cellx h) v (cellp h) (cellAp h)
  | ptrp => mkHeap (cellA h) (cellb h) (cellx h) (cellr h) v (cellAp h)
  | ptrAp => mkHeap (cellA h) (cellb h) (cellx h) (cellr h) (cellp h) v
  end.

(** [l[i]] as an rvalue. *)
Definition buf_load (l : list F) (i : nat) : outcome F :=
  match l !! i with
  | Some v => Ok v
  | None => Undefined
  end.

(** [l[i] = v]. *)
Definition buf_store (l : list F) (i : nat) (v : F) : outcome (list F) :=
  if i <? length l then Ok (<[i:=v]> l) else Undefined.

Definition load (h : heap) (a : ptr) (i : nat) : outcome F :=
  buf_load (sel h a) i.

Definition store (h : heap) (a : ptr) (i : nat) (v : F) : outcome heap :=
  l ← buf_store (sel h a) i v; Ok (upd h a l).

(* ===================================================================== *)
(** ** The kernels *)

(** [dot], lines 64-70: the serial inner product. *)
Definition dot (x y : ptr) (size : nat) (h : heap) : outcome F :=
  for_range 0 size
    (fun i result =>
       xi ← load h x i;
       yi ← load h y i;
       Ok (result + xi * yi)%sc)
    f0.

(** [axpbyP], lines 79-84: [y = alpha * x + beta * y]. *)
Definition axpbyP (alpha : F) (x : ptr) (beta : F) (y : ptr) (size : nat) (h : heap)
  : outcome heap :=
  for_range 0 size
    (fun i h =>
       xi ← load h x i;
       yi ← load h y i;
       store h y i (alpha * xi + beta * yi)%sc)
    h.

(** [MPI_Allgather(sendbuf, count, MPI_DOUBLE, recvbuf, count, MPI_DOUBLE,
    MPI_COMM_WORLD)]: [sendbufs] are the send buffers of ranks 0, 1, ...;
    every rank sends its first [count] elements and receives, at offset
    [q * count] of [recvbuf], those of rank [q].  The rest of [recvbuf] is
    not written. *)
Definition MPI_Allgather (sendbufs : list (list F)) (count : nat) (recvbuf : list F)
  : outcome (list F) :=
  if forallb (fun s => count <=? length s) sendbufs
     && (length sendbufs * count <=? length recvbuf)
  then Ok (concat (map (take count) sendbufs)
             ++ drop (length sendbufs * count) recvbuf)
  else Undefined.

(** [MPI_Allreduce(&local, &global, 1, MPI_DOUBLE, MPI_SUM, MPI_COMM_WORLD)]:
    the contributions of ranks 0, 1, ... are added in rank order. *)
Definition MPI_Allreduce_sum (contribs : list F) : F :=
  match contribs with
  | [] => f0
  | c :: cs => fold_left fadd cs c
  end.

(** The body of the row loop of [gemvP], lines 109-114. *)
Definition gemvP_row (alpha : F) (A x : ptr) (beta : F) (y : ptr)
    (num_cols start_row : nat) (h : heap) (r : nat) (local_y : list F)
  : outcome (list F) :=
  y_val ← for_range 0 num_cols
            (fun c y_val =>
               a ← load h A (r * num_cols + c);
               xc ← load h x c;
               Ok (y_val + a * xc)%sc)
            f0;
  yr ← load h y r;
  buf_store local_y (r - start_row) (beta * yr + alpha * y_val)%sc.

(** [gemvP], lines 98-115, on participant [rank]: the row band of
    [beta * y + alpha * A * x] written to the local buffer [local_y], which
    is allocated with [local_num_rows] elements. *)
Definition gemvP_local (size_mpi rank : nat)
    (alpha : F) (A x : ptr) (beta : F) (y : ptr) (num_rows num_cols : nat) (h : heap)
  : outcome (list F) :=
  let local_num_rows := num_rows / size_mpi in
  let start_row := rank * local_num_rows in
  let end_row := if rank =? size_mpi - 1 then num_rows
                 else (rank + 1) * local_num_rows in
  (* new double[local_num_rows]: the contents are indeterminate; every
     element that is sent is written before (lemma [gemvP_local_spec]) *)
  let local_y := replicate local_num_rows f0 in
  for_range start_row end_row
    (gemvP_row alpha A x beta y num_cols start_row h)
    local_y.

(** [gemvP], lines 97-120: every participant computes its band, and the
    bands are gathered into [y] on every participant. *)
Definition gemvP (size_mpi : nat)
    (alpha : F) (A x : ptr) (beta : F) (y : ptr) (num_rows num_cols : nat) (h : heap)
  : outcome heap :=
  let local_num_rows := num_rows / size_mpi in
  bands ← for_each (fun rank => gemvP_local size_mpi rank alpha A x beta y
                                  num_rows num_cols h)
                   (seq 0 size_mpi);
  y' ← MPI_Allgather bands local_num_rows (sel h y);
  Ok (upd h y y').

(** [dotP], lines 123-135, on participant [rank]: the partial sum over its
    segment; the last rank takes the remainder. *)
Definition dotP_local (size_mpi rank : nat) (x y : ptr) (size : nat) (h : heap)
  : outcome F :=
  let local_size := size / size_mpi in
  let start := rank * local_size in
  let end_ := if rank =? size_mpi - 1 then size else start + local_size in
  for_range start end_
    (fun i local_sum =>
       xi ← load h x i;
       yi ← load h y i;
       Ok (local_sum + xi * yi)%sc)
    f0.

(** [dotP], lines 122-141. *)
Definition dotP (size_mpi : nat) (x y : ptr) (size : nat) (h : heap) : outcome F :=
  locals ← for_each (fun rank => dotP_local size_mpi rank x y size h)
                    (seq 0 size_mpi);
  Ok (MPI_Allreduce_sum locals).

(* ===================================================================== *)
(** ** The solver *)

(** Lines 153-158. *)
Definition cg_init (size : nat) (h : heap) : outcome heap :=
  for_range 0 size
    (fun i h =>
       h ← store h ptrx i f0;
       bi ← load h ptrb i;
       h ← store h ptrr i bi;
       bi ← load h ptrb i;
       store h ptrp i bi)
    h.

(** The body of the loop, lines 164-174.  The result says whether the
    [break] was taken, and gives the memory and [rr] after the body. *)
Definition cg_body (size_mpi size : nat) (bb rel_error : F) (h : heap) (rr : F)
  : outcome (bool * heap * F) :=
  h ← gemvP size_mpi f1 ptrA ptrp f0 ptrAp size size h;
  pAp ← dotP size_mpi ptrp ptrAp size h;
  let alpha := (rr / pAp)%sc in
  h ← axpbyP alpha ptrp f1 ptrx size h;
  h ← axpbyP (- alpha)%sc ptrAp f1 ptrr size h;
  rr_new ← dotP size_mpi ptrr ptrr size h;
  let beta := (rr_new / rr)%sc in
  let rr := rr_new in
  if (fsqrt (rr / bb) <? rel_error)%sc then Ok (true, h, rr)
  else
    h ← axpbyP f1 ptrr beta ptrp size h;
    Ok (false, h, rr).

(** [for (num_iters = 1; num_iters <= max_iters; num_iters++) body], lines
    163-175, from the test of the loop condition on.  The result is
    [num_iters], the memory and [rr] at the exit of the loop. *)
Fixpoint cg_loop (fuel : nat) (size_mpi size : nat) (max_iters : Z) (bb rel_error : F)
    (num_iters : Z) (h : heap) (rr : F) : outcome (Z * heap * F) :=
  if (num_iters <=? max_iters)%Z then
    match fuel with
    | O => OutOfFuel
    | S fuel' =>
        '(brk, h, rr) ← cg_body size_mpi size bb rel_error h rr;
        if brk : bool then Ok (num_iters, h, rr)
        else
          num_iters ← int_incr num_iters;
          cg_loop fuel' size_mpi size max_iters bb rel_error num_iters h rr
    end
  else Ok (num_iters, h, rr).

(** What rank 0 prints, lines 181-187. *)
Inductive message : Type :=
| Converged (iters : Z) (rel : F)        (* "Converged in %d iterations, relative error is %e" *)
| DidNotConverge (iters : Z) (rel : F).  (* "Did not converge in %d iterations, relative error is %e" *)

Record cg_result : Type := mkResult {
  res_heap : heap;                 (* memory at the return; r, p and Ap as they were when freed *)
  res_num_iters : Z;               (* the local num_iters at the return *)
  res_stdout : option message      (* what this participant printed *)
}.

(** [conjugate_gradients], lines 143-188, on participant [rank] of
    [size_mpi].  In [h] the arrays [A], [b] and [x] are the caller's; [r],
    [p] and [Ap] hold the indeterminate contents of the three
    [new double[size]]. *)
Definition conjugate_gradients (size_mpi rank : nat) (h : heap)
    (size : nat) (max_iters : Z) (rel_error : F) : outcome cg_result :=
  h ← cg_init size h;
  bb ← dotP size_mpi ptrb ptrb size h;
  let rr := bb in
  '(num_iters, h, rr) ← cg_loop (Z.to_nat max_iters) size_mpi size max_iters
                           bb rel_error 1%Z h rr;
  Ok (mkResult h num_iters
        (if rank =? 0 then
           Some (if (num_iters <=? max_iters)%Z
                 then Converged num_iters (fsqrt (rr / bb)%sc)
                 else DidNotConverge max_iters (fsqrt (rr / bb)%sc))
         else None)).

End Kernels.

Arguments heap F : clear implicits.
Arguments message F : clear implicits.
Arguments cg_result F : clear implicits.

(* ===================================================================== *)
(** ** What the kernels compute *)

Section KernelValues.
Context {F : Type} {SF : Scalar F}.

(** [acc += f lo; acc += f (lo+1); ...], [n] times. *)
Fixpoint accum (f : nat -> F) (lo n : nat) (acc : F) : F :=
  match n with
  | O => acc
  | S n' => accum f (S lo) n' (acc + f lo)%sc
  end.

(** The value of [dot]. *)
Definition vdot (x y : list F) (size : nat) : F :=
  accum (fun i => (x !!! i) * (y !!! i))%sc 0 size f0.

(** The number of indices of rank [rank]'s segment in [dotP]. *)
Definition seg_len (size_mpi size rank : nat) : nat :=
  if rank =? size_mpi - 1 then size - rank * (size / size_mpi)
  else size / size_mpi.

(** The value of [dotP]: the partial sums of the ranks, added in rank
    order. *)
Definition vdotP (size_mpi : nat) (x y : list F) (size : nat) : F :=
  MPI_Allreduce_sum
    (map (fun rank =>
            accum (fun i => (x !!! i) * (y !!! i))%sc
                  (rank * (size / size_mpi)) (seg_len size_mpi size rank) f0)
         (seq 0 size_mpi)).

(** The value of [axpbyP] in [y]. *)
Definition vaxpby (alpha : F) (x : list F) (beta : F) (y : list F) : list F :=
  zip_with (fun xi yi => alpha * xi + beta * yi)%sc x y.

(** Row [r] of the value of [gemvP] in [y]. *)
Definition gemv_row (alpha : F) (A x : list F) (beta : F) (y : list F)
    (num_cols r : nat) : F :=
  (beta * (y !!! r)
   + alpha * accum (fun c => (A !!! (r * num_cols + c)%nat) * (x !!! c)) 0 num_cols f0)%sc.

Definition vgemv (alpha : F) (A x : list F) (beta : F) (y : list F)
    (num_rows num_cols : nat) : list F :=
  map (gemv_row alpha A x beta y num_cols) (seq 0 num_rows).


End KernelValues.

Section SolverValues.
Context {F : Type} {SF : Scalar F}.
Implicit Types (h : heap F).

(** The arrays have the sizes [main] gives them: [A] is [size * size],
    every vector is [size]. *)
Definition heap_ok (size : nat) h : Prop :=
  length (cellA h) = size * size /\ length (cellb h) = size
  /\ length (cellx h) = size /\ length (cellr h) = size
  /\ length (cellp h) = size /\ length (cellAp h) = size.

(** Memory after lines 153-158. *)
Definition cg_init_val (size : nat) h : heap F :=
  mkHeap (cellA h) (cellb h) (replicate size f0) (cellb h) (cellb h) (cellAp h).

(** The result of the loop body, lines 164-174, with the kernels replaced
    by their values. *)
Definition cg_body_val (size_mpi size : nat) (bb rel_error : F) h (rr : F)
  : bool * heap F * F :=
  let Ap := vgemv f1 (cellA h) (cellp h) f0 (cellAp h) size size in
  let alpha := (rr / vdotP size_mpi (cellp h) Ap size)%sc in
  let x := vaxpby alpha (cellp h) f1 (cellx h) in
  let r := vaxpby (- alpha)%sc Ap f1 (cellr h) in
  let rr_new := vdotP size_mpi r r size in
  let beta := (rr_new / rr)%sc in
  if (fsqrt (rr_new / bb) <? rel_error)%sc
  then (true, mkHeap (cellA h) (cellb h) x r (cellp h) Ap, rr_new)
  else (false, mkHeap (cellA h) (cellb h) x r (vaxpby f1 r beta (cellp h)) Ap, rr_new).

(** [h'] differs from [h] at most in the arrays of [ws]. *)
Definition writes_only (ws : list ptr) h h' : Prop :=
  forall q, ~ In q ws -> sel h' q = sel h q.

End SolverValues.

(* ===================================================================== *)
(** * Exact arithmetic: definitions *)

(** ** Vectors and matrices over the reals, as the specification words
    them *)

Definition inner (x y : list R) : R :=
  fold_right Rplus 0%R (zip_with Rmult x y).

(** Row [r] of the row-major [N * N] matrix [A]. *)
Definition row (N : nat) (A : list R) (r : nat) : list R :=
  take N (drop (r * N) A).

Definition matvec (N : nat) (A x : list R) : list R :=
  map (fun r => inner (row N A r) x) (seq 0 N).

Definition vadd (x y : list R) : list R := zip_with Rplus x y.
Definition vsub (x y : list R) : list R := zip_with Rminus x y.
Definition vscale (a : R) (x : list R) : list R := map (Rmult a) x.

(** The row-major [N * N] identity matrix. *)
Definition identity {F : Type} {SF : Scalar F} (N : nat) : list F :=
  map (fun i => if i / N =? i mod N then f1 else f0) (seq 0 (N * N)).

Section ExactDefs.
Local Open Scope R_scope.

(** The sum of [f lo], ..., [f (lo + n - 1)]. *)
Definition sum_f (f : nat -> R) (lo n : nat) : R :=
  fold_right Rplus 0 (map f (seq lo n)).

(** The iteration as the specification words it (section 4.4, steps 1 to
    7): the result says whether the loop ends at step 6, and gives [x], [r],
    [p], [Ap] and [rr] after the iteration. *)
Definition spec_iteration (N : nat) (bb rel_tol : R) (A x r p : list R) (rr : R)
  : bool * list R * list R * list R * list R * R :=
  let Ap := matvec N A p in
  let alpha := rr / inner p Ap in
  let x := vadd x (vscale alpha p) in
  let r := vsub r (vscale alpha Ap) in
  let rr_new := inner r r in
  let beta := rr_new / rr in
  let rr := rr_new in
  if Rlt_dec (sqrt (rr / bb)) rel_tol
  then (true, x, r, p, Ap, rr)
  else (false, x, r, vadd r (vscale beta p), Ap, rr).


End ExactDefs.

(* ===================================================================== *)
(** * Binary64: definitions *)

Section Binary64Defs.
Import SpecFloat.

Definition sf_not_negative (x : spec_float) : bool :=
  match x with
  | S754_zero s | S754_infinity s | S754_finite s _ _ => negb s
  | S754_nan => true
  end.

(** The sign bit of [f] is clear, or [f] is NaN: [f] is not negative, and
    not -0.0. *)
Definition not_negative (f : PrimFloat.float) : bool :=
  sf_not_negative (FloatOps.Prim2SF f).

Definition sf_zero_or_nan (x : spec_float) : bool :=
  match x with
  | S754_zero _ | S754_nan => true
  | _ => false
  end.

(** [f] is 0.0, -0.0 or NaN. *)
Definition zero_or_nan (f : PrimFloat.float) : bool :=
  sf_zero_or_nan (FloatOps.Prim2SF f).

(** [f] is finite and not zero. *)
Definition finite_nonzero (f : PrimFloat.float) : bool :=
  match FloatOps.Prim2SF f with
  | S754_finite _ _ _ => true
  | _ => false
  end.


End Binary64Defs.

(* ===================================================================== *)
(** * Example inputs *)

(** Scenario S2 of the specification over the reals: [A = [[4,1],[1,3]]],
    [b = [1,2]]; the other arrays hold arbitrary values. *)
Definition heapR_S2 : heap R :=
  mkHeap [4; 1; 1; 3]%R [1; 2]%R [7; 7]%R [7; 7]%R [7; 7]%R [7; 7]%R.

(** [A] the 2 x 2 identity, [b = [3,4]], over the reals. *)
Definition heapR_I2 : heap R :=
  mkHeap (identity 2) [3; 4]%R [7; 7]%R [7; 7]%R [7; 7]%R [7; 7]%R.

Section Binary64Inputs.
Import PrimFloat.
Local Open Scope float_scope.

(** The default [rel_error] of [main], 1e-9, as the double it denotes. *)
Definition tol_1e9 : float := 0x1.12e0be826d695p-30.

(** Scenario S1: [A = [[4]]], [b = [8]]; the other arrays hold arbitrary
    values, here 7. *)
Definition heap64_S1 : heap float := mkHeap [4] [8] [7] [7] [7] [7].

(** Scenario S1 again, with a NaN in the fresh [Ap]. *)
Definition heap64_S1_nan : heap float := mkHeap [4] [8] [7] [7] [7] [nan].

(** [A = [[1]]], [b = [1]]. *)
Definition heap64_I1 : heap float := mkHeap [1] [1] [7] [7] [7] [7].

(** [A = [[1]]], [b = [0]]: a zero right-hand side. *)
Definition heap64_zero_rhs : heap float := mkHeap [1] [0] [7] [7] [7] [7].

(** A 3 x 3 system, for 2 participants: 3 is not a multiple of 2. *)
Definition heap64_N3 : heap float :=
  mkHeap [1; 0; 0; 0; 1; 0; 0; 0; 1] [1; 2; 3] [7; 7; 7] [7; 7; 7] [7; 7; 7] [7; 7; 7].

(** [A = [[1]]], [b = [2^600]]: the square of [b[0]] is beyond the
    largest double. *)
Definition heap64_big : heap float := mkHeap [1] [0x1p+600] [7] [7] [7] [7].

(** Scenario S2: [A = [[4,1],[1,3]]], [b = [1,2]]. *)
Definition heap64_S2 : heap float :=
  mkHeap [4; 1; 1; 3] [1; 2] [7; 7] [7; 7] [7; 7] [7; 7].

(** What the solver returns on scenario S1 with one participant,
    [max_iters = 10] and [rel_error = 1e-9]: [x = [2]] after one
    iteration. *)
Definition result64_S1 : cg_result float :=
  mkResult (mkHeap [4] [8] [2] [0] [8] [32]) 1 (Some (Converged 1 0)).

End Binary64Inputs.

(* ===================================================================== *)
(** * Runs of the loop body *)

Section Runs.
Context {F : Type} {SF : Scalar F}.

(** [cg_no_break size_mpi size bb rel_error n h rr h' rr']: from the memory
    [h] and [rr], [n] runs of the loop body, none of which takes the
    [break] of line 172, lead to [h'] and [rr']. *)
Inductive cg_no_break (size_mpi size : nat) (bb rel_error : F)
  : nat -> heap F -> F -> heap F -> F -> Prop :=
| cg_no_break_O h rr : cg_no_break size_mpi size bb rel_error 0 h rr h rr
| cg_no_break_S n h rr h1 rr1 h' rr' :
    cg_body size_mpi size bb rel_error h rr = Ok (false, h1, rr1) ->
    cg_no_break size_mpi size bb rel_error n h1 rr1 h' rr' ->
    cg_no_break size_mpi size bb rel_error (S n) h rr h' rr'.

End Runs.

(* ===================================================================== *)
(** * The serial kernels and the parallel loops *)

(** Pointers are compared where a kernel is called with the same array
    twice. *)
#[export] Instance ptr_eq_dec : EqDecision ptr.
Proof. solve_decision. Defined.

Section SerialKernels.
Context {F : Type} {SF : Scalar F}.

(** One iteration of the loop of [axpby] and [axpbyP], lines 75 and 82. *)
Definition axpby_iteration (alpha : F) (x : ptr) (beta : F) (y : ptr)
    (i : nat) (h : heap F) : outcome (heap F) :=
  xi ← load h x i;
  yi ← load h y i;
  store h y i (alpha * xi + beta * yi)%sc.

(** [axpby], lines 72-77: the serial [y = alpha * x + beta * y]. *)
Definition axpby (alpha : F) (x : ptr) (beta : F) (y : ptr) (size : nat) (h : heap F)
  : outcome (heap F) :=
  for_range 0 size (axpby_iteration alpha x beta y) h.

(** [gemv], lines 86-95: the serial [y = alpha * A * x + beta * y]. *)
Definition gemv (alpha : F) (A x : ptr) (beta : F) (y : ptr)
    (num_rows num_cols : nat) (h : heap F) : outcome (heap F) :=
  for_range 0 num_rows
    (fun r h =>
       y_val ← for_range 0 num_cols
                 (fun c y_val =>
                    a ← load h A (r * num_cols + c);
                    xc ← load h x c;
                    Ok (y_val + alpha * a * xc)%sc)
                 f0;
       yr ← load h y r;
       store h y r (beta * yr + y_val)%sc)
    h.

(** Row [r] of the value of [gemv] in [y]. *)
Definition gemv_serial_row (alpha : F) (A x : list F) (beta : F) (y : list F)
    (num_cols r : nat) : F :=
  (beta * (y !!! r)
   + accum (fun c => alpha * (A !!! (r * num_cols + c)%nat) * (x !!! c)) 0 num_cols f0)%sc.

(** The value of [axpby] in [y] after the iterations [done]. *)
Definition axpby_after (alpha : F) (x : list F) (beta : F) (y : list F)
    (done : list nat) : list F :=
  map (fun i => if bool_decide (i ∈ done)
                then (alpha * (x !!! i) + beta * (y !!! i))%sc
                else y !!! i)
      (seq 0 (length y)).

End SerialKernels.

(** [#pragma omp parallel for]: the iterations are run, each once, in an
    order that the schedule and the threads decide. *)
Fixpoint for_in_order {St : Type} (order : list nat) (body : nat -> St -> outcome St)
    (s : St) : outcome St :=
  match order with
  | [] => Ok s
  | i :: order' => s' ← body i s; for_in_order order' body s'
  end.

(* ===================================================================== *)
(** * Binary64: the encoding *)

Section Binary64Bits.
Import SpecFloat.
Local Open Scope Z_scope.

(** The binary64 interchange format: the sign in bit 63, the biased
    exponent in bits 62 to 52, the trailing significand in bits 51 to 0.  A
    NaN has many encodings; the floats of the model have one NaN, which is
    written as the quiet NaN with a clear sign and no payload, and every
    encoding of a NaN is read as it. *)
Definition sign_bit (s : bool) : Z := if s then 2 ^ 63 else 0.

Definition bits_of_sf (x : spec_float) : Z :=
  match x with
  | S754_zero s => sign_bit s
  | S754_infinity s => sign_bit s + 2047 * 2 ^ 52
  | S754_nan => 2047 * 2 ^ 52 + 2 ^ 51
  | S754_finite s m e =>
      if Z.pos m <? 2 ^ 52 then sign_bit s + Z.pos m
      else sign_bit s + (e + 1075) * 2 ^ 52 + (Z.pos m - 2 ^ 52)
  end.

Definition sf_of_bits (b : Z) : spec_float :=
  let s := Z.testbit b 63 in
  let e := (b / 2 ^ 52) mod 2 ^ 11 in
  let m := b mod 2 ^ 52 in
  if e =? 0 then
    if m =? 0 then S754_zero s else S754_finite s (Z.to_pos m) (-1074)
  else if e =? 2047 then
    if m =? 0 then S754_infinity s else S754_nan
  else S754_finite s (Z.to_pos (m + 2 ^ 52)) (e - 1075).

Definition bits_of_double (d : PrimFloat.float) : Z := bits_of_sf (FloatOps.Prim2SF d).
Definition double_of_bits (b : Z) : PrimFloat.float := FloatOps.SF2Prim (sf_of_bits b).


End Binary64Bits.

(* ===================================================================== *)
(** * Output and files *)

(** A [FILE *] the program writes text to. *)
Inductive FILE : Type := stdout | stderr | other_stream (id : nat).

(** An argument of [printf], by its conversion. *)
Inductive printf_arg (F : Type) : Type :=
| arg_zu (n : Z)          (* %zu *)
| arg_d (n : Z)           (* %d *)
| arg_s (s : string)      (* %s *)
| arg_e (x : F)           (* %e *)
| arg_f (x : F).          (* %+6.3f *)
Arguments arg_zu {F} n.
Arguments arg_d {F} n.
Arguments arg_s {F} s.
Arguments arg_e {F} x.
Arguments arg_f {F} x.

(** One call that writes text: the format as the source has it, and the
    arguments; the conversion to characters is not modelled. *)
Inductive output (F : Type) : Type :=
| fprintf (file : FILE) (format : string) (args : list (printf_arg F))
| cout_cpu_time (ticks : Z).   (* std::cout << "Total CPU time = " << cpu_time << std::endl *)
Arguments fprintf {F} file format args.
Arguments cout_cpu_time {F} ticks.

Definition printf {F : Type} (format : string) (args : list (printf_arg F)) : output F :=
  fprintf stdout format args.

(** The files that exist, with their contents, and the paths that
    [fopen(path, "wb")] can open. *)
Record file_system : Type := mkFS {
  fs_files : gmap string (list Init.Byte.byte);
  fs_writable : string -> bool
}.

Section Files.
Local Open Scope Z_scope.

(** [a * b] on [size_t], of 64 bits. *)
Definition size_t_mul (a b : Z) : Z := (a * b) mod 2 ^ 64.

(** The object representations of a [size_t] and of a [double]: 8 bytes,
    the least significant first. *)
Definition bytes_of_size_t (n : Z) : list Init.Byte.byte := LittleEndianList.le_split 8 n.

Definition size_t_of_bytes (bs : list Init.Byte.byte) : Z := LittleEndianList.le_combine bs.

Definition bytes_of_double (d : PrimFloat.float) : list Init.Byte.byte :=
  LittleEndianList.le_split 8 (bits_of_double d).

Definition double_of_bytes (bs : list Init.Byte.byte) : PrimFloat.float :=
  double_of_bits (LittleEndianList.le_combine bs).

(** [new double[n]]: [n] elements, holding whatever [fresh] says. *)
Definition new_double_array {F : Type} (fresh : nat -> F) (n : nat) : list F :=
  map fresh (seq 0 n).

(** [fread(&v, sizeof(size_t), 1, file)] on a file whose unread part is
    [rest], followed by a use of [v]: with fewer than 8 bytes left [v] is
    not read in full and stays indeterminate. *)
Definition fread_size_t (rest : list Init.Byte.byte) : outcome (Z * list Init.Byte.byte) :=
  if (8 <=? length rest)%nat then Ok (size_t_of_bytes (take 8 rest), drop 8 rest)
  else Undefined.

(** [fread(buf, sizeof(double), length buf, file)]: the elements that the
    file has in full are stored, and the elements after the end of the
    file are not written.  An element that the file has in part is left
    with an indeterminate value: the one taken here has the bytes read
    over the bytes it had, as the C libraries leave it. *)
Fixpoint fread_doubles (rest : list Init.Byte.byte) (buf : list PrimFloat.float)
  : list PrimFloat.float :=
  match buf with
  | [] => []
  | d :: buf' =>
      if (8 <=? length rest)%nat
      then double_of_bytes (take 8 rest) :: fread_doubles (drop 8 rest) buf'
      else match rest with
           | [] => buf
           | _ => double_of_bytes (rest ++ drop (length rest) (bytes_of_double d)) :: buf'
           end
  end.

(** [read_matrix_from_file], lines 11-34.  The result is what is printed,
    and, when the function returns [true], the three values it stores
    through its pointer arguments. *)
Definition read_matrix_from_file (fs : file_system) (fresh : nat -> PrimFloat.float)
    (filename : string)
  : outcome (list (output PrimFloat.float) * option (list PrimFloat.float * Z * Z)) :=
  match fs_files fs !! filename with
  | None => Ok ([fprintf stderr "Cannot open output file\n" []], None)
  | Some contents =>
      '(num_rows, rest) ← fread_size_t contents;
      '(num_cols, rest) ← fread_size_t rest;
      let matrix := new_double_array fresh (Z.to_nat (size_t_mul num_rows num_cols)) in
      let matrix := fread_doubles rest matrix in
      Ok ([], Some (matrix, num_rows, num_cols))
  end.

(** [write_matrix_to_file], lines 36-50.  The result is what is printed,
    the value returned and the files after the call. *)
Definition write_matrix_to_file (fs : file_system) (filename : string)
    (matrix : list PrimFloat.float) (num_rows num_cols : Z)
  : outcome (list (output PrimFloat.float) * bool * file_system) :=
  if fs_writable fs filename then
    let n := Z.to_nat (size_t_mul num_rows num_cols) in
    if (n <=? length matrix)%nat then
      Ok ([], true,
          mkFS (<[filename := bytes_of_size_t num_rows ++ bytes_of_size_t num_cols
                              ++ concat (map bytes_of_double (take n matrix))]>
                  (fs_files fs))
               (fs_writable fs))
    else Undefined
  else Ok ([fprintf stderr "Cannot open output file\n" []], false, fs).

(** The header of a file: the two [size_t] it starts with. *)
Definition header (contents : list Init.Byte.byte) : Z * Z :=
  (size_t_of_bytes (take 8 contents), size_t_of_bytes (take 8 (drop 8 contents))).

End Files.

Section PrintMatrix.
Context {F : Type} {SF : Scalar F}.

(** [print_matrix], lines 52-61: the calls of [fprintf] and [printf], in
    order. *)
Definition print_matrix (matrix : list F) (num_rows num_cols : nat) (file : FILE)
  : outcome (list (output F)) :=
  let out := [fprintf file "%zu %zu\n"
                [arg_zu (Z.of_nat num_rows); arg_zu (Z.of_nat num_cols)]] in
  for_range 0 num_rows
    (fun r out =>
       out ← for_range 0 num_cols
               (fun c out =>
                  val ← buf_load matrix (r * num_cols + c);
                  Ok (out ++ [printf "%+6.3f " [arg_f val]]))
               out;
       Ok (out ++ [printf "\n" []]))
    out.

(** What [print_matrix] prints for row [r]. *)
Definition print_matrix_row (matrix : list F) (num_cols r : nat) : list (output F) :=
  map (fun c => printf "%+6.3f " [arg_f (matrix !!! (r * num_cols + c)%nat)])
      (seq 0 num_cols)
  ++ [printf "\n" []].

End PrintMatrix.

(* ===================================================================== *)
(** * The driver *)

(** [MPI_Bcast(buf, count, MPI_DOUBLE, 0, MPI_COMM_WORLD)] on participant
    [rank]: [root_buf] is the buffer of rank 0, whose first [count]
    elements every other participant receives in [buf].  The parameter is
    an [int] and [main] passes a [size_t]: a [count] above [INT_MAX] does
    not arrive as it is, and what the call does then is left undefined. *)
Definition MPI_Bcast {F : Type} (rank : nat) (root_buf : list F) (count : Z)
    (buf : list F) : outcome (list F) :=
  if (count <=? INT_MAX)%Z
     && (Z.to_nat count <=? length root_buf) && (Z.to_nat count <=? length buf)
  then Ok (if rank =? 0 then buf
           else take (Z.to_nat count) root_buf ++ drop (Z.to_nat count) buf)
  else Undefined.

(** What [conjugate_gradients] prints, as a call of [printf]. *)
Definition message_output {F : Type} (m : message F) : output F :=
  match m with
  | Converged iters rel =>
      printf "Converged in %d iterations, relative error is %e\n" [arg_d iters; arg_e rel]
  | DidNotConverge iters rel =>
      printf "Did not converge in %d iterations, relative error is %e\n"
        [arg_d iters; arg_e rel]
  end.

(** How [main] ends on one participant. *)
Inductive exit_status : Type :=
| Exit (code : Z)          (* [return code] *)
| Waits_in_MPI_Bcast.      (* line 266 does not return: the root has left *)

Record main_result : Type := mkMain {
  main_status : exit_status;
  main_output : list (output PrimFloat.float);
  main_files : file_system
}.

Section Main.
(** [atoi] and [atof] of <cstdlib>, which the development takes as
    given. *)
Variable atoi : string -> Z.
Variable atof : string -> PrimFloat.float.

(** Lines 196-207: the arguments, with their defaults. *)
Definition command_line (argv : list string)
  : string * string * string * Z * PrimFloat.float :=
  let argc := length argv in
  let input_file_matrix := if 1 <? argc then argv !!! 1 else "io/matrix.bin" in
  let input_file_rhs := if 2 <? argc then argv !!! 2 else "io/rhs.bin" in
  let output_file_sol := if 3 <? argc then argv !!! 3 else "io/sol.bin" in
  let max_iters := if 4 <? argc then atoi (argv !!! 4) else 1000%Z in
  let rel_error := if 5 <? argc then atof (argv !!! 5) else tol_1e9 in
  (input_file_matrix, input_file_rhs, output_file_sol, max_iters, rel_error).

(** Lines 217-263, which rank 0 runs: what is printed, and either the
    value [main] returns at once or the matrix, the right-hand side,
    [matrix_rows], [matrix_cols] and [size]. *)
Definition main_input (fs : file_system) (fresh : nat -> nat -> PrimFloat.float)
    (input_file_matrix input_file_rhs output_file_sol : string)
    (max_iters : Z) (rel_error : PrimFloat.float)
  : outcome (list (output PrimFloat.float)
             * (Z + list PrimFloat.float * list PrimFloat.float * Z * Z * Z)) :=
  let out :=
    [printf "Usage: ./random_matrix input_file_matrix.bin input_file_rhs.bin output_file_sol.bin max_iters rel_error\n" [];
     printf "All parameters are optional and have default values\n" [];
     printf "\n" [];
     printf "Command line arguments:\n" [];
     printf "  input_file_matrix: %s\n" [arg_s input_file_matrix];
     printf "  input_file_rhs:    %s\n" [arg_s input_file_rhs];
     printf "  output_file_sol:   %s\n" [arg_s output_file_sol];
     printf "  max_iters:         %d\n" [arg_d max_iters];
     printf "  rel_error:         %e\n" [arg_e rel_error];
     printf "\n" [];
     printf "Reading matrix from file ...\n" []] in
  '(out_read, success_read_matrix) ← read_matrix_from_file fs (fresh 0) input_file_matrix;
  let out := out ++ out_read in
  match success_read_matrix with
  | None => Ok (out ++ [fprintf stderr "Failed to read matrix\n" []], inl 1%Z)
  | Some (matrix, matrix_rows, matrix_cols) =>
      let out := out ++ [printf "Done\n" []; printf "\n" [];
                         printf "Reading right hand side from file ...\n" []] in
      '(out_read, success_read_rhs) ← read_matrix_from_file fs (fresh 1) input_file_rhs;
      let out := out ++ out_read in
      match success_read_rhs with
      | None => Ok (out ++ [fprintf stderr "Failed to read right hand side\n" []], inl 2%Z)
      | Some (rhs, rhs_rows, rhs_cols) =>
          let out := out ++ [printf "Done\n" []; printf "\n" []] in
          if negb (matrix_rows =? matrix_cols)%Z then
            Ok (out ++ [fprintf stderr "Matrix has to be square\n" []], inl 3%Z)
          else if negb (rhs_rows =? matrix_rows)%Z then
            Ok (out ++ [fprintf stderr "Size of right hand side does not match the matrix\n" []],
                inl 4%Z)
          else if negb (rhs_cols =? 1)%Z then
            Ok (out ++ [fprintf stderr "Right hand side has to have just a single column\n" []],
                inl 5%Z)
          else
            let size := matrix_rows in
            Ok (out, inr (matrix, rhs, matrix_rows, matrix_cols, size))
      end
  end.

(** [main], lines 190-307, on participant [rank] of [size_mpi].  [fresh k]
    gives the contents of the memory that the [k]-th [new] returns: the
    matrix and the right-hand side read on rank 0 (0, 1), those allocated
    on the other ranks (2, 3), [sol] (4), and the [r], [p] and [Ap] of the
    solver (5, 6, 7).  [finish] is the clock at line 286, in ticks since
    its epoch. *)
Definition main (size_mpi rank : nat) (argv : list string) (fs : file_system)
    (fresh : nat -> nat -> PrimFloat.float) (finish : Z) : outcome main_result :=
  let '(input_file_matrix, input_file_rhs, output_file_sol, max_iters, rel_error) :=
    command_line argv in
  (* rank 0 reads the input; the other ranks learn of it in MPI_Bcast *)
  '(out, input) ← main_input fs fresh input_file_matrix input_file_rhs output_file_sol
                    max_iters rel_error;
  match input with
  | inl code =>
      Ok (if rank =? 0 then mkMain (Exit code) out fs
          else mkMain Waits_in_MPI_Bcast [] fs)
  | inr (matrix0, rhs0, matrix_rows, matrix_cols, size) =>
      let n := Z.to_nat size in
      let matrix :=
        if rank =? 0 then matrix0
        else new_double_array (fresh 2) (Z.to_nat (size_t_mul size size)) in
      let rhs := if rank =? 0 then rhs0 else new_double_array (fresh 3) n in
      (* start is assigned on the other ranks only: on rank 0 it is the epoch *)
      let start := 0%Z in
      matrix ← MPI_Bcast rank matrix0 (size_t_mul matrix_rows matrix_cols) matrix;
      rhs ← MPI_Bcast rank rhs0 matrix_rows rhs;
      let sol := new_double_array (fresh 4) n in
      res ← conjugate_gradients size_mpi rank
              (mkHeap matrix rhs sol (new_double_array (fresh 5) n)
                 (new_double_array (fresh 6) n) (new_double_array (fresh 7) n))
              n max_iters rel_error;
      let sol := cellx (res_heap res) in
      if rank =? 0 then
        let out := out ++ match res_stdout res with
                          | Some m => [message_output m]
                          | None => []
                          end
                       ++ [cout_cpu_time (finish - start);
                           printf "\n\nWriting solution to file ...\n" []] in
        '(out_write, success_write_sol, fs') ←
          write_matrix_to_file fs output_file_sol sol size 1;
        let out := out ++ out_write in
        if success_write_sol : bool then
          Ok (mkMain (Exit 0)
                (out ++ [printf "\nDone\n" []; printf "Finished successfully\n" []]) fs')
        else
          Ok (mkMain (Exit 6) (out ++ [fprintf stderr "Failed to save solution\n" []]) fs')
      else Ok (mkMain (Exit 0) [] fs)
  end.

End Main.

Section MainInput.
Local Open Scope Z_scope.

(** Both input files are there, with the sizes [n * n] and [n * 1] in
    their headers. *)
Definition valid_input (fs : file_system) (fm fr : string) (n : Z) : Prop :=
  exists cm cr,
    fs_files fs !! fm = Some cm /\ fs_files fs !! fr = Some cr
    /\ (16 <= length cm)%nat /\ (16 <= length cr)%nat
    /\ header cm = (n, n) /\ header cr = (n, 1).

(** The input that [main] rejects, with the value it returns on rank 0. *)
Definition input_error (fs : file_system) (fm fr : string) (code : Z) : Prop :=
  (code = 1 /\ fs_files fs !! fm = None)
  \/ (code = 2 /\ fs_files fs !! fm <> None /\ fs_files fs !! fr = None)
  \/ exists cm cr,
       fs_files fs !! fm = Some cm /\ fs_files fs !! fr = Some cr
       /\ (16 <= length cm)%nat /\ (16 <= length cr)%nat
       /\ ((code = 3 /\ (header cm).1 <> (header cm).2)
           \/ (code = 4 /\ (header cm).1 = (header cm).2
               /\ (header cr).1 <> (header cm).1)
           \/ (code = 5 /\ (header cm).1 = (header cm).2
               /\ (header cr).1 = (header cm).1 /\ (header cr).2 <> 1)).

End MainInput.

(* ===================================================================== *)
(** * Further example inputs *)

(** [A = [[2,1],[1,2]]], [b = [1,1]], over the reals: [A b = 3 b]. *)
Definition heapR_E2 : heap R :=
  mkHeap [2; 1; 1; 2]%R [1; 1]%R [7; 7]%R [7; 7]%R [7; 7]%R [7; 7]%R.

Section FileInputs.
Import PrimFloat.
Local Open Scope float_scope.

(** [A = [[3]]], [x = [3]], [y = [0]]; and 0.1 as the double it denotes. *)
Definition heap64_G1 : heap float := mkHeap [3] [3] [0] [7] [7] [7].

Definition tenth : float := 0x1.999999999999ap-4.

(** The files of scenario S1, [A = [[4]]] and [b = [8]], and the file of
    its solution [x = [2]]. *)
Definition matrix_file_S1 : list Init.Byte.byte :=
  bytes_of_size_t 1 ++ bytes_of_size_t 1 ++ bytes_of_double 4.

Definition rhs_file_S1 : list Init.Byte.byte :=
  bytes_of_size_t 1 ++ bytes_of_size_t 1 ++ bytes_of_double 8.

Definition sol_file_S1 : list Init.Byte.byte :=
  bytes_of_size_t 1 ++ bytes_of_size_t 1 ++ bytes_of_double 2.

Definition fs_S1 : file_system :=
  mkFS (<["io/matrix.bin"%string := matrix_file_S1]>
          (<["io/rhs.bin"%string := rhs_file_S1]> ∅))
       (fun _ => true).

(** A right-hand side file cut short: the header of a 2 x 1 matrix, and
    one element. *)
Definition rhs_file_short : list Init.Byte.byte :=
  bytes_of_size_t 2 ++ bytes_of_size_t 1 ++ bytes_of_double 8.

Definition fs_short : file_system :=
  mkFS (<["io/rhs.bin"%string := rhs_file_short]> ∅) (fun _ => true).

(** What is read from it into fresh memory that holds 7. *)
Definition rhs_read_short : list float := [8; 7].

(** The headers of a 3 x 3 system, with no elements. *)
Definition fs_N3 : file_system :=
  mkFS (<["io/matrix.bin"%string := bytes_of_size_t 3 ++ bytes_of_size_t 3]>
          (<["io/rhs.bin"%string := bytes_of_size_t 3 ++ bytes_of_size_t 1]> ∅))
       (fun _ => true).

(** Fresh memory that holds 7 everywhere. *)
Definition fresh7 : nat -> nat -> float := fun _ _ => 7.

(** [atoi] and [atof] for runs that do not call them. *)
Definition atoi0 : string -> Z := fun _ => 0%Z.

Definition atof0 : string -> float := fun _ => 0.

(** What [main] prints and returns on rank 0 for scenario S1, started
    without arguments, when the clock reads 12345 at the end. *)
Definition main_result_S1 : main_result :=
  mkMain (Exit 0)
    [printf "Usage: ./random_matrix input_file_matrix.bin input_file_rhs.bin output_file_sol.bin max_iters rel_error\n" [];
     printf "All parameters are optional and have default values\n" [];
     printf "\n" [];
     printf "Command line arguments:\n" [];
     printf "  input_file_matrix: %s\n" [arg_s "io/matrix.bin"];
     printf "  input_file_rhs:    %s\n" [arg_s "io/rhs.bin"];
     printf "  output_file_sol:   %s\n" [arg_s "io/sol.bin"];
     printf "  max_iters:         %d\n" [arg_d 1000];
     printf "  rel_error:         %e\n" [arg_e tol_1e9];
     printf "\n" [];
     printf "Reading matrix from file ...\n" [];
     printf "Done\n" [];
     printf "\n" [];
     printf "Reading right hand side from file ...\n" [];
     printf "Done\n" [];
     printf "\n" [];
     printf "Converged in %d iterations, relative error is %e\n" [arg_d 1; arg_e 0];
     cout_cpu_time 12345;
     printf "\n\nWriting solution to file ...\n" [];
     printf "\nDone\n" [];
     printf "Finished successfully\n" []]
    (mkFS (<["io/sol.bin"%string := sol_file_S1]> (fs_files fs_S1)) (fs_writable fs_S1)).

End FileInputs.

(* ===================================================================== *)
(** * Facts about the embedding *)

(** ** Loops *)

Lemma bind_Ok {A B : Type} (a : A) (k : A -> outcome B) : (Ok a ≫= k) = k a.
Proof. reflexivity. Qed.

(** One step of a run whose first command has a result. *)
Ltac ok_step := rewrite bind_Ok; cbv beta.

Lemma for_loop_unfold {St : Type} (n i : nat) (body : nat -> St -> outcome St) (s : St) :
  for_loop (S n) i body s = (s' ← body i s; for_loop n (S i) body s').
Proof. reflexivity. Qed.

(** The invariant rule for [for] loops: the loop has a result, and the
    invariant holds of it at the exit index. *)
Lemma for_loop_inv {St : Type} (Inv : nat -> St -> Prop)
    (n i : nat) (body : nat -> St -> outcome St) (s : St) :
  Inv i s ->
  (forall j t, i <= j < i + n -> Inv j t ->
     exists t', body j t = Ok t' /\ Inv (S j) t') ->
  exists s', for_loop n i body s = Ok s' /\ Inv (i + n) s'.
Proof.
  revert i s. induction n as [|n IH]; intros i s H0 Hstep.
  - exists s. rewrite Nat.add_0_r. split; [reflexivity | assumption].
  - destruct (Hstep i s ltac:(lia) H0) as (t & Hb & Ht).
    destruct (IH (S i) t Ht) as (s' & Hl & Hs').
    { intros j u Hj. apply Hstep. lia. }
    exists s'. cbn. rewrite Hb. cbn. split; [exact Hl|].
    replace (i + S n) with (S i + n) by lia. exact Hs'.
Qed.

Lemma for_each_Ok {A B : Type} (f : A -> outcome B) (g : A -> B) (l : list A) :
  (forall a, In a l -> f a = Ok (g a)) ->
  for_each f l = Ok (map g l).
Proof.
  induction l as [|a l IH]; intros H; [reflexivity|].
  cbn. rewrite (H a (or_introl eq_refl)). cbn.
  rewrite IH by (intros; apply H; right; assumption). reflexivity.
Qed.

Section HeapFacts.
Context {F : Type} {SF : Scalar F}.

Lemma sel_upd_eq (h : heap F) (a : ptr) (v : list F) : sel (upd h a v) a = v.
Proof. destruct a; reflexivity. Qed.

Lemma sel_upd_ne (h : heap F) (a a' : ptr) (v : list F) :
  a <> a' -> sel (upd h a v) a' = sel h a'.
Proof. destruct a, a'; intros H; try reflexivity; congruence. Qed.

Lemma upd_upd (h : heap F) (a : ptr) (v w : list F) :
  upd (upd h a v) a w = upd h a w.
Proof. destruct a; reflexivity. Qed.

Lemma upd_sel (h : heap F) (a : ptr) : upd h a (sel h a) = h.
Proof. destruct h, a; reflexivity. Qed.

Lemma buf_load_lt (l : list F) (i : nat) :
  i < length l -> buf_load l i = Ok (l !!! i).
Proof.
  intros H. unfold buf_load.
  rewrite (list_lookup_lookup_total_lt l i H). reflexivity.
Qed.

Lemma buf_store_lt (l : list F) (i : nat) (v : F) :
  i < length l -> buf_store l i v = Ok (<[i:=v]> l).
Proof.
  intros H. unfold buf_store.
  destruct (Nat.ltb_spec i (length l)); [reflexivity | lia].
Qed.

Lemma buf_store_ge (l : list F) (i : nat) (v : F) :
  length l <= i -> buf_store l i v = Undefined.
Proof.
  intros H. unfold buf_store.
  destruct (Nat.ltb_spec i (length l)); [lia | reflexivity].
Qed.

Lemma load_lt (h : heap F) (a : ptr) (i : nat) :
  i < length (sel h a) -> load h a i = Ok (sel h a !!! i).
Proof. apply buf_load_lt. Qed.

Lemma store_lt (h : heap F) (a : ptr) (i : nat) (v : F) :
  i < length (sel h a) -> store h a i v = Ok (upd h a (<[i:=v]> (sel h a))).
Proof. intros H. unfold store. rewrite buf_store_lt by assumption. reflexivity. Qed.

End HeapFacts.


Section KernelSpecs.
Context {F : Type} {SF : Scalar F}.
Implicit Types (h : heap F) (x y : ptr) (l : list F).

Lemma for_loop_accum (f : nat -> F) (n i : nat) (body : nat -> F -> outcome F) (acc : F) :
  (forall j t, i <= j < i + n -> body j t = Ok (t + f j)%sc) ->
  for_loop n i body acc = Ok (accum f i n acc).
Proof.
  revert i acc. induction n as [|n IH]; intros i acc H; [reflexivity|].
  cbn. rewrite H by lia. cbn. apply IH. intros j t Hj. apply H. lia.
Qed.

(** *** [dot] *)

Lemma dot_spec x y (size : nat) h :
  size <= length (sel h x) -> size <= length (sel h y) ->
  dot x y size h = Ok (vdot (sel h x) (sel h y) size).
Proof.
  intros Hx Hy. unfold dot, for_range, vdot. rewrite Nat.sub_0_r.
  apply for_loop_accum. intros j t Hj.
  rewrite !load_lt by lia. reflexivity.
Qed.

(** *** [dotP] *)

Lemma seg_bound (size_mpi size rank : nat) :
  0 < size_mpi -> rank < size_mpi ->
  rank * (size / size_mpi) + seg_len size_mpi size rank <= size.
Proof.
  intros HP Hr. unfold seg_len.
  assert (Hm : size_mpi * (size / size_mpi) <= size) by (apply Nat.Div0.mul_div_le).
  destruct (Nat.eqb_spec rank (size_mpi - 1)) as [->|Hne]; [nia|nia].
Qed.

Lemma dotP_local_spec (size_mpi rank : nat) x y (size : nat) h :
  0 < size_mpi -> rank < size_mpi ->
  size <= length (sel h x) -> size <= length (sel h y) ->
  dotP_local size_mpi rank x y size h
  = Ok (accum (fun i => (sel h x !!! i) * (sel h y !!! i))%sc
              (rank * (size / size_mpi)) (seg_len size_mpi size rank) f0).
Proof.
  intros HP Hr Hx Hy. unfold dotP_local, for_range.
  pose proof (seg_bound size_mpi size rank HP Hr) as Hb.
  assert (Hn : (if rank =? size_mpi - 1 then size
                else rank * (size / size_mpi) + size / size_mpi)
               - rank * (size / size_mpi) = seg_len size_mpi size rank).
  { unfold seg_len. destruct (rank =? size_mpi - 1); lia. }
  rewrite Hn. apply for_loop_accum. intros j t Hj.
  rewrite !load_lt by lia. reflexivity.
Qed.

Lemma dotP_spec (size_mpi : nat) x y (size : nat) h :
  0 < size_mpi ->
  size <= length (sel h x) -> size <= length (sel h y) ->
  dotP size_mpi x y size h = Ok (vdotP size_mpi (sel h x) (sel h y) size).
Proof.
  intros HP Hx Hy. unfold dotP, vdotP.
  erewrite for_each_Ok; [reflexivity|].
  intros rank Hin. apply in_seq in Hin.
  apply dotP_local_spec; lia.
Qed.

(** *** Writing an array front to back *)

Lemma insert_take_drop (new old : list F) (j : nat) (v : F) :
  new !! j = Some v -> j < length old ->
  <[j:=v]> (take j new ++ drop j old) = take (S j) new ++ drop (S j) old.
Proof.
  intros Hn Ho.
  assert (Hj : j < length new) by (eapply lookup_lt_Some; eassumption).
  destruct (lookup_lt_is_Some_2 old j Ho) as [o Hoj].
  rewrite (drop_S old o j Hoj), (take_S_r new j v Hn).
  rewrite <- (Nat.add_0_r j) at 1.
  replace (j + 0) with (length (take j new) + 0)
    by (rewrite length_take; lia).
  rewrite insert_app_r. cbn. rewrite <- app_assoc. reflexivity.
Qed.

Lemma lookup_total_take_drop (new old : list F) (j : nat) :
  j <= length new ->
  (take j new ++ drop j old) !!! j = old !!! j.
Proof.
  intros Hj. rewrite !list_lookup_total_alt.
  rewrite lookup_app_r by (rewrite length_take; lia).
  rewrite length_take, lookup_drop. do 2 f_equal. lia.
Qed.

Lemma length_take_drop (new old : list F) (j : nat) :
  length new = length old -> length (take j new ++ drop j old) = length old.
Proof. intros H. rewrite length_app, length_take, length_drop. lia. Qed.

(** *** [axpbyP] *)

Lemma length_vaxpby (alpha beta : F) l1 l2 :
  length l1 = length l2 -> length (vaxpby alpha l1 beta l2) = length l2.
Proof. intros H. unfold vaxpby. rewrite length_zip_with. lia. Qed.

Lemma lookup_vaxpby (alpha beta : F) l1 l2 (j : nat) :
  j < length l1 -> j < length l2 ->
  vaxpby alpha l1 beta l2 !! j = Some (alpha * (l1 !!! j) + beta * (l2 !!! j))%sc.
Proof.
  intros H1 H2. unfold vaxpby. rewrite lookup_zip_with.
  rewrite (list_lookup_lookup_total_lt l1 j H1), (list_lookup_lookup_total_lt l2 j H2).
  reflexivity.
Qed.

Lemma axpbyP_spec (alpha : F) x (beta : F) y (size : nat) h :
  x <> y -> length (sel h x) = size -> length (sel h y) = size ->
  axpbyP alpha x beta y size h
  = Ok (upd h y (vaxpby alpha (sel h x) beta (sel h y))).
Proof.
  intros Hxy Hx Hy. unfold axpbyP, for_range. rewrite Nat.sub_0_r.
  set (new := vaxpby alpha (sel h x) beta (sel h y)).
  assert (Hlen : length new = length (sel h y))
    by (apply length_vaxpby; congruence).
  destruct (for_loop_inv
              (fun j t => t = upd h y (take j new ++ drop j (sel h y)))
              size 0
              (fun i h0 => xi ← load h0 x i; yi ← load h0 y i;
                           store h0 y i (alpha * xi + beta * yi)%sc) h)
    as (h' & Hrun & Hinv).
  - rewrite take_0, drop_0, app_nil_l, upd_sel. reflexivity.
  - intros j t Hj ->.
    rewrite (load_lt _ x) by (rewrite sel_upd_ne by congruence; lia). ok_step.
    rewrite (load_lt _ y) by (rewrite sel_upd_eq, length_take_drop by assumption; lia).
    ok_step.
    rewrite store_lt by (rewrite sel_upd_eq, length_take_drop by assumption; lia).
    eexists; split; [reflexivity|].
    rewrite !sel_upd_eq, upd_upd, (sel_upd_ne _ y x) by congruence.
    rewrite lookup_total_take_drop by lia.
    rewrite (insert_take_drop new (sel h y) j); [reflexivity| |lia].
    apply lookup_vaxpby; lia.
  - rewrite Hrun, Hinv. cbn.
    rewrite take_ge, drop_ge, app_nil_r by lia. reflexivity.
Qed.

(** *** [gemvP] *)

Lemma gemvP_row_spec (alpha : F) (A x : ptr) (beta : F) y (num_cols start_row : nat)
    h (r : nat) l :
  r * num_cols + num_cols <= length (sel h A) ->
  num_cols <= length (sel h x) ->
  r < length (sel h y) ->
  gemvP_row alpha A x beta y num_cols start_row h r l
  = buf_store l (r - start_row)
      (gemv_row alpha (sel h A) (sel h x) beta (sel h y) num_cols r).
Proof.
  intros HA Hx Hy. unfold gemvP_row, for_range. rewrite Nat.sub_0_r.
  rewrite (for_loop_accum
             (fun c => (sel h A !!! (r * num_cols + c)%nat) * (sel h x !!! c))%sc).
  - ok_step. rewrite load_lt by assumption. ok_step. reflexivity.
  - intros c t Hc. rewrite (load_lt _ A) by lia. ok_step.
    rewrite load_lt by lia. reflexivity.
Qed.

Lemma lookup_map_seq {B : Type} (g : nat -> B) (lo n j : nat) :
  j < n -> map g (seq lo n) !! j = Some (g (lo + j)).
Proof.
  intros Hj. rewrite list_lookup_fmap_Some. exists (lo + j).
  split; [reflexivity|]. apply lookup_seq. auto.
Qed.

Lemma gemvP_local_spec (size_mpi rank : nat) (alpha : F) (A x : ptr) (beta : F) y
    (k num_cols : nat) h :
  0 < size_mpi -> rank < size_mpi ->
  size_mpi * k * num_cols <= length (sel h A) ->
  num_cols <= length (sel h x) ->
  size_mpi * k <= length (sel h y) ->
  gemvP_local size_mpi rank alpha A x beta y (size_mpi * k) num_cols h
  = Ok (map (gemv_row alpha (sel h A) (sel h x) beta (sel h y) num_cols)
            (seq (rank * k) k)).
Proof.
  intros HP Hr HA Hx Hy. unfold gemvP_local, for_range.
  rewrite (Nat.mul_comm size_mpi k), Nat.div_mul by lia.
  set (g := gemv_row alpha (sel h A) (sel h x) beta (sel h y) num_cols).
  set (new := map g (seq (rank * k) k)).
  assert (Hcount : (if rank =? size_mpi - 1 then k * size_mpi else (rank + 1) * k)
                   - rank * k = k).
  { destruct (Nat.eqb_spec rank (size_mpi - 1)); nia. }
  rewrite Hcount.
  assert (Hnew : length new = k) by (unfold new; rewrite length_map, length_seq; reflexivity).
  destruct (for_loop_inv
              (fun j t => t = take (j - rank * k) new
                              ++ drop (j - rank * k) (replicate k f0))
              k (rank * k)
              (gemvP_row alpha A x beta y num_cols (rank * k) h)
              (replicate k f0))
    as (t' & Hrun & Hinv).
  - rewrite Nat.sub_diag, take_0, drop_0. reflexivity.
  - intros j t Hj ->.
    assert (Hjk : j < size_mpi * k) by nia.
    rewrite gemvP_row_spec by nia.
    rewrite buf_store_lt
      by (rewrite length_take_drop; rewrite ?length_replicate; lia).
    eexists; split; [reflexivity|].
    replace (S j - rank * k) with (S (j - rank * k)) by lia.
    apply insert_take_drop; [|rewrite length_replicate; lia].
    unfold new. rewrite lookup_map_seq by lia.
    do 2 f_equal. lia.
  - rewrite Hrun, Hinv.
    replace (rank * k + k - rank * k) with k by lia.
    rewrite take_ge, drop_ge, app_nil_r by (rewrite ?length_replicate; lia).
    reflexivity.
Qed.

Lemma concat_bands {B : Type} (g : nat -> B) (n k : nat) :
  concat (map (fun q => map g (seq (q * k) k)) (seq 0 n)) = map g (seq 0 (n * k)).
Proof.
  induction n as [|n IH]; [reflexivity|].
  rewrite seq_S, map_app, concat_app, IH. cbn [map concat plus].
  rewrite app_nil_r, <- map_app. f_equal.
  replace (S n * k) with (n * k + k) by lia.
  rewrite seq_app. reflexivity.
Qed.

Lemma MPI_Allgather_bands (bands : list (list F)) (k : nat) (recvbuf : list F) :
  Forall (fun s => length s = k) bands ->
  length recvbuf = length bands * k ->
  MPI_Allgather bands k recvbuf = Ok (concat bands).
Proof.
  intros Hb Hlen. unfold MPI_Allgather.
  assert (H1 : forallb (fun s => k <=? length s) bands = true).
  { apply forallb_forall. intros s Hs.
    rewrite Forall_forall in Hb. apply Nat.leb_le.
    rewrite (Hb s) by (apply list_elem_of_In; exact Hs). lia. }
  assert (H2 : (length bands * k <=? length recvbuf) = true)
    by (apply Nat.leb_le; lia).
  rewrite H1, H2. cbn [andb].
  rewrite drop_ge, app_nil_r by lia. do 2 f_equal.
  clear Hlen H1 H2. induction Hb as [|s bands Hs _ IH]; [reflexivity|].
  cbn [map]. rewrite take_ge by lia. f_equal. exact IH.
Qed.

Lemma length_vgemv (alpha beta : F) (A x y : list F) (n m : nat) :
  length (vgemv alpha A x beta y n m) = n.
Proof. unfold vgemv. rewrite length_map, length_seq. reflexivity. Qed.

Lemma gemvP_spec (size_mpi : nat) (alpha : F) (A x : ptr) (beta : F) y
    (k num_cols : nat) h :
  0 < size_mpi ->
  size_mpi * k * num_cols <= length (sel h A) ->
  num_cols <= length (sel h x) ->
  length (sel h y) = size_mpi * k ->
  gemvP size_mpi alpha A x beta y (size_mpi * k) num_cols h
  = Ok (upd h y (vgemv alpha (sel h A) (sel h x) beta (sel h y)
                   (size_mpi * k) num_cols)).
Proof.
  intros HP HA Hx Hy. unfold gemvP.
  set (g := gemv_row alpha (sel h A) (sel h x) beta (sel h y) num_cols).
  rewrite (for_each_Ok _ (fun q => map g (seq (q * k) k))).
  2:{ intros q Hq. apply in_seq in Hq. apply gemvP_local_spec; lia. }
  ok_step.
  rewrite (Nat.mul_comm size_mpi k), Nat.div_mul by lia.
  rewrite MPI_Allgather_bands.
  - ok_step. rewrite concat_bands. unfold vgemv.
    rewrite (Nat.mul_comm k size_mpi). reflexivity.
  - apply Forall_forall. intros s Hs. apply list_elem_of_In, in_map_iff in Hs.
    destruct Hs as (q & <- & _). rewrite length_map, length_seq. reflexivity.
  - rewrite length_map, length_seq. lia.
Qed.

End KernelSpecs.

(** ** The local buffer of [gemvP] when the rows do not divide evenly *)

Lemma for_loop_app {St : Type} (n m i : nat) (body : nat -> St -> outcome St) (s : St) :
  for_loop (n + m) i body s = (s' ← for_loop n i body s; for_loop m (i + n) body s').
Proof.
  revert i s. induction n as [|n IH]; intros i s.
  - cbn. rewrite Nat.add_0_r. reflexivity.
  - cbn [plus]. rewrite !for_loop_unfold.
    destruct (body i s) as [s1| |]; try reflexivity.
    rewrite !bind_Ok, IH. replace (S i + n) with (i + S n) by lia. reflexivity.
Qed.

Section KernelBounds.
Context {F : Type} {SF : Scalar F}.
Implicit Types (h : heap F).

(** The rows of the last rank beyond [num_rows / size_mpi]: the first of
    them is written past the end of [local_y]. *)
Lemma gemvP_local_overflow (size_mpi : nat) (alpha : F) (A x : ptr) (beta : F) (y : ptr)
    (num_rows num_cols : nat) h :
  0 < size_mpi -> num_rows mod size_mpi <> 0 ->
  num_rows * num_cols <= length (sel h A) ->
  num_cols <= length (sel h x) ->
  num_rows <= length (sel h y) ->
  gemvP_local size_mpi (size_mpi - 1) alpha A x beta y num_rows num_cols h
  = Undefined.
Proof.
  intros HP Hmod HA Hx Hy. unfold gemvP_local, for_range.
  rewrite Nat.eqb_refl.
  set (lnr := num_rows / size_mpi).
  pose proof (Nat.div_mod_eq num_rows size_mpi) as Hdm. fold lnr in Hdm.
  set (start := (size_mpi - 1) * lnr).
  assert (Hcount : num_rows - start = lnr + S (num_rows mod size_mpi - 1)).
  { unfold start. nia. }
  rewrite Hcount, for_loop_app.
  destruct (for_loop_inv (fun _ t => length t = lnr) lnr start
              (gemvP_row alpha A x beta y num_cols start h)
              (replicate lnr f0))
    as (t & Hrun & Hlen).
  - apply length_replicate.
  - intros j t Hj Ht.
    rewrite gemvP_row_spec by (unfold start in *; nia).
    rewrite buf_store_lt by lia.
    eexists; split; [reflexivity|]. rewrite length_insert. exact Ht.
  - rewrite Hrun. ok_step. rewrite for_loop_unfold.
    rewrite gemvP_row_spec by (unfold start in *; nia).
    rewrite buf_store_ge by lia. reflexivity.
Qed.

End KernelBounds.

(* ===================================================================== *)
(** ** The solver on well-formed memory *)

Section SolverSpecs.
Context {F : Type} {SF : Scalar F}.
Implicit Types (h : heap F).

Lemma lookup_replicate_lt (size j : nat) (v : F) :
  j < size -> replicate size v !! j = Some v.
Proof. intros H. apply lookup_replicate. auto. Qed.

Lemma cg_init_spec (size : nat) h :
  heap_ok size h -> cg_init size h = Ok (cg_init_val size h).
Proof.
  intros (HA & Hb & Hx & Hr & Hp & HAp). unfold cg_init, for_range.
  rewrite Nat.sub_0_r.
  set (z := replicate size (f0 : F)).
  assert (Hz : length z = size) by apply length_replicate.
  destruct (for_loop_inv
              (fun j t => t = mkHeap (cellA h) (cellb h)
                                (take j z ++ drop j (cellx h))
                                (take j (cellb h) ++ drop j (cellr h))
                                (take j (cellb h) ++ drop j (cellp h))
                                (cellAp h))
              size 0
              (fun i h0 => h1 ← store h0 ptrx i f0;
                           bi ← load h1 ptrb i;
                           h2 ← store h1 ptrr i bi;
                           bi ← load h2 ptrb i;
                           store h2 ptrp i bi) h)
    as (h' & Hrun & Hinv).
  - rewrite !take_0, !drop_0, !app_nil_l. destruct h; reflexivity.
  - intros j t Hj ->.
    rewrite store_lt by (cbn [sel cellx]; rewrite length_take_drop; lia).
    ok_step. cbn [sel upd cellA cellb cellx cellr cellp cellAp].
    rewrite load_lt by (cbn [sel cellb]; lia).
    ok_step. cbn [sel upd cellA cellb cellx cellr cellp cellAp].
    rewrite store_lt by (cbn [sel cellr]; rewrite length_take_drop; lia).
    ok_step. cbn [sel upd cellA cellb cellx cellr cellp cellAp].
    rewrite load_lt by (cbn [sel cellb]; lia).
    ok_step. cbn [sel upd cellA cellb cellx cellr cellp cellAp].
    rewrite store_lt by (cbn [sel cellp]; rewrite length_take_drop; lia).
    eexists; split; [reflexivity|].
    cbn [sel upd cellA cellb cellx cellr cellp cellAp].
    rewrite (insert_take_drop z (cellx h) j)
      by (first [apply lookup_replicate_lt | idtac]; lia).
    rewrite !(insert_take_drop (cellb h) _ j)
      by (first [apply list_lookup_lookup_total_lt | idtac]; lia).
    reflexivity.
  - rewrite Hrun, Hinv. unfold cg_init_val. cbn [plus].
    rewrite !take_ge, !drop_ge, !app_nil_r by lia. reflexivity.
Qed.

Lemma cg_init_ok (size : nat) h : heap_ok size h -> heap_ok size (cg_init_val size h).
Proof.
  intros (HA & Hb & Hx & Hr & Hp & HAp). unfold heap_ok, cg_init_val. cbn.
  rewrite length_replicate. tauto.
Qed.

Lemma cg_body_spec (size_mpi k : nat) (bb rel_error : F) h (rr : F) :
  0 < size_mpi -> heap_ok (size_mpi * k) h ->
  cg_body size_mpi (size_mpi * k) bb rel_error h rr
  = Ok (cg_body_val size_mpi (size_mpi * k) bb rel_error h rr).
Proof.
  intros HP (HA & Hb & Hx & Hr & Hp & HAp). unfold cg_body, cg_body_val.
  rewrite gemvP_spec by (cbn [sel]; lia). ok_step.
  cbn [sel upd cellA cellb cellx cellr cellp cellAp].
  set (Ap := vgemv _ _ _ _ _ _ _).
  assert (HlAp : length Ap = size_mpi * k) by apply length_vgemv.
  rewrite dotP_spec by (cbn [sel cellp cellAp]; lia). ok_step.
  cbn [sel upd cellA cellb cellx cellr cellp cellAp].
  set (alpha := (rr / _)%sc).
  rewrite (axpbyP_spec _ _ _ _ (size_mpi * k)) by (cbn [sel cellp cellx]; congruence).
  ok_step. cbn [sel upd cellA cellb cellx cellr cellp cellAp].
  set (x := vaxpby alpha _ _ _).
  rewrite (axpbyP_spec _ _ _ _ (size_mpi * k)) by (cbn [sel cellAp cellr]; congruence).
  ok_step. cbn [sel upd cellA cellb cellx cellr cellp cellAp].
  set (r := vaxpby (- alpha)%sc _ _ _).
  assert (Hlr : length r = size_mpi * k)
    by (unfold r; rewrite length_vaxpby; congruence).
  rewrite dotP_spec by (cbn [sel cellr]; lia). ok_step.
  cbn [sel upd cellA cellb cellx cellr cellp cellAp].
  destruct (fsqrt _ <? rel_error)%sc; [reflexivity|].
  rewrite (axpbyP_spec _ _ _ _ (size_mpi * k)) by (cbn [sel cellr cellp]; congruence).
  reflexivity.
Qed.

Lemma cg_body_val_ok (size_mpi size : nat) (bb rel_error : F) h (rr : F) :
  heap_ok size h ->
  heap_ok size (cg_body_val size_mpi size bb rel_error h rr).1.2.
Proof.
  intros (HA & Hb & Hx & Hr & Hp & HAp). unfold cg_body_val, heap_ok.
  destruct (fsqrt _ <? rel_error)%sc; cbn;
    rewrite ?length_vaxpby, ?length_vgemv;
    rewrite ?length_vaxpby, ?length_vgemv; try tauto; try congruence;
    rewrite ?length_vgemv; congruence.
Qed.

End SolverSpecs.

(* ===================================================================== *)
(** ** What a run leaves untouched *)

Lemma bind_Ok_inv {A B : Type} (m : outcome A) (k : A -> outcome B) (b : B) :
  (m ≫= k) = Ok b -> exists a, m = Ok a /\ k a = Ok b.
Proof. destruct m as [a| |]; intros H; try discriminate. exists a. auto. Qed.

(** Splits a run with a result into the runs of its commands. *)
Ltac ok_inv H :=
  let a := fresh "v" in
  let H1 := fresh "Hv" in
  apply bind_Ok_inv in H; destruct H as (a & H1 & H).

Lemma for_loop_preserves {St : Type} (Q : St -> Prop)
    (n i : nat) (body : nat -> St -> outcome St) (s s' : St) :
  Q s ->
  (forall j t t', Q t -> body j t = Ok t' -> Q t') ->
  for_loop n i body s = Ok s' -> Q s'.
Proof.
  intros H0 Hstep. revert i s H0. induction n as [|n IH]; intros i s H0 Hrun.
  - cbn in Hrun. congruence.
  - rewrite for_loop_unfold in Hrun. ok_inv Hrun.
    eapply IH; [|exact Hrun]. eapply Hstep; eassumption.
Qed.

Section Frame.
Context {F : Type} {SF : Scalar F}.
Implicit Types (h : heap F).

Lemma writes_only_refl ws h : writes_only ws h h.
Proof. intros q _. reflexivity. Qed.

Lemma writes_only_trans ws h1 h2 h3 :
  writes_only ws h1 h2 -> writes_only ws h2 h3 -> writes_only ws h1 h3.
Proof. intros H12 H23 q Hq. rewrite (H23 q Hq). apply H12, Hq. Qed.

Lemma writes_only_mono ws ws' h h' :
  (forall q, In q ws -> In q ws') -> writes_only ws h h' -> writes_only ws' h h'.
Proof. intros Hsub H q Hq. apply H. intros Hin. apply Hq, Hsub, Hin. Qed.

Lemma writes_only_upd a ws h v : In a ws -> writes_only ws h (upd h a v).
Proof.
  intros Ha q Hq. apply sel_upd_ne. intros ->. contradiction.
Qed.

Lemma store_frame h a i v h' :
  store h a i v = Ok h' -> writes_only [a] h h'.
Proof.
  unfold store. intros H. ok_inv H. inversion H; subst.
  apply writes_only_upd. left; reflexivity.
Qed.

Lemma axpbyP_frame (alpha : F) x (beta : F) y size h h' :
  axpbyP alpha x beta y size h = Ok h' -> writes_only [y] h h'.
Proof.
  unfold axpbyP, for_range.
  apply (for_loop_preserves (fun t => writes_only [y] h t)).
  - apply writes_only_refl.
  - intros j t t' Ht Hb. ok_inv Hb. ok_inv Hb.
    eapply writes_only_trans; [exact Ht|]. eapply store_frame; eassumption.
Qed.

Lemma gemvP_frame size_mpi (alpha : F) A x (beta : F) y num_rows num_cols h h' :
  gemvP size_mpi alpha A x beta y num_rows num_cols h = Ok h' ->
  writes_only [y] h h'.
Proof.
  unfold gemvP. intros H. ok_inv H. ok_inv H. inversion H; subst.
  apply writes_only_upd. left; reflexivity.
Qed.

Lemma cg_init_frame size h h' :
  cg_init size h = Ok h' -> writes_only [ptrx; ptrr; ptrp] h h'.
Proof.
  unfold cg_init, for_range.
  apply (for_loop_preserves (fun t => writes_only [ptrx; ptrr; ptrp] h t)).
  - apply writes_only_refl.
  - intros j t t' Ht Hb. do 4 ok_inv Hb.
    eapply writes_only_trans; [exact Ht|].
    eapply writes_only_trans;
      [eapply writes_only_mono; [|eapply store_frame; eassumption]; cbn; tauto|].
    eapply writes_only_trans;
      [eapply writes_only_mono; [|eapply store_frame; eassumption]; cbn; tauto|].
    eapply writes_only_mono; [|eapply store_frame; eassumption]; cbn; tauto.
Qed.

Lemma cg_body_frame size_mpi size (bb rel_error : F) h rr brk h' rr' :
  cg_body size_mpi size bb rel_error h rr = Ok (brk, h', rr') ->
  writes_only [ptrx; ptrr; ptrp; ptrAp] h h'.
Proof.
  unfold cg_body. intros H. do 5 ok_inv H.
  pose proof (gemvP_frame _ _ _ _ _ _ _ _ _ _ Hv) as W1.
  pose proof (axpbyP_frame _ _ _ _ _ _ _ Hv1) as W2.
  pose proof (axpbyP_frame _ _ _ _ _ _ _ Hv2) as W3.
  assert (W : writes_only [ptrx; ptrr; ptrp; ptrAp] h v2).
  { eapply writes_only_trans;
      [eapply writes_only_mono; [|exact W1]; cbn; tauto|].
    eapply writes_only_trans;
      [eapply writes_only_mono; [|exact W2]; cbn; tauto|].
    eapply writes_only_mono; [|exact W3]; cbn; tauto. }
  destruct (fsqrt _ <? rel_error)%sc.
  - inversion H; subst. exact W.
  - ok_inv H. inversion H; subst.
    eapply writes_only_trans; [exact W|].
    eapply writes_only_mono; [|eapply axpbyP_frame; eassumption]; cbn; tauto.
Qed.

Lemma cg_loop_frame size_mpi size max_iters (bb rel_error : F) fuel :
  forall num_iters h rr n' h' rr',
    cg_loop fuel size_mpi size max_iters bb rel_error num_iters h rr
    = Ok (n', h', rr') ->
    writes_only [ptrx; ptrr; ptrp; ptrAp] h h'.
Proof.
  induction fuel as [|fuel IH]; intros num_iters h rr n' h' rr' H; cbn in H;
    destruct (num_iters <=? max_iters)%Z; try discriminate;
    try (inversion H; subst; apply writes_only_refl).
  ok_inv H. destruct v as [[brk h1] rr1].
  pose proof (cg_body_frame _ _ _ _ _ _ _ _ _ Hv) as W.
  destruct brk.
  - inversion H; subst. exact W.
  - ok_inv H. eapply writes_only_trans; [exact W|]. eapply IH; eassumption.
Qed.

Lemma conjugate_gradients_frame size_mpi rank h size max_iters (rel_error : F) res :
  conjugate_gradients size_mpi rank h size max_iters rel_error = Ok res ->
  writes_only [ptrx; ptrr; ptrp; ptrAp] h (res_heap res).
Proof.
  unfold conjugate_gradients. intros H. do 3 ok_inv H.
  destruct v1 as [[n' h'] rr']. inversion H; subst. cbn [res_heap].
  eapply writes_only_trans;
    [eapply writes_only_mono; [|eapply cg_init_frame; eassumption]; cbn; tauto|].
  eapply cg_loop_frame; eassumption.
Qed.

End Frame.

(* ===================================================================== *)
(** ** Runs of the loop *)

Section Runs.
Context {F : Type} {SF : Scalar F}.
Implicit Types (h : heap F).

Lemma cg_body_val_test size_mpi size (bb rel_error : F) h rr :
  let '(brk, h', rr') := cg_body_val size_mpi size bb rel_error h rr in
  (fsqrt (rr' / bb) <? rel_error)%sc = brk
  /\ cellA h' = cellA h /\ cellb h' = cellb h.
Proof.
  unfold cg_body_val.
  destruct (fsqrt _ <? rel_error)%sc eqn:E; cbn; rewrite E; auto.
Qed.

Lemma int_incr_lt (n : Z) : (n < INT_MAX)%Z -> int_incr n = Ok (n + 1)%Z.
Proof.
  intros H. unfold int_incr. destruct (Z.ltb_spec n INT_MAX); [reflexivity|lia].
Qed.

(** With [max_iters] below [INT_MAX] the loop ends: by the [break], with
    [num_iters] the number of the iteration that took it, or because
    [num_iters] exceeds [max_iters]. *)
Lemma cg_loop_runs (size_mpi k : nat) (max_iters : Z) (bb rel_error : F) :
  0 < size_mpi -> (max_iters < INT_MAX)%Z ->
  forall (fuel : nat) (num_iters : Z) h rr,
    heap_ok (size_mpi * k) h ->
    Z.to_nat (max_iters + 1 - num_iters) <= fuel ->
    exists n' h' rr',
      cg_loop fuel size_mpi (size_mpi * k) max_iters bb rel_error num_iters h rr
      = Ok (n', h', rr')
      /\ heap_ok (size_mpi * k) h'
      /\ ((num_iters <= n' <= max_iters)%Z
          /\ (fsqrt (rr' / bb) <? rel_error)%sc = true
          \/ n' = Z.max num_iters (max_iters + 1)
             /\ ((num_iters <= max_iters)%Z ->
                 (fsqrt (rr' / bb) <? rel_error)%sc = false)
             /\ ((max_iters < num_iters)%Z -> h' = h /\ rr' = rr)).
Proof.
  intros HP Hmax. induction fuel as [|fuel IH]; intros num_iters h rr Hok Hfuel.
  - cbn. destruct (Z.leb_spec num_iters max_iters); [lia|].
    exists num_iters, h, rr. split; [reflexivity|]. split; [assumption|].
    right. repeat split; lia.
  - cbn [cg_loop]. destruct (Z.leb_spec num_iters max_iters).
    2:{ exists num_iters, h, rr. split; [reflexivity|]. split; [assumption|].
        right. repeat split; lia. }
    rewrite cg_body_spec by assumption. ok_step.
    pose proof (cg_body_val_test size_mpi (size_mpi * k) bb rel_error h rr) as Ht.
    pose proof (cg_body_val_ok size_mpi (size_mpi * k) bb rel_error h rr Hok) as Hok'.
    destruct (cg_body_val size_mpi (size_mpi * k) bb rel_error h rr)
      as [[brk h1] rr1].
    cbn [fst snd] in Hok'. destruct Ht as (Ht & _ & _).
    destruct brk.
    + exists num_iters, h1, rr1. split; [reflexivity|]. split; [assumption|].
      left. split; [lia|assumption].
    + rewrite int_incr_lt by lia. ok_step.
      destruct (IH (num_iters + 1)%Z h1 rr1 Hok' ltac:(lia))
        as (n' & h' & rr' & Hrun & Hok'' & Hcase).
      exists n', h', rr'. split; [exact Hrun|]. split; [assumption|].
      destruct Hcase as [(Hn & Hconv)|(Hn & Hno & Hsame)].
      * left. split; [lia|assumption].
      * right. split; [lia|]. split; [|lia].
        intros _. destruct (Z.leb_spec (num_iters + 1) max_iters) as [Hle|Hgt].
        -- apply Hno, Hle.
        -- destruct (Hsame Hgt) as (_ & ->). exact Ht.
Qed.

(** The loop with [max_iters = INT_MAX]: when the [break] is not taken,
    the increment of [num_iters] overflows in the end. *)
Lemma cg_loop_overflow (size_mpi size : nat) (bb rel_error : F) h rr :
  cg_body size_mpi size bb rel_error h rr = Ok (false, h, rr) ->
  forall (fuel : nat) (num_iters : Z),
    (num_iters <= INT_MAX)%Z ->
    Z.to_nat (INT_MAX + 1 - num_iters) <= fuel ->
    cg_loop fuel size_mpi size INT_MAX bb rel_error num_iters h rr = Undefined.
Proof.
  intros Hfix. induction fuel as [|fuel IH]; intros num_iters Hn Hfuel.
  - lia.
  - cbn [cg_loop]. destruct (Z.leb_spec num_iters INT_MAX); [|lia].
    rewrite Hfix. ok_step.
    destruct (Z.eq_dec num_iters INT_MAX) as [->|Hne].
    + reflexivity.
    + rewrite int_incr_lt by lia. ok_step. apply IH; lia.
Qed.

Lemma cg_loop_step (size_mpi size : nat) (max_iters : Z) (bb rel_error : F)
    (fuel : nat) (num_iters : Z) h rr h' rr' :
  (num_iters <= max_iters)%Z -> (num_iters < INT_MAX)%Z ->
  cg_body size_mpi size bb rel_error h rr = Ok (false, h', rr') ->
  cg_loop (S fuel) size_mpi size max_iters bb rel_error num_iters h rr
  = cg_loop fuel size_mpi size max_iters bb rel_error (num_iters + 1)%Z h' rr'.
Proof.
  intros Hle Hlt Hb. cbn [cg_loop].
  destruct (Z.leb_spec num_iters max_iters); [|lia].
  rewrite Hb. ok_step. rewrite int_incr_lt by assumption. reflexivity.
Qed.

End Runs.

(** ** Runs of the solver *)

Section SolverRuns.
Context {F : Type} {SF : Scalar F}.
Implicit Types (h : heap F).

(** On arrays of the sizes of [main], with [size] a multiple of the number
    of participants and [0 <= max_iters < INT_MAX], the solver returns: by
    the [break] in iteration [num_iters <= max_iters], with the test of
    line 171 true, or after [max_iters] iterations, none of which took the
    [break]. *)
Lemma conjugate_gradients_runs (size_mpi k rank : nat) h (max_iters : Z) (rel_error : F) :
  0 < size_mpi -> heap_ok (size_mpi * k) h -> (0 <= max_iters < INT_MAX)%Z ->
  exists res rr bb,
    conjugate_gradients size_mpi rank h (size_mpi * k) max_iters rel_error = Ok res
    /\ heap_ok (size_mpi * k) (res_heap res)
    /\ ((1 <= res_num_iters res <= max_iters)%Z
        /\ (fsqrt (rr / bb) <? rel_error)%sc = true
        /\ res_stdout res
           = (if rank =? 0
              then Some (Converged (res_num_iters res) (fsqrt (rr / bb)%sc))
              else None)
        \/ res_num_iters res = (max_iters + 1)%Z
           /\ ((1 <= max_iters)%Z -> (fsqrt (rr / bb) <? rel_error)%sc = false)
           /\ res_stdout res
              = (if rank =? 0
                 then Some (DidNotConverge max_iters (fsqrt (rr / bb)%sc))
                 else None)).
Proof.
  intros HP Hok Hmax. unfold conjugate_gradients.
  rewrite cg_init_spec by assumption. ok_step.
  pose proof (cg_init_ok _ _ Hok) as Hok0.
  rewrite dotP_spec by (destruct Hok0 as (_ & Hb & _); cbn [sel]; lia). ok_step.
  set (h0 := cg_init_val (size_mpi * k) h) in *.
  set (bb := vdotP size_mpi (sel h0 ptrb) (sel h0 ptrb) (size_mpi * k)).
  destruct (cg_loop_runs size_mpi k max_iters bb rel_error HP ltac:(lia)
              (Z.to_nat max_iters) 1%Z h0 bb Hok0 ltac:(lia))
    as (n' & h' & rr' & Hrun & Hok' & Hcase).
  rewrite Hrun. ok_step.
  eexists. exists rr', bb. split; [reflexivity|].
  cbn [res_heap res_num_iters res_stdout]. split; [assumption|].
  destruct Hcase as [(Hn & Hconv)|(Hn & Hno & _)].
  - left. split; [lia|]. split; [assumption|].
    destruct (Z.leb_spec n' max_iters); [reflexivity|lia].
  - right. split; [lia|]. split; [intros; apply Hno; lia|].
    destruct (Z.leb_spec n' max_iters); [lia|reflexivity].
Qed.

(** With [max_iters = 0] the body is never run; [size] need not be a
    multiple of the number of participants. *)
Lemma conjugate_gradients_0 (size_mpi size rank : nat) h (rel_error : F) :
  0 < size_mpi -> heap_ok size h ->
  conjugate_gradients size_mpi rank h size 0 rel_error
  = Ok (mkResult (cg_init_val size h) 1
          (if rank =? 0
           then Some (DidNotConverge 0
                        (fsqrt (vdotP size_mpi (cellb h) (cellb h) size
                                / vdotP size_mpi (cellb h) (cellb h) size)%sc))
           else None)).
Proof.
  intros HP Hok. unfold conjugate_gradients.
  rewrite cg_init_spec by assumption. ok_step.
  pose proof (cg_init_ok _ _ Hok) as Hok0.
  rewrite dotP_spec by (destruct Hok0 as (_ & Hb & _); cbn [sel]; lia).
  reflexivity.
Qed.

End SolverRuns.

(* ===================================================================== *)
(** * Exact arithmetic *)

Section Exact.
Local Open Scope R_scope.
Implicit Types (x y : list R) (h : heap R).

Lemma sum_f_S (f : nat -> R) (lo n : nat) :
  sum_f f lo (S n) = f lo + sum_f f (S lo) n.
Proof. reflexivity. Qed.

Lemma sum_f_app (f : nat -> R) (lo n m : nat) :
  sum_f f lo (n + m) = sum_f f lo n + sum_f f (lo + n) m.
Proof.
  revert lo. induction n as [|n IH]; intros lo.
  - cbn [plus]. unfold sum_f at 2. cbn. rewrite Nat.add_0_r. lra.
  - cbn [plus]. rewrite !sum_f_S, IH.
    replace (S lo + n)%nat with (lo + S n)%nat by lia. lra.
Qed.

Lemma sum_f_ext (f g : nat -> R) (lo n : nat) :
  (forall j, (lo <= j < lo + n)%nat -> f j = g j) -> sum_f f lo n = sum_f g lo n.
Proof.
  revert lo. induction n as [|n IH]; intros lo H; [reflexivity|].
  rewrite !sum_f_S, (H lo) by lia. f_equal. apply IH. intros j Hj. apply H. lia.
Qed.

Lemma accum_sum (f : nat -> R) (lo n : nat) (acc : R) :
  accum f lo n acc = acc + sum_f f lo n.
Proof.
  revert lo acc. induction n as [|n IH]; intros lo acc.
  - unfold sum_f. cbn. lra.
  - cbn [accum]. rewrite IH, sum_f_S. cbn. lra.
Qed.

Lemma zip_with_seq {B : Type} (g : R -> R -> B) x y (n : nat) :
  length x = n -> length y = n ->
  zip_with g x y = map (fun i => g (x !!! i) (y !!! i)) (seq 0 n).
Proof.
  intros Hx Hy. apply list_eq. intros i.
  rewrite lookup_zip_with, list_lookup_fmap.
  destruct (Nat.lt_ge_cases i n) as [Hi|Hi].
  - rewrite (list_lookup_lookup_total_lt x i), (list_lookup_lookup_total_lt y i) by lia.
    rewrite (lookup_seq_lt 0 n i Hi). reflexivity.
  - rewrite (lookup_ge_None_2 x i) by lia.
    rewrite (lookup_seq_ge 0 n i Hi). reflexivity.
Qed.

Lemma inner_sum x y (n : nat) :
  length x = n -> length y = n ->
  inner x y = sum_f (fun i => (x !!! i) * (y !!! i)) 0 n.
Proof.
  intros Hx Hy. unfold inner, sum_f.
  rewrite (zip_with_seq Rmult x y n Hx Hy). reflexivity.
Qed.

Lemma vdot_inner x y (n : nat) :
  length x = n -> length y = n -> vdot x y n = inner x y.
Proof.
  intros Hx Hy. unfold vdot. rewrite accum_sum, (inner_sum x y n Hx Hy).
  cbn. lra.
Qed.

Lemma Allreduce_sum_fold (l : list R) :
  MPI_Allreduce_sum l = fold_right Rplus 0 l.
Proof.
  destruct l as [|c cs]; [reflexivity|]. cbn [MPI_Allreduce_sum fold_right].
  revert c. induction cs as [|d cs IH]; intros c; cbn.
  - lra.
  - rewrite IH. lra.
Qed.

Lemma sum_bands (f : nat -> R) (m k : nat) :
  fold_right Rplus 0 (map (fun q => sum_f f (q * k) k) (seq 0 m))
  = sum_f f 0 (m * k).
Proof.
  induction m as [|m IH]; [reflexivity|].
  rewrite seq_S, map_app, fold_right_app. cbn [map fold_right plus].
  replace (S m * k)%nat with (m * k + k)%nat by lia.
  rewrite sum_f_app, <- IH. cbn [plus].
  generalize (map (fun q => sum_f f (q * k) k) (seq 0 m)).
  generalize (sum_f f (m * k) k). intros v l.
  induction l as [|a l IHl]; cbn; [lra|]. rewrite IHl. lra.
Qed.

Lemma fold_right_Rplus_app (l1 l2 : list R) :
  fold_right Rplus 0 (l1 ++ l2) = fold_right Rplus 0 l1 + fold_right Rplus 0 l2.
Proof. induction l1 as [|a l1 IH]; cbn; [lra|]. rewrite IH. lra. Qed.

Lemma accum_sum0 (f : nat -> R) (lo n : nat) :
  accum f lo n f0 = sum_f f lo n.
Proof. rewrite accum_sum. change (f0 : R) with 0. lra. Qed.

Lemma vdotP_sum (size_mpi : nat) x y (size : nat) :
  (0 < size_mpi)%nat ->
  vdotP size_mpi x y size
  = sum_f (fun i => (x !!! i) * (y !!! i)) 0 size.
Proof.
  intros HP. unfold vdotP. rewrite Allreduce_sum_fold.
  set (f := fun i : nat => x !!! i * y !!! i).
  change (fun i : nat => (x !!! i * y !!! i)%sc) with f.
  destruct size_mpi as [|m]; [lia|].
  set (k := (size / S m)%nat).
  assert (Hk : (m * k <= size)%nat).
  { pose proof (Nat.Div0.mul_div_le size (S m)) as H. fold k in H. lia. }
  rewrite seq_S, map_app, fold_right_Rplus_app. cbn [map fold_right plus].
  rewrite (map_ext_in _ (fun q => sum_f f (q * k) k)).
  2:{ intros q Hq. apply in_seq in Hq. unfold seg_len. fold k.
      destruct (Nat.eqb_spec q (S m - 1)); [lia|].
      apply accum_sum0. }
  rewrite sum_bands, accum_sum0. unfold seg_len. fold k.
  replace (S m - 1)%nat with m by lia. rewrite Nat.eqb_refl.
  rewrite Rplus_0_r.
  transitivity (sum_f f 0 (m * k + (size - m * k))).
  - rewrite sum_f_app. reflexivity.
  - f_equal. lia.
Qed.

Lemma vdotP_inner (size_mpi : nat) x y (size : nat) :
  (0 < size_mpi)%nat -> length x = size -> length y = size ->
  vdotP size_mpi x y size = inner x y.
Proof.
  intros HP Hx Hy. rewrite vdotP_sum by assumption.
  symmetry. apply inner_sum; assumption.
Qed.

Lemma length_row (N : nat) (A : list R) (r : nat) :
  (r * N + N <= length A)%nat -> length (row N A r) = N.
Proof. intros H. unfold row. rewrite length_take, length_drop. lia. Qed.

Lemma row_lookup (N : nat) (A : list R) (r c : nat) :
  (c < N)%nat -> row N A r !!! c = A !!! (r * N + c)%nat.
Proof.
  intros Hc. unfold row.
  rewrite lookup_total_take_lt by assumption. apply lookup_total_drop.
Qed.

Lemma gemv_row_exact (alpha beta : R) (A : list R) x y (N r : nat) :
  length A = (N * N)%nat -> length x = N -> (r < N)%nat ->
  gemv_row alpha A x beta y N r = alpha * inner (row N A r) x + beta * (y !!! r).
Proof.
  intros HA Hx Hr. unfold gemv_row. rewrite accum_sum0.
  rewrite (inner_sum (row N A r) x N) by (try apply length_row; nia).
  rewrite (sum_f_ext (fun i => row N A r !!! i * x !!! i)
                     (fun c => A !!! (r * N + c)%nat * x !!! c))
    by (intros j Hj; rewrite row_lookup by lia; reflexivity).
  change (beta * y !!! r + alpha * sum_f (fun c => A !!! (r * N + c)%nat * x !!! c) 0 N
          = alpha * sum_f (fun c => A !!! (r * N + c)%nat * x !!! c) 0 N
            + beta * y !!! r).
  lra.
Qed.

Lemma matvec_lookup (N : nat) (A : list R) x (r : nat) :
  (r < N)%nat -> matvec N A x !!! r = inner (row N A r) x.
Proof.
  intros Hr. apply list_lookup_total_correct. unfold matvec.
  rewrite lookup_map_seq by assumption. reflexivity.
Qed.

Lemma length_matvec (N : nat) (A : list R) x : length (matvec N A x) = N.
Proof. unfold matvec. rewrite length_map, length_seq. reflexivity. Qed.

Lemma vgemv_exact (alpha beta : R) (A : list R) x y (N : nat) :
  length A = (N * N)%nat -> length x = N -> length y = N ->
  vgemv alpha A x beta y N N
  = zip_with (fun ax yi => alpha * ax + beta * yi) (matvec N A x) y.
Proof.
  intros HA Hx Hy. unfold vgemv.
  rewrite (zip_with_seq _ (matvec N A x) y N) by (try apply length_matvec; assumption).
  apply map_ext_in. intros r Hr. apply in_seq in Hr.
  rewrite gemv_row_exact, matvec_lookup by lia. reflexivity.
Qed.

Lemma vgemv_matvec (A : list R) x y (N : nat) :
  length A = (N * N)%nat -> length x = N -> length y = N ->
  vgemv f1 A x f0 y N N = matvec N A x.
Proof.
  intros HA Hx Hy. rewrite vgemv_exact by assumption.
  rewrite (zip_with_seq _ (matvec N A x) y N) by (try apply length_matvec; assumption).
  transitivity (map (fun r => inner (row N A r) x) (seq 0 N)); [|reflexivity].
  apply map_ext_in. intros r Hr. apply in_seq in Hr.
  rewrite matvec_lookup by lia.
  change (1 * inner (row N A r) x + 0 * y !!! r = inner (row N A r) x). lra.
Qed.

Lemma vaxpby_x (alpha : R) (p x : list R) :
  vaxpby alpha p f1 x = vadd x (vscale alpha p).
Proof.
  unfold vaxpby, vadd, vscale. revert x.
  induction p as [|a p IH]; intros [|b x]; try reflexivity.
  cbn [zip_with map]. rewrite IH. f_equal.
  change (alpha * a + 1 * b = b + alpha * a). lra.
Qed.

Lemma vaxpby_r (alpha : R) (Ap r : list R) :
  vaxpby (- alpha)%sc Ap f1 r = vsub r (vscale alpha Ap).
Proof.
  unfold vaxpby, vsub, vscale. revert r.
  induction Ap as [|a Ap IH]; intros [|b r]; try reflexivity.
  cbn [zip_with map]. rewrite IH. f_equal.
  change (- alpha * a + 1 * b = b - alpha * a). lra.
Qed.

Lemma vaxpby_p (beta : R) (r p : list R) :
  vaxpby f1 r beta p = vadd r (vscale beta p).
Proof.
  unfold vaxpby, vadd, vscale. revert p.
  induction r as [|a r IH]; intros [|b p]; try reflexivity.
  cbn [zip_with map]. rewrite IH. f_equal.
  change (1 * a + beta * b = a + beta * b). lra.
Qed.

Lemma length_vsub x y : length x = length y -> length (vsub x y) = length y.
Proof. intros H. unfold vsub. rewrite length_zip_with. lia. Qed.

Lemma length_vscale (a : R) x : length (vscale a x) = length x.
Proof. apply length_map. Qed.

(** The convergence test in exact arithmetic. *)
Lemma exact_ltb_false (a b : R) : (a <? b)%sc = false <-> b <= a.
Proof.
  cbn. destruct (Rlt_dec a b); split; intros; try congruence; try lra.
Qed.

Lemma cg_body_val_exact (size_mpi N : nat) (bb rel_tol : R) h (rr : R) :
  (0 < size_mpi)%nat -> heap_ok N h ->
  cg_body_val size_mpi N bb rel_tol h rr
  = let '(brk, x, r, p, Ap, rr') :=
      spec_iteration N bb rel_tol (cellA h) (cellx h) (cellr h) (cellp h) rr in
    (brk, mkHeap (cellA h) (cellb h) x r p Ap, rr').
Proof.
  intros HP (HA & Hb & Hx & Hr & Hp & HAp). unfold cg_body_val, spec_iteration.
  rewrite vgemv_matvec by assumption.
  set (Ap := matvec N (cellA h) (cellp h)).
  assert (HlAp : length Ap = N) by apply length_matvec.
  rewrite (vdotP_inner size_mpi (cellp h) Ap N) by assumption.
  change (rr / inner (cellp h) Ap)%sc with (rr / inner (cellp h) Ap).
  set (alpha := rr / inner (cellp h) Ap).
  rewrite (vaxpby_r alpha Ap (cellr h)), (vaxpby_x alpha (cellp h) (cellx h)).
  set (r := vsub (cellr h) (vscale alpha Ap)).
  assert (Hlr : length r = N).
  { unfold r. rewrite length_vsub; rewrite ?length_vscale; congruence. }
  rewrite (vdotP_inner size_mpi r r N) by assumption.
  rewrite vaxpby_p.
  change (fsqrt (inner r r / bb)%sc <? rel_tol)%sc
    with (if Rlt_dec (sqrt (inner r r / bb)) rel_tol then true else false).
  destruct (Rlt_dec (sqrt (inner r r / bb)) rel_tol); reflexivity.
Qed.

End Exact.

(** ** Squares, zero vectors and the identity matrix *)

Section ExactVectors.
Local Open Scope R_scope.
Implicit Types (x y : list R).

Lemma inner_cons (a b : R) x y : inner (a :: x) (b :: y) = a * b + inner x y.
Proof. reflexivity. Qed.

Lemma inner_self_nonneg x : 0 <= inner x x.
Proof.
  induction x as [|a x IH]; [unfold inner; cbn; lra|].
  rewrite inner_cons. nra.
Qed.

Lemma inner_self_zero x : inner x x = 0 -> x = replicate (length x) 0.
Proof.
  induction x as [|a x IH]; [reflexivity|].
  rewrite inner_cons. intros H. pose proof (inner_self_nonneg x) as Hx.
  assert (Ha : a = 0) by nra.
  assert (Hi : inner x x = 0) by nra.
  cbn [length replicate]. rewrite <- (IH Hi), Ha. reflexivity.
Qed.

Lemma inner_zero (n : nat) : inner (replicate n 0) (replicate n 0) = 0.
Proof.
  induction n as [|n IH]; [reflexivity|].
  cbn [replicate]. rewrite inner_cons, IH. lra.
Qed.

Lemma vadd_zero_scale1 x : vadd (replicate (length x) 0) (vscale 1 x) = x.
Proof.
  induction x as [|a x IH]; [reflexivity|].
  cbn [length replicate]. unfold vadd, vscale in *. cbn [map zip_with].
  rewrite IH. f_equal. lra.
Qed.

Lemma vsub_scale1 x : vsub x (vscale 1 x) = replicate (length x) 0.
Proof.
  induction x as [|a x IH]; [reflexivity|].
  cbn [length replicate]. unfold vsub, vscale in *. cbn [map zip_with].
  rewrite IH. f_equal. lra.
Qed.

Lemma sum_delta (v : nat -> R) (r lo n : nat) :
  sum_f (fun c => (if r =? c then 1 else 0) * v c) lo n
  = if (lo <=? r) && (r <? lo + n) then v r else 0.
Proof.
  revert lo. induction n as [|n IH]; intros lo.
  - unfold sum_f. cbn [seq map fold_right].
    destruct (Nat.leb_spec lo r), (Nat.ltb_spec r (lo + 0)); cbn; try reflexivity.
    lia.
  - rewrite sum_f_S, IH.
    destruct (Nat.eqb_spec r lo) as [->|Hne].
    + destruct (Nat.leb_spec (S lo) lo); [lia|].
      destruct (Nat.leb_spec lo lo); [|lia].
      destruct (Nat.ltb_spec lo (lo + S n)); [|lia]. cbn. lra.
    + destruct (Nat.leb_spec (S lo) r), (Nat.leb_spec lo r),
        (Nat.ltb_spec r (S lo + n)), (Nat.ltb_spec r (lo + S n));
        cbn; try lra; lia.
Qed.

Lemma identity_lookup (N r c : nat) :
  (r < N)%nat -> (c < N)%nat ->
  (identity N : list R) !!! (r * N + c)%nat = if r =? c then 1 else 0.
Proof.
  intros Hr Hc. apply list_lookup_total_correct. unfold identity.
  rewrite lookup_map_seq by nia. cbn [plus].
  rewrite Nat.div_add_l, (Nat.div_small c N), Nat.add_0_r by lia.
  rewrite (Nat.add_comm (r * N) c), Nat.Div0.mod_add, (Nat.mod_small c N) by lia.
  reflexivity.
Qed.

Lemma length_identity {F : Type} {SF : Scalar F} (N : nat) :
  length (identity N : list F) = (N * N)%nat.
Proof. unfold identity. rewrite length_map, length_seq. reflexivity. Qed.

Lemma matvec_identity (N : nat) x :
  length x = N -> matvec N (identity N) x = x.
Proof.
  intros Hx. unfold matvec.
  apply list_eq_same_length with N;
    [assumption | rewrite length_map, length_seq; reflexivity |].
  intros r a b Hr Ha Hb. rewrite lookup_map_seq in Ha by assumption.
  cbn [plus] in Ha. inversion Ha as [Ha']. clear Ha.
  apply list_lookup_total_correct in Hb. rewrite <- Hb.
  rewrite (inner_sum (row N (identity N) r) x N)
    by (try apply length_row; rewrite ?length_identity; nia).
  rewrite (sum_f_ext _ (fun c => (if r =? c then 1 else 0) * x !!! c)).
  2:{ intros c Hc. rewrite row_lookup, identity_lookup by lia. reflexivity. }
  rewrite sum_delta.
  destruct (Nat.leb_spec 0 r), (Nat.ltb_spec r (0 + N)); cbn; try reflexivity; lia.
Qed.

End ExactVectors.

Section ExactTests.
Local Open Scope R_scope.

Lemma nonzero_inner_pos (x : list R) :
  x <> replicate (length x) 0 -> 0 < inner x x.
Proof.
  intros Hx. pose proof (inner_self_nonneg x) as H.
  destruct (Req_dec (inner x x) 0) as [H0|H0]; [|lra].
  exfalso. apply Hx, inner_self_zero, H0.
Qed.

(** The convergence test never holds for a tolerance that is not
    positive. *)
Lemma exact_test_nonpos (v rel_tol : R) :
  rel_tol <= 0 -> (fsqrt v <? rel_tol)%sc = false.
Proof.
  intros H. apply exact_ltb_false. pose proof (sqrt_pos v). cbn. lra.
Qed.

End ExactTests.

(** ** The loop of the solver and the loop of the specification *)

Section ExactLoop.
Local Open Scope R_scope.
Implicit Types (h : heap R).



End ExactLoop.

(* ===================================================================== *)
(** * Binary64 arithmetic *)

(** ** Sums whose terms all have a property that addition keeps *)

Section ClosedSums.
Context {F : Type} {SF : Scalar F}.
Variable Q : F -> Prop.
Hypothesis Q_add : forall a b, Q a -> Q b -> Q (a + b)%sc.

Lemma accum_closed (f : nat -> F) (lo n : nat) (acc : F) :
  (forall j, lo <= j < lo + n -> Q (f j)) -> Q acc -> Q (accum f lo n acc).
Proof using Q_add.
  revert lo acc. induction n as [|n IH]; intros lo acc Hf Hacc; [exact Hacc|].
  cbn [accum]. apply IH.
  - intros j Hj. apply Hf. lia.
  - apply Q_add; [exact Hacc|]. apply Hf. lia.
Qed.

Lemma Allreduce_closed (l : list F) :
  (l = [] -> Q f0) -> Forall Q l -> Q (MPI_Allreduce_sum l).
Proof using Q_add.
  intros H0 Hl. destruct Hl as [|c cs Hc Hcs]; [apply H0; reflexivity|].
  cbn [MPI_Allreduce_sum]. clear H0. revert c Hc.
  induction Hcs as [|d cs Hd _ IH]; intros c Hc; [exact Hc|].
  cbn [fold_left]. apply IH. apply Q_add; assumption.
Qed.

Lemma vdotP_closed (size_mpi : nat) (x y : list F) (size : nat) :
  0 < size_mpi -> Q f0 ->
  (forall i, i < size -> Q ((x !!! i) * (y !!! i))%sc) ->
  Q (vdotP size_mpi x y size).
Proof using Q_add.
  intros HP H0 Hxy. unfold vdotP. apply Allreduce_closed; [intros _; exact H0|].
  apply Forall_forall. intros v Hv. apply list_elem_of_In, in_map_iff in Hv.
  destruct Hv as (q & <- & Hq). apply in_seq in Hq.
  pose proof (seg_bound size_mpi size q HP ltac:(lia)).
  apply accum_closed; [|exact H0]. intros j Hj. apply Hxy. lia.
Qed.

End ClosedSums.

Section Binary64Facts.
Import SpecFloat.

Lemma binary_round_aux_sign (s : bool) (m e : Z) (l : location) :
  match binary_round_aux FloatOps.prec FloatOps.emax s m e l with
  | S754_zero s' | S754_infinity s' | S754_finite s' _ _ => s' = s
  | S754_nan => True
  end.
Proof.
  unfold binary_round_aux.
  destruct (shr_fexp _ _ m e l) as [mrs' e'].
  destruct (shr_fexp _ _ _ e' loc_Exact) as [mrs'' e''].
  destruct (shr_m mrs''); [reflexivity| |exact I].
  destruct (Z.leb _ _); reflexivity.
Qed.

Lemma binary_round_aux_not_negative (m e : Z) (l : location) :
  sf_not_negative (binary_round_aux FloatOps.prec FloatOps.emax false m e l) = true.
Proof.
  pose proof (binary_round_aux_sign false m e l) as H.
  destruct (binary_round_aux _ _ false m e l); cbn; try rewrite H; reflexivity.
Qed.

Lemma SFmul_self_not_negative (x : spec_float) :
  sf_not_negative (SFmul FloatOps.prec FloatOps.emax x x) = true.
Proof.
  destruct x as [s|s| |s m e]; cbn [SFmul sf_not_negative];
    rewrite ?Bool.xorb_nilpotent; try reflexivity.
  apply binary_round_aux_not_negative.
Qed.

Lemma SFadd_not_negative (x y : spec_float) :
  sf_not_negative x = true -> sf_not_negative y = true ->
  sf_not_negative (SFadd FloatOps.prec FloatOps.emax x y) = true.
Proof.
  destruct x as [[|]|[|]| |[|] mx ex], y as [[|]|[|]| |[|] my ey];
    cbn [sf_not_negative negb]; intros Hx Hy; try discriminate; try reflexivity.
  cbn [SFadd cond_Zopp]. unfold binary_normalize.
  change (Z.add (Zpos ?a) (Zpos ?b)) with (Zpos (a + b)).
  unfold binary_round.
  destruct (shl_align _ _ _) as [mz ez].
  apply binary_round_aux_not_negative.
Qed.

Lemma SFdiv_not_negative (x y : spec_float) :
  sf_not_negative x = true -> sf_not_negative y = true ->
  sf_not_negative (SFdiv FloatOps.prec FloatOps.emax x y) = true.
Proof.
  destruct x as [[|]|[|]| |[|] mx ex], y as [[|]|[|]| |[|] my ey];
    cbn [sf_not_negative negb]; intros Hx Hy; try discriminate; try reflexivity.
  cbn [SFdiv xorb].
  destruct (SFdiv_core_binary _ _ _ _ _ _) as [[mz ez] lz].
  apply binary_round_aux_not_negative.
Qed.

Lemma not_negative_0 : not_negative f0 = true.
Proof. reflexivity. Qed.

Lemma not_negative_mul_self (f : PrimFloat.float) : not_negative (f * f)%sc = true.
Proof.
  unfold not_negative. cbn [fmul binary64].
  rewrite FloatAxioms.mul_spec. apply SFmul_self_not_negative.
Qed.

Lemma not_negative_add (a b : PrimFloat.float) :
  not_negative a = true -> not_negative b = true -> not_negative (a + b)%sc = true.
Proof.
  unfold not_negative. cbn [fadd binary64]. intros Ha Hb.
  rewrite FloatAxioms.add_spec. apply SFadd_not_negative; assumption.
Qed.

Lemma not_negative_div (a b : PrimFloat.float) :
  not_negative a = true -> not_negative b = true -> not_negative (a / b)%sc = true.
Proof.
  unfold not_negative. cbn [fdiv binary64]. intros Ha Hb.
  rewrite FloatAxioms.div_spec. apply SFdiv_not_negative; assumption.
Qed.

Lemma vdotP_self_not_negative (size_mpi : nat) (x : list PrimFloat.float) (size : nat) :
  0 < size_mpi -> not_negative (vdotP size_mpi x x size) = true.
Proof.
  intros HP.
  apply (vdotP_closed (fun f => not_negative f = true) not_negative_add);
    [assumption | apply not_negative_0 |].
  intros i _. apply not_negative_mul_self.
Qed.

(** ** NaN *)

Lemma Prim2SF_nan (f : PrimFloat.float) :
  FloatOps.Prim2SF f = S754_nan -> f = PrimFloat.nan.
Proof. intros H. apply FloatAxioms.Prim2SF_inj. rewrite H. reflexivity. Qed.

Lemma nan_mul_l (y : PrimFloat.float) : (PrimFloat.nan * y)%sc = PrimFloat.nan.
Proof.
  apply Prim2SF_nan. cbn [fmul binary64]. rewrite FloatAxioms.mul_spec. reflexivity.
Qed.

Lemma nan_mul_r (y : PrimFloat.float) : (y * PrimFloat.nan)%sc = PrimFloat.nan.
Proof.
  apply Prim2SF_nan. cbn [fmul binary64]. rewrite FloatAxioms.mul_spec.
  change (FloatOps.Prim2SF PrimFloat.nan) with S754_nan.
  destruct (FloatOps.Prim2SF y); reflexivity.
Qed.

Lemma nan_add_l (y : PrimFloat.float) : (PrimFloat.nan + y)%sc = PrimFloat.nan.
Proof.
  apply Prim2SF_nan. cbn [fadd binary64]. rewrite FloatAxioms.add_spec. reflexivity.
Qed.

Lemma nan_add_r (y : PrimFloat.float) : (y + PrimFloat.nan)%sc = PrimFloat.nan.
Proof.
  apply Prim2SF_nan. cbn [fadd binary64]. rewrite FloatAxioms.add_spec.
  change (FloatOps.Prim2SF PrimFloat.nan) with S754_nan.
  destruct (FloatOps.Prim2SF y); reflexivity.
Qed.

Lemma nan_div_l (y : PrimFloat.float) : (PrimFloat.nan / y)%sc = PrimFloat.nan.
Proof.
  apply Prim2SF_nan. cbn [fdiv binary64]. rewrite FloatAxioms.div_spec. reflexivity.
Qed.

Lemma nan_ltb (y : PrimFloat.float) : (PrimFloat.nan <? y)%sc = false.
Proof. cbn [fltb binary64]. rewrite FloatAxioms.ltb_spec. reflexivity. Qed.

(** ** Zero *)

Lemma zero_mul_zero_or_nan (y : PrimFloat.float) : zero_or_nan (f0 * y)%sc = true.
Proof.
  unfold zero_or_nan. cbn [fmul binary64 f0]. rewrite FloatAxioms.mul_spec.
  change (FloatOps.Prim2SF PrimFloat.zero) with (S754_zero false).
  destruct (FloatOps.Prim2SF y); reflexivity.
Qed.

Lemma zero_or_nan_add (a b : PrimFloat.float) :
  zero_or_nan a = true -> zero_or_nan b = true -> zero_or_nan (a + b)%sc = true.
Proof.
  unfold zero_or_nan. cbn [fadd binary64]. rewrite FloatAxioms.add_spec.
  destruct (FloatOps.Prim2SF a) as [[|]| | |], (FloatOps.Prim2SF b) as [[|]| | |];
    cbn; intros; try discriminate; reflexivity.
Qed.

Lemma zero_div_zero_or_nan (d : PrimFloat.float) :
  zero_or_nan d = true -> (f0 / d)%sc = PrimFloat.nan.
Proof.
  unfold zero_or_nan. intros Hd. apply Prim2SF_nan.
  cbn [fdiv binary64 f0]. rewrite FloatAxioms.div_spec.
  change (FloatOps.Prim2SF PrimFloat.zero) with (S754_zero false).
  destruct (FloatOps.Prim2SF d); try discriminate; reflexivity.
Qed.

(** ** A finite number divided by itself *)

Lemma div_eucl_mul (a b : Z) : (0 < b)%Z -> Z.div_eucl (a * b) b = (a, 0%Z).
Proof.
  intros Hb. pose proof (Z.div_mul a b ltac:(lia)) as Hq.
  pose proof (Z.mod_mul a b ltac:(lia)) as Hr.
  unfold Z.div, Z.modulo in *.
  destruct (Z.div_eucl (a * b) b) as [q r]. congruence.
Qed.

Lemma SFdiv_self (s : bool) (m : positive) (e : Z) :
  SFdiv FloatOps.prec FloatOps.emax (S754_finite s m e) (S754_finite s m e)
  = S754_finite false 4503599627370496 (-52).
Proof.
  cbn [SFdiv]. unfold SFdiv_core_binary.
  replace (Z.sub (Z.add (Zdigits2 (Zpos m)) e) (Z.add (Zdigits2 (Zpos m)) e)) with 0%Z
    by (symmetry; apply Z.sub_diag).
  replace (Z.sub e e) with 0%Z by (symmetry; apply Z.sub_diag).
  change (Z.min (fexp FloatOps.prec FloatOps.emax 0) 0) with (-53)%Z.
  change (Z.sub 0 (-53)) with 53%Z. cbv iota.
  rewrite Z.shiftl_mul_pow2 by lia.
  rewrite (Z.mul_comm (Zpos m)), div_eucl_mul by lia.
  rewrite Bool.xorb_nilpotent.
  replace (new_location (Zpos m) 0) with loc_Exact
    by (unfold new_location; destruct (Z.even (Zpos m)); reflexivity).
  vm_compute. reflexivity.
Qed.

Lemma sqrt_div_self (f : PrimFloat.float) :
  finite_nonzero f = true -> fsqrt (f / f)%sc = (f1 : PrimFloat.float).
Proof.
  unfold finite_nonzero. intros Hf.
  assert (Hdiv : (f / f)%sc = (f1 : PrimFloat.float)).
  { apply FloatAxioms.Prim2SF_inj. cbn [fdiv binary64].
    rewrite FloatAxioms.div_spec. unfold FloatAxioms.SF64div.
    destruct (FloatOps.Prim2SF f) as [| | |s m e]; try discriminate.
    rewrite SFdiv_self. reflexivity. }
  rewrite Hdiv. reflexivity.
Qed.

Lemma sqrt_div_self_nan (f : PrimFloat.float) :
  finite_nonzero f = false -> fsqrt (f / f)%sc = PrimFloat.nan.
Proof.
  unfold finite_nonzero. intros Hf.
  assert (E : (f / f)%sc = PrimFloat.nan).
  { apply Prim2SF_nan. cbn [fdiv binary64]. rewrite FloatAxioms.div_spec.
    destruct (FloatOps.Prim2SF f) as [s|s| |s m e]; try discriminate; reflexivity. }
  rewrite E. apply Prim2SF_nan. cbn [fsqrt binary64].
  rewrite FloatAxioms.sqrt_spec. reflexivity.
Qed.

(** ** The solver on a zero right-hand side *)

Implicit Types (h : heap PrimFloat.float).

Lemma nan_add_nan (a b : PrimFloat.float) :
  a = PrimFloat.nan -> b = PrimFloat.nan -> (a + b)%sc = PrimFloat.nan.
Proof. intros -> ->. reflexivity. Qed.

Lemma zip_with_const {A B C : Type} (f : A -> B -> C) (c : C) (x : list A) (y : list B) :
  (forall a b, f a b = c) -> length x = length y ->
  zip_with f x y = replicate (length y) c.
Proof.
  intros Hf. revert y. induction x as [|a x IH]; intros [|b y] Hlen;
    try discriminate; [reflexivity|].
  cbn [zip_with length replicate]. rewrite Hf, IH by (cbn in Hlen; lia).
  reflexivity.
Qed.

Lemma zip_with_const_l {A B C : Type} (f : A -> B -> C) (a : A) (c : C)
    (n : nat) (y : list B) :
  (forall b, f a b = c) -> n = length y ->
  zip_with f (replicate n a) y = replicate (length y) c.
Proof.
  intros Hf ->. induction y as [|b y IH]; [reflexivity|].
  cbn [zip_with length replicate]. rewrite Hf, IH. reflexivity.
Qed.

Lemma vaxpby_nan (x y : list PrimFloat.float) (beta : PrimFloat.float) :
  length x = length y ->
  vaxpby PrimFloat.nan x beta y = replicate (length y) PrimFloat.nan.
Proof.
  intros Hlen. unfold vaxpby. apply zip_with_const; [|assumption].
  intros a b. rewrite nan_mul_l. apply nan_add_l.
Qed.

Lemma vaxpby_nan_vec (alpha beta : PrimFloat.float) (n : nat) (y : list PrimFloat.float) :
  n = length y ->
  vaxpby alpha (replicate n PrimFloat.nan) beta y = replicate (length y) PrimFloat.nan.
Proof.
  intros Hlen. unfold vaxpby. apply zip_with_const_l; [|assumption].
  intros b. rewrite nan_mul_r. apply nan_add_l.
Qed.

Lemma accum_nan (f : nat -> PrimFloat.float) (lo n : nat) (acc : PrimFloat.float) :
  (forall j, lo <= j < lo + S n -> f j = PrimFloat.nan) ->
  accum f lo (S n) acc = PrimFloat.nan.
Proof.
  intros Hf. cbn [accum].
  apply (accum_closed (fun v => v = PrimFloat.nan) nan_add_nan).
  - intros j Hj. apply Hf. lia.
  - rewrite Hf by lia. apply nan_add_r.
Qed.

Lemma vdotP_nan (size_mpi k : nat) (x : list PrimFloat.float) :
  0 < size_mpi -> 0 < k ->
  x = replicate (size_mpi * k) PrimFloat.nan ->
  vdotP size_mpi x x (size_mpi * k) = PrimFloat.nan.
Proof.
  intros HP Hk ->. unfold vdotP.
  apply (Allreduce_closed (fun v => v = PrimFloat.nan) nan_add_nan).
  - intros H. apply (f_equal (@length _)) in H.
    rewrite length_map, length_seq in H. cbn in H. lia.
  - apply Forall_forall. intros v Hv. apply list_elem_of_In, in_map_iff in Hv.
    destruct Hv as (q & <- & Hq). apply in_seq in Hq.
    pose proof (seg_bound size_mpi (size_mpi * k) q HP ltac:(lia)) as Hb.
    assert (Hlen : seg_len size_mpi (size_mpi * k) q = S (k - 1)).
    { unfold seg_len. rewrite (Nat.mul_comm size_mpi k), Nat.div_mul by lia.
      destruct (Nat.eqb_spec q (size_mpi - 1)); nia. }
    rewrite Hlen in *. apply accum_nan. intros j Hj.
    rewrite lookup_total_replicate_2 by lia. reflexivity.
Qed.

(** The body when [alpha] is NaN: the [break] is not taken, and [x], [r],
    [p] and [rr] are NaN afterwards. *)
Lemma cg_body_val_nan (size_mpi k : nat) (bb rel_error : PrimFloat.float) h
    (rr : PrimFloat.float) :
  0 < size_mpi -> 0 < k -> heap_ok (size_mpi * k) h ->
  (rr / vdotP size_mpi (cellp h)
          (vgemv f1 (cellA h) (cellp h) f0 (cellAp h) (size_mpi * k) (size_mpi * k))
          (size_mpi * k))%sc = PrimFloat.nan ->
  cg_body_val size_mpi (size_mpi * k) bb rel_error h rr
  = (false,
     mkHeap (cellA h) (cellb h)
       (replicate (size_mpi * k) PrimFloat.nan)
       (replicate (size_mpi * k) PrimFloat.nan)
       (replicate (size_mpi * k) PrimFloat.nan)
       (vgemv f1 (cellA h) (cellp h) f0 (cellAp h) (size_mpi * k) (size_mpi * k)),
     PrimFloat.nan).
Proof.
  intros HP Hk (HA & Hb & Hx & Hr & Hp & HAp) Halpha. unfold cg_body_val.
  rewrite Halpha.
  change (- PrimFloat.nan)%sc with PrimFloat.nan.
  rewrite (vaxpby_nan (cellp h)) by congruence.
  rewrite (vaxpby_nan _ (cellr h)) by (rewrite length_vgemv; congruence).
  rewrite Hx, Hr.
  rewrite (vdotP_nan size_mpi k _ HP Hk eq_refl).
  rewrite nan_div_l.
  change (fsqrt PrimFloat.nan) with PrimFloat.nan. rewrite nan_ltb.
  rewrite vaxpby_nan_vec by congruence. rewrite Hp. reflexivity.
Qed.

Lemma cg_body_nan (size_mpi k : nat) (bb rel_error : PrimFloat.float) h
    (rr : PrimFloat.float) :
  0 < size_mpi -> 0 < k -> heap_ok (size_mpi * k) h ->
  (rr / vdotP size_mpi (cellp h)
          (vgemv f1 (cellA h) (cellp h) f0 (cellAp h) (size_mpi * k) (size_mpi * k))
          (size_mpi * k))%sc = PrimFloat.nan ->
  exists h',
    cg_body size_mpi (size_mpi * k) bb rel_error h rr = Ok (false, h', PrimFloat.nan)
    /\ heap_ok (size_mpi * k) h'
    /\ cellx h' = replicate (size_mpi * k) PrimFloat.nan.
Proof.
  intros HP Hk Hok Halpha.
  pose proof (cg_body_val_ok size_mpi (size_mpi * k) bb rel_error h rr Hok) as Hok'.
  rewrite cg_body_spec by assumption.
  rewrite cg_body_val_nan in * by assumption.
  eexists. split; [reflexivity|]. split; [exact Hok'|reflexivity].
Qed.

(** Once [rr] is NaN the loop runs to [max_iters]. *)
Lemma cg_loop_nan (size_mpi k : nat) (max_iters : Z) (bb rel_error : PrimFloat.float) :
  0 < size_mpi -> 0 < k -> (max_iters < INT_MAX)%Z ->
  forall (fuel : nat) (num_iters : Z) h,
    heap_ok (size_mpi * k) h ->
    cellx h = replicate (size_mpi * k) PrimFloat.nan ->
    Z.to_nat (max_iters + 1 - num_iters) <= fuel ->
    exists h',
      cg_loop fuel size_mpi (size_mpi * k) max_iters bb rel_error num_iters h
        PrimFloat.nan
      = Ok (Z.max num_iters (max_iters + 1), h', PrimFloat.nan)
      /\ cellx h' = replicate (size_mpi * k) PrimFloat.nan.
Proof.
  intros HP Hk Hmax. induction fuel as [|fuel IH]; intros num_iters h Hok Hx Hfuel.
  - cbn [cg_loop]. destruct (Z.leb_spec num_iters max_iters); [lia|].
    exists h. rewrite Z.max_l by lia. split; [reflexivity|assumption].
  - cbn [cg_loop]. destruct (Z.leb_spec num_iters max_iters).
    2:{ exists h. rewrite Z.max_l by lia. split; [reflexivity|assumption]. }
    destruct (cg_body_nan size_mpi k bb rel_error h PrimFloat.nan HP Hk Hok
                (nan_div_l _)) as (h1 & Hb & Hok1 & Hx1).
    rewrite Hb. ok_step. rewrite int_incr_lt by lia. ok_step.
    destruct (IH (num_iters + 1)%Z h1 Hok1 Hx1 ltac:(lia)) as (h' & Hrun & Hx').
    exists h'. rewrite Hrun. split; [|assumption].
    do 3 f_equal. lia.
Qed.

Lemma vdotP_zero (size_mpi n size : nat) :
  0 < size_mpi -> size <= n ->
  vdotP size_mpi (replicate n f0) (replicate n f0) size = (f0 : PrimFloat.float).
Proof.
  intros HP Hn.
  apply (vdotP_closed (fun v => v = (f0 : PrimFloat.float)));
    [intros a b -> ->; reflexivity | assumption | reflexivity |].
  intros i Hi. rewrite lookup_total_replicate_2 by lia. reflexivity.
Qed.

Lemma vdotP_zero_l (size_mpi n size : nat) (y : list PrimFloat.float) :
  0 < size_mpi -> size <= n ->
  zero_or_nan (vdotP size_mpi (replicate n f0) y size) = true.
Proof.
  intros HP Hn.
  apply (vdotP_closed (fun v => zero_or_nan v = true) zero_or_nan_add);
    [assumption | reflexivity |].
  intros i Hi. rewrite lookup_total_replicate_2 by lia.
  apply zero_mul_zero_or_nan.
Qed.

End Binary64Facts.

Section Binary64Gemv.
Import SpecFloat.




End Binary64Gemv.

(** ** The contents of the fresh [Ap] *)

(** The first [gemvP] of the solver is called with [beta = 0.0] and the
    fresh [Ap] as [y]: it multiplies what that memory holds by 0.0.  In
    exact arithmetic the product is 0 ([vgemv_matvec]); in binary64 a NaN
    there makes [Ap], and with it [x], NaN.  On scenario S1: *)
Remark fresh_Ap_nan :
  conjugate_gradients 1 0 heap64_S1 1 10 tol_1e9 = Ok result64_S1
  /\ conjugate_gradients 1 0 heap64_S1_nan 1 10 tol_1e9
     = Ok (mkResult
             (mkHeap (cellA heap64_S1) (cellb heap64_S1)
                [PrimFloat.nan] [PrimFloat.nan] [PrimFloat.nan] [PrimFloat.nan])
             11 (Some (DidNotConverge 10 PrimFloat.nan))).
Proof. split; vm_compute; reflexivity. Qed.

(** ** The loop with [max_iters = INT_MAX] *)

Lemma conjugate_gradients_loop_undefined {F : Type} {SF : Scalar F}
    (size_mpi rank : nat) (h h0 : heap F) (size : nat) (max_iters : Z)
    (rel_error bb : F) :
  cg_init size h = Ok h0 ->
  dotP size_mpi ptrb ptrb size h0 = Ok bb ->
  cg_loop (Z.to_nat max_iters) size_mpi size max_iters bb rel_error 1 h0 bb
  = Undefined ->
  conjugate_gradients size_mpi rank h size max_iters rel_error = Undefined.
Proof.
  intros Hinit Hbb Hloop. unfold conjugate_gradients.
  rewrite Hinit. ok_step. rewrite Hbb. ok_step. rewrite Hloop. reflexivity.
Qed.

Lemma cg_loop_int_max_I1 (fuel : nat) :
  Z.of_nat fuel = INT_MAX ->
  cg_loop fuel 1 1 INT_MAX f1 f0 1 (cg_init_val 1 heap64_I1) (f1 : PrimFloat.float)
  = Undefined.
Proof.
  intros Hfuel. unfold INT_MAX in Hfuel.
  destruct fuel as [|[|[|fuel]]]; try lia.
  pose (nan1 := [PrimFloat.nan]).
  rewrite (cg_loop_step _ _ _ _ _ _ _ _ _
             (mkHeap [f1] [f1] [f1] [f0] [f0] [f1]) f0);
    [|unfold INT_MAX; lia..|vm_compute; reflexivity].
  rewrite (cg_loop_step _ _ _ _ _ _ _ _ _
             (mkHeap [f1] [f1] nan1 nan1 nan1 [f0]) PrimFloat.nan);
    [|unfold INT_MAX; lia..|vm_compute; reflexivity].
  rewrite (cg_loop_step _ _ _ _ _ _ _ _ _
             (mkHeap [f1] [f1] nan1 nan1 nan1 nan1) PrimFloat.nan);
    [|unfold INT_MAX; lia..|vm_compute; reflexivity].
  apply cg_loop_overflow.
  - vm_compute. reflexivity.
  - unfold INT_MAX. lia.
  - unfold INT_MAX. lia.
Qed.

(* ===================================================================== *)
(** * The claims *)

(** C1, amended (the solver on a zero right-hand side, lines 153-187).
    The source has no early return for [bb = 0].  In binary64, for [b] the
    zero vector of length [N >= 1], [N] a multiple of the number of
    participants, and arrays of the sizes of [main]: [bb = 0]; with
    [max_iters = 0] the solver returns with [x] the zero vector, no
    iteration run; with [1 <= max_iters < INT_MAX] the first iteration
    computes [alpha = 0 / 0], which is NaN, the [break] is never taken,
    all [max_iters] iterations are run, every element of [x] is NaN at
    the return, and rank 0 reports no convergence with relative error
    NaN. *)
Theorem conjugate_gradients_zero_rhs (size_mpi k rank : nat) (h : heap PrimFloat.float)
    (max_iters : Z) (rel_error : PrimFloat.float) :
  0 < size_mpi -> 0 < k -> heap_ok (size_mpi * k) h ->
  cellb h = replicate (size_mpi * k) f0 ->
  (1 <= max_iters < INT_MAX)%Z ->
  dotP size_mpi ptrb ptrb (size_mpi * k) h = Ok f0
  /\ (exists res,
        conjugate_gradients size_mpi rank h (size_mpi * k) 0 rel_error = Ok res
        /\ cellx (res_heap res) = replicate (size_mpi * k) f0
        /\ res_num_iters res = 1%Z
        /\ res_stdout res
           = (if rank =? 0 then Some (DidNotConverge 0 PrimFloat.nan) else None))
  /\ (exists res,
        conjugate_gradients size_mpi rank h (size_mpi * k) max_iters rel_error = Ok res
        /\ cellx (res_heap res) = replicate (size_mpi * k) PrimFloat.nan
        /\ res_num_iters res = (max_iters + 1)%Z
        /\ res_stdout res
           = (if rank =? 0 then Some (DidNotConverge max_iters PrimFloat.nan)
              else None)).
Proof.
  intros HP Hk Hok Hb0 Hmax.
  pose proof Hok as (HA & Hb & Hx & Hr & Hp & HAp).
  assert (Hbb : vdotP size_mpi (cellb h) (cellb h) (size_mpi * k) = f0).
  { rewrite Hb0. apply vdotP_zero; [assumption|lia]. }
  split; [|split].
  - rewrite dotP_spec by (cbn [sel]; lia). cbn [sel]. rewrite Hbb. reflexivity.
  - eexists. split; [apply conjugate_gradients_0; assumption|].
    cbn [res_heap res_num_iters res_stdout cg_init_val cellx].
    rewrite Hbb. repeat split.
  - unfold conjugate_gradients.
    rewrite cg_init_spec by assumption. ok_step.
    pose proof (cg_init_ok _ _ Hok) as Hok0.
    rewrite dotP_spec by (cbn [sel cg_init_val cellb]; lia). ok_step.
    cbn [sel cg_init_val cellb]. rewrite Hbb.
    destruct (Z.to_nat max_iters) as [|fuel] eqn:Efuel; [lia|].
    cbn [cg_loop]. destruct (Z.leb_spec 1 max_iters); [|lia].
    destruct (cg_body_nan size_mpi k f0 rel_error
                (cg_init_val (size_mpi * k) h) f0 HP Hk Hok0)
      as (h1 & Hbody & Hok1 & Hx1).
    { cbn [cg_init_val cellA cellp cellAp]. rewrite Hb0.
      apply zero_div_zero_or_nan. apply vdotP_zero_l; [assumption|lia]. }
    rewrite Hbody. ok_step. rewrite int_incr_lt by lia. ok_step.
    destruct (cg_loop_nan size_mpi k max_iters f0 rel_error HP Hk ltac:(lia)
                fuel (1 + 1)%Z h1 Hok1 Hx1 ltac:(lia)) as (h' & Hrun & Hx').
    rewrite Hrun. ok_step. eexists. split; [reflexivity|].
    cbn [res_heap res_num_iters res_stdout].
    split; [exact Hx'|]. split; [lia|].
    destruct (Z.leb_spec (Z.max (1 + 1) (max_iters + 1)) max_iters); [lia|].
    reflexivity.
Qed.

Lemma conjugate_gradients_zero_rhs_witness :
  dotP 1 ptrb ptrb (1 * 1) heap64_zero_rhs = Ok f0
  /\ (exists res,
        conjugate_gradients 1 0 heap64_zero_rhs (1 * 1) 0 tol_1e9 = Ok res
        /\ cellx (res_heap res) = replicate (1 * 1) f0
        /\ res_num_iters res = 1%Z
        /\ res_stdout res
           = (if 0 =? 0 then Some (DidNotConverge 0 PrimFloat.nan) else None))
  /\ (exists res,
        conjugate_gradients 1 0 heap64_zero_rhs (1 * 1) 1000 tol_1e9 = Ok res
        /\ cellx (res_heap res) = replicate (1 * 1) PrimFloat.nan
        /\ res_num_iters res = (1000 + 1)%Z
        /\ res_stdout res
           = (if 0 =? 0 then Some (DidNotConverge 1000 PrimFloat.nan) else None)).
Proof.
  apply (conjugate_gradients_zero_rhs 1 1 0 heap64_zero_rhs 1000 tol_1e9);
    [lia | lia | repeat split | reflexivity | unfold INT_MAX; lia].
Defined.

(** C1 as stated fails: on [A = [[1]]], [b = [0]], with [max_iters = 1]
    and [rel_error = 1e-9], the solver runs the iteration, and returns
    [x = [NaN]]; rank 0 reports no convergence. *)
Lemma zero_rhs_no_early_return :
  conjugate_gradients 1 0 heap64_zero_rhs 1 1 tol_1e9
  = Ok (mkResult
          (mkHeap (cellA heap64_zero_rhs) (cellb heap64_zero_rhs)
             [PrimFloat.nan] [PrimFloat.nan] [PrimFloat.nan] [f0])
          2 (Some (DidNotConverge 1 PrimFloat.nan))).
Proof. vm_compute. reflexivity. Qed.

Section Binary64Iteration.
Import PrimFloat.
Local Open Scope float_scope.


End Binary64Iteration.

Section ExactClaims.
Local Open Scope R_scope.
Implicit Types (h : heap R).



(** C3 (gemvP, lines 97-120).  In exact arithmetic, for [size_mpi >= 1]
    participants and [N = size_mpi * k] a multiple of [size_mpi]: the band
    that rank [rank] computes is [alpha * (A x)[r] + beta * y[r]] for the
    rows [r] in [[rank * k, (rank + 1) * k)], and after the all-gather the
    array [y] of every participant is [alpha * A x + beta * y_old],
    element by element; no other array changes. *)
Theorem gemvP_exact (size_mpi k : nat) (alpha beta : R) (A x y : ptr) h :
  (0 < size_mpi)%nat ->
  length (sel h A) = (size_mpi * k * (size_mpi * k))%nat ->
  length (sel h x) = (size_mpi * k)%nat ->
  length (sel h y) = (size_mpi * k)%nat ->
  (forall rank, (rank < size_mpi)%nat ->
     gemvP_local size_mpi rank alpha A x beta y (size_mpi * k) (size_mpi * k) h
     = Ok (map (fun r => alpha * inner (row (size_mpi * k) (sel h A) r) (sel h x)
                         + beta * (sel h y !!! r))
               (seq (rank * k) k)))
  /\ gemvP size_mpi alpha A x beta y (size_mpi * k) (size_mpi * k) h
     = Ok (upd h y (zip_with (fun ax yi => alpha * ax + beta * yi)
                      (matvec (size_mpi * k) (sel h A) (sel h x)) (sel h y))).
Proof.
  intros HP HA Hx Hy. split.
  - intros rank Hr. rewrite gemvP_local_spec by lia. f_equal.
    apply map_ext_in. intros r Hin. apply in_seq in Hin.
    apply gemv_row_exact; try assumption. nia.
  - rewrite gemvP_spec by lia. rewrite vgemv_exact by assumption. reflexivity.
Qed.

Lemma gemvP_exact_witness :
  (forall rank, (rank < 2)%nat ->
     gemvP_local 2 rank 2 ptrA ptrb 3 ptrx (2 * 1) (2 * 1) heapR_S2
     = Ok (map (fun r => 2 * inner (row (2 * 1) (sel heapR_S2 ptrA) r) (sel heapR_S2 ptrb)
                         + 3 * (sel heapR_S2 ptrx !!! r))
               (seq (rank * 1) 1)))
  /\ gemvP 2 2 ptrA ptrb 3 ptrx (2 * 1) (2 * 1) heapR_S2
     = Ok (upd heapR_S2 ptrx
             (zip_with (fun ax yi => 2 * ax + 3 * yi)
                (matvec (2 * 1) (sel heapR_S2 ptrA) (sel heapR_S2 ptrb))
                (sel heapR_S2 ptrx))).
Proof. apply (gemvP_exact 2 1 2 3 ptrA ptrb ptrx heapR_S2); [lia | reflexivity ..]. Defined.

(** C4 (dotP, lines 122-141, against dot, lines 64-70).  In exact
    arithmetic, for [size_mpi >= 1] participants, every [size >= 0] and
    vectors with at least [size] elements, the distributed [dotP] and the
    serial [dot] both return, and return the same scalar: the sum of
    [x[i] * y[i]] over [[0, size)]. *)
Theorem dotP_exact (size_mpi : nat) (x y : ptr) (size : nat) h :
  (0 < size_mpi)%nat ->
  (size <= length (sel h x))%nat -> (size <= length (sel h y))%nat ->
  dotP size_mpi x y size h = dot x y size h
  /\ dot x y size h
     = Ok (sum_f (fun i => (sel h x !!! i) * (sel h y !!! i)) 0 size).
Proof.
  intros HP Hx Hy.
  rewrite dotP_spec, dot_spec by assumption.
  rewrite vdotP_sum by assumption. unfold vdot. rewrite accum_sum0.
  split; reflexivity.
Qed.

Lemma dotP_exact_witness :
  dotP 3 ptrA ptrA 4 heapR_S2 = dot ptrA ptrA 4 heapR_S2
  /\ dot ptrA ptrA 4 heapR_S2
     = Ok (sum_f (fun i => (sel heapR_S2 ptrA !!! i) * (sel heapR_S2 ptrA !!! i)) 0 4).
Proof. apply (dotP_exact 3 ptrA ptrA 4 heapR_S2); cbn; lia. Defined.

End ExactClaims.

(** C5, at the input where it fails (the loop, lines 163-175).  With
    [max_iters = INT_MAX] the loop condition [num_iters <= max_iters] holds
    for every [int]; with [rel_error = 0] the [break] is never taken.  On
    [A = [[1]]], [b = [1]] the memory is the same after every iteration
    from the third on, and after iteration [INT_MAX] the increment
    [num_iters++] overflows: the run has no result. *)
Theorem conjugate_gradients_int_max :
  conjugate_gradients 1 0 heap64_I1 1 INT_MAX f0 = Undefined.
Proof.
  apply (conjugate_gradients_loop_undefined 1 0 heap64_I1
           (cg_init_val 1 heap64_I1) 1 INT_MAX f0 f1).
  - vm_compute. reflexivity.
  - vm_compute. reflexivity.
  - apply cg_loop_int_max_I1. apply Z2Nat.id. unfold INT_MAX. lia.
Qed.

Section ExactIdentity.
Local Open Scope R_scope.
Implicit Types (h : heap R).

(** C6, amended (the solver, lines 143-188, on the identity matrix).  In
    exact arithmetic, for [A] the [N * N] identity matrix, [N] a multiple
    of the number of participants, every nonzero [b], every
    [rel_tol > 0] and every [max_iters >= 1]: in the first iteration
    [alpha = 1], and the solver returns in that iteration with [x = b],
    the residual [r] the zero vector and [num_iters = 1]; rank 0 reports
    convergence in 1 iteration with relative error 0. *)
Theorem cg_identity (size_mpi k rank : nat) h (max_iters : Z) (rel_tol : R) :
  (0 < size_mpi)%nat -> heap_ok (size_mpi * k) h ->
  cellA h = identity (size_mpi * k) ->
  cellb h <> replicate (size_mpi * k) 0 ->
  0 < rel_tol -> (1 <= max_iters)%Z ->
  inner (cellb h) (cellb h)
  / inner (cellb h) (matvec (size_mpi * k) (identity (size_mpi * k)) (cellb h)) = 1
  /\ conjugate_gradients size_mpi rank h (size_mpi * k) max_iters rel_tol
     = Ok (mkResult
             (mkHeap (cellA h) (cellb h) (cellb h) (replicate (size_mpi * k) 0)
                (cellb h) (cellb h))
             1
             (if rank =? 0 then Some (Converged 1 0) else None)).
Proof.
  intros HP Hok HA Hnz Htol Hmax.
  pose proof Hok as (_ & Hb & _).
  assert (Hbb : 0 < inner (cellb h) (cellb h)).
  { apply nonzero_inner_pos. rewrite Hb. exact Hnz. }
  rewrite (matvec_identity _ _ Hb). split; [field; lra|].
  unfold conjugate_gradients.
  rewrite cg_init_spec by assumption. ok_step.
  pose proof (cg_init_ok _ _ Hok) as Hok0.
  rewrite dotP_spec by (cbn [sel cg_init_val cellb]; lia). ok_step.
  cbn [sel cg_init_val cellb].
  rewrite (vdotP_inner _ _ _ _ HP Hb Hb).
  set (bb := inner (cellb h) (cellb h)) in *.
  destruct (Z.to_nat max_iters) as [|fuel] eqn:Efuel; [lia|].
  cbn [cg_loop]. destruct (Z.leb_spec 1 max_iters); [|lia].
  rewrite cg_body_spec, cg_body_val_exact by assumption. ok_step.
  unfold spec_iteration, cg_init_val. cbn [cellA cellb cellx cellr cellp cellAp].
  rewrite HA, (matvec_identity _ _ Hb). fold bb.
  replace (bb / bb) with 1 by (field; lra).
  pose proof (vadd_zero_scale1 (cellb h)) as E1.
  pose proof (vsub_scale1 (cellb h)) as E2.
  rewrite Hb in E1, E2. change (@f0 R exact) with 0.
  rewrite E1, E2, inner_zero.
  replace (0 / bb) with 0 by (field; lra).
  rewrite sqrt_0.
  destruct (Rlt_dec 0 rel_tol) as [_|Hn]; [|contradiction].
  ok_step. cbn [res_heap]. rewrite <- HA.
  destruct (Z.leb_spec 1 max_iters); [|lia].
  change (fsqrt (0 / bb)%sc) with (sqrt (0 / bb)).
  replace (0 / bb) with 0 by (field; lra). rewrite sqrt_0. reflexivity.
Qed.

Lemma cg_identity_witness :
  inner (cellb heapR_I2) (cellb heapR_I2)
  / inner (cellb heapR_I2) (matvec (2 * 1) (identity (2 * 1)) (cellb heapR_I2)) = 1
  /\ conjugate_gradients 2 0 heapR_I2 (2 * 1) 10 (1 / 2)
     = Ok (mkResult
             (mkHeap (cellA heapR_I2) (cellb heapR_I2) (cellb heapR_I2)
                (replicate (2 * 1) 0) (cellb heapR_I2) (cellb heapR_I2))
             1
             (if 0 =? 0 then Some (Converged 1 0) else None)).
Proof.
  apply (cg_identity 2 1 0 heapR_I2 10 (1 / 2));
    [lia | repeat split | reflexivity | | lra | lia].
  cbn. intros H. inversion H. lra.
Defined.

(** C6 as stated fails for [rel_tol = 0], which is below 1: on the 2 x 2
    identity and [b = [3, 4]], with [max_iters = 2], both iterations are
    run and rank 0 reports no convergence. *)
Lemma cg_identity_tol0 :
  exists res rr bb,
    conjugate_gradients 1 0 heapR_I2 2 2 0 = Ok res
    /\ res_num_iters res = 3%Z
    /\ res_stdout res = Some (DidNotConverge 2 (sqrt (rr / bb))).
Proof.
  destruct (conjugate_gradients_runs 1 2 0 heapR_I2 2 0)
    as (res & rr & bb & Hrun & _ & [(_ & Ht & _)|(Hn & _ & Hs)]).
  - lia.
  - repeat split.
  - unfold INT_MAX. lia.
  - rewrite exact_test_nonpos in Ht by lra. discriminate.
  - exists res, rr, bb. repeat split; assumption.
Qed.

End ExactIdentity.

(** C7 (the scalar [rr], lines 160-171).  [rr] is [dotP(b, b)] before
    the loop and the [dotP(r, r)] of the body just run at every later
    iteration boundary.  In exact arithmetic these are the inner products
    of [b] and of [r] with themselves, and are not negative.  In binary64
    they have a clear sign bit or are NaN, and so has the quotient
    [rr / bb]: the square root of line 171, which the source takes
    without a clamp, is never taken of a negative number. *)
Theorem rr_not_negative (size_mpi k : nat)
    (hR : heap R) (bbR tolR rrR : R)
    (h64 : heap PrimFloat.float) (tol64 rr64 : PrimFloat.float) :
  0 < size_mpi -> heap_ok (size_mpi * k) hR -> heap_ok (size_mpi * k) h64 ->
  (dotP size_mpi ptrb ptrb (size_mpi * k) hR = Ok (inner (cellb hR) (cellb hR))
   /\ (0 <= inner (cellb hR) (cellb hR))%R
   /\ exists brk h' rr',
        cg_body size_mpi (size_mpi * k) bbR tolR hR rrR = Ok (brk, h', rr')
        /\ rr' = inner (cellr h') (cellr h') /\ (0 <= rr')%R)
  /\ exists bb,
       dotP size_mpi ptrb ptrb (size_mpi * k) h64 = Ok bb
       /\ not_negative bb = true
       /\ exists brk h' rr',
            cg_body size_mpi (size_mpi * k) bb tol64 h64 rr64 = Ok (brk, h', rr')
            /\ not_negative rr' = true
            /\ not_negative (rr' / bb)%sc = true.
Proof.
  intros HP HokR Hok64. split.
  - pose proof HokR as (HA & Hb & Hx & Hr & Hp & HAp).
    split; [|split].
    + rewrite dotP_spec by (cbn [sel]; lia). cbn [sel].
      rewrite vdotP_inner by assumption. reflexivity.
    + apply inner_self_nonneg.
    + rewrite cg_body_spec, cg_body_val_exact by assumption.
      destruct (spec_iteration _ _ _ _ _ _ _ _) as [[[[[brk x] r] p] Ap] rr'] eqn:E.
      exists brk, (mkHeap (cellA hR) (cellb hR) x r p Ap), rr'.
      split; [reflexivity|]. cbn [cellr].
      unfold spec_iteration in E.
      destruct (Rlt_dec _ _) in E; inversion E; subst;
        (split; [reflexivity | apply inner_self_nonneg]).
  - pose proof Hok64 as (HA & Hb & Hx & Hr & Hp & HAp).
    eexists. split; [apply dotP_spec; cbn [sel]; lia|].
    assert (Hbb : not_negative (vdotP size_mpi (sel h64 ptrb) (sel h64 ptrb)
                                  (size_mpi * k)) = true)
      by (apply vdotP_self_not_negative; assumption).
    split; [exact Hbb|].
    rewrite cg_body_spec by assumption.
    destruct (cg_body_val _ _ _ _ _ _) as [[brk h'] rr'] eqn:E.
    exists brk, h', rr'. split; [reflexivity|].
    assert (Hrr : not_negative rr' = true).
    { unfold cg_body_val in E.
      destruct (fsqrt _ <? tol64)%sc in E; inversion E; subst;
        apply vdotP_self_not_negative; assumption. }
    split; [exact Hrr|]. apply not_negative_div; assumption.
Qed.

Lemma rr_not_negative_witness :
  (dotP 2 ptrb ptrb (2 * 1) heapR_S2 = Ok (inner (cellb heapR_S2) (cellb heapR_S2))
   /\ (0 <= inner (cellb heapR_S2) (cellb heapR_S2))%R
   /\ exists brk h' rr',
        cg_body 2 (2 * 1) 5%R (1 / 2)%R heapR_S2 5%R = Ok (brk, h', rr')
        /\ rr' = inner (cellr h') (cellr h') /\ (0 <= rr')%R)
  /\ exists bb,
       dotP 2 ptrb ptrb (2 * 1) heap64_S2 = Ok bb
       /\ not_negative bb = true
       /\ exists brk h' rr',
            cg_body 2 (2 * 1) bb tol_1e9 heap64_S2 f1 = Ok (brk, h', rr')
            /\ not_negative rr' = true
            /\ not_negative (rr' / bb)%sc = true.
Proof.
  apply (rr_not_negative 2 1 heapR_S2 5%R (1 / 2)%R 5%R heap64_S2 tol_1e9 f1);
    [lia | repeat split | repeat split].
Defined.

(** C10 as stated fails in binary64 for a [bb] that is not zero and not
    finite: on [A = [[1]]], [b = [2^600]], where [dotP(b, b)] overflows
    to infinity, the solver with [max_iters = 0] reports the relative
    error [sqrt(inf / inf)], which is NaN and not 1. *)
Lemma max_iters_0_infinite_bb :
  dotP 1 ptrb ptrb 1 heap64_big = Ok PrimFloat.infinity
  /\ conjugate_gradients 1 0 heap64_big 1 0 tol_1e9
     = Ok (mkResult (mkHeap (cellA heap64_big) (cellb heap64_big)
                       [f0] (cellb heap64_big) (cellb heap64_big)
                       (cellAp heap64_big))
             1 (Some (DidNotConverge 0 PrimFloat.nan))).
Proof. split; vm_compute; reflexivity. Qed.

Section GenericClaims.
Context {F : Type} {SF : Scalar F}.
Implicit Types (h : heap F).

(** C8 (the solver, lines 143-188).  For every input, in either
    arithmetic: when [conjugate_gradients] returns, [A] and [b] are as
    they were at entry; the arrays it has written are among [x], [r], [p]
    and [Ap]. *)
Theorem conjugate_gradients_reads_A_b (size_mpi rank : nat) h (size : nat)
    (max_iters : Z) (rel_error : F) (res : cg_result F) :
  conjugate_gradients size_mpi rank h size max_iters rel_error = Ok res ->
  cellA (res_heap res) = cellA h
  /\ cellb (res_heap res) = cellb h
  /\ writes_only [ptrx; ptrr; ptrp; ptrAp] h (res_heap res).
Proof.
  intros Hrun. pose proof (conjugate_gradients_frame _ _ _ _ _ _ _ Hrun) as W.
  split; [|split; [|exact W]].
  - apply (W ptrA). cbn. intros [H|[H|[H|[H|[]]]]]; discriminate.
  - apply (W ptrb). cbn. intros [H|[H|[H|[H|[]]]]]; discriminate.
Qed.

(** C9 (gemvP, lines 102-119).  With [num_rows = size_mpi * k] a multiple
    of the number of participants, and arrays of the sizes the call
    needs, no access of [gemvP] is out of bounds: on every rank each row
    [r] of its band is written at an index [r - start_row] below
    [local_num_rows = num_rows / size_mpi], the band has
    [local_num_rows] elements, and the all-gather writes
    [size_mpi * local_num_rows = num_rows] elements, all of [y].
    Without the multiple, the band of the last rank has more than
    [local_num_rows] rows, and its run writes past the end of
    [local_y]. *)
Theorem gemvP_in_bounds (size_mpi : nat) (alpha : F) (A x : ptr) (beta : F) (y : ptr) :
  0 < size_mpi ->
  (forall (k num_cols : nat) h,
     size_mpi * k * num_cols <= length (sel h A) ->
     num_cols <= length (sel h x) ->
     length (sel h y) = size_mpi * k ->
     size_mpi * k / size_mpi = k
     /\ (forall rank r,
           rank < size_mpi ->
           rank * k <= r < (if rank =? size_mpi - 1 then size_mpi * k
                            else (rank + 1) * k) ->
           r - rank * k < k)
     /\ (forall rank, rank < size_mpi ->
           exists band,
             gemvP_local size_mpi rank alpha A x beta y (size_mpi * k) num_cols h
             = Ok band /\ length band = k)
     /\ exists h',
          gemvP size_mpi alpha A x beta y (size_mpi * k) num_cols h = Ok h'
          /\ length (sel h' y) = size_mpi * k)
  /\ (forall (num_rows num_cols : nat) h,
        num_rows mod size_mpi <> 0 ->
        num_rows * num_cols <= length (sel h A) ->
        num_cols <= length (sel h x) ->
        num_rows <= length (sel h y) ->
        num_rows / size_mpi < num_rows - (size_mpi - 1) * (num_rows / size_mpi)
        /\ gemvP_local size_mpi (size_mpi - 1) alpha A x beta y num_rows num_cols h
           = Undefined).
Proof.
  intros HP. split.
  - intros k num_cols h HA Hx Hy. split; [|split; [|split]].
    + rewrite Nat.mul_comm. apply Nat.div_mul. lia.
    + intros rank r Hr Hrange.
      destruct (Nat.eqb_spec rank (size_mpi - 1)); nia.
    + intros rank Hr. eexists. split.
      * apply gemvP_local_spec; lia.
      * rewrite length_map, length_seq. reflexivity.
    + eexists. split.
      * apply gemvP_spec; lia.
      * rewrite sel_upd_eq. apply length_vgemv.
  - intros num_rows num_cols h Hmod HA Hx Hy. split.
    + pose proof (Nat.div_mod_eq num_rows size_mpi). nia.
    + apply gemvP_local_overflow; assumption.
Qed.

(** C10, amended (the solver with [max_iters = 0], lines 153-187).  On
    arrays of the sizes of [main], for any number of participants and in
    either arithmetic, the body of the loop is not run: the solver
    returns with [x] the zero vector of length [size],
    [num_iters = 1 > max_iters], and rank 0 reports no convergence in 0
    iterations with relative error [sqrt(bb / bb)], where
    [bb = dotP(b, b)]; that is 1 in exact arithmetic when [bb <> 0], and
    in binary64 when [bb] is finite and not zero; in binary64 it is NaN
    for every other [bb]: a zero, an infinity or a NaN. *)
Theorem conjugate_gradients_max_iters_0 (size_mpi size rank : nat) h (rel_error : F) :
  0 < size_mpi -> heap_ok size h ->
  (exists res bb,
     conjugate_gradients size_mpi rank h size 0 rel_error = Ok res
     /\ dotP size_mpi ptrb ptrb size h = Ok bb
     /\ cellx (res_heap res) = replicate size f0
     /\ res_num_iters res = 1%Z
     /\ res_stdout res
        = (if rank =? 0 then Some (DidNotConverge 0 (fsqrt (bb / bb)%sc)) else None))
  /\ (forall bb : R, bb <> 0%R -> fsqrt (bb / bb)%sc = 1%R)
  /\ (forall bb : PrimFloat.float,
        finite_nonzero bb = true -> fsqrt (bb / bb)%sc = PrimFloat.one)
  /\ (forall bb : PrimFloat.float,
        finite_nonzero bb = false -> fsqrt (bb / bb)%sc = PrimFloat.nan).
Proof.
  intros HP Hok. split; [|split; [|split]].
  - eexists. eexists. split; [apply conjugate_gradients_0; assumption|].
    split; [|repeat split].
    destruct Hok as (_ & Hb & _).
    rewrite dotP_spec by (cbn [sel]; lia). reflexivity.
  - intros bb Hbb. cbn. unfold Rdiv. rewrite Rinv_r by assumption. apply sqrt_1.
  - apply sqrt_div_self.
  - apply sqrt_div_self_nan.
Qed.

End GenericClaims.

Lemma conjugate_gradients_reads_A_b_witness :
  cellA (res_heap result64_S1) = cellA heap64_S1
  /\ cellb (res_heap result64_S1) = cellb heap64_S1
  /\ writes_only [ptrx; ptrr; ptrp; ptrAp] heap64_S1 (res_heap result64_S1).
Proof.
  apply (conjugate_gradients_reads_A_b 1 0 heap64_S1 1 10 tol_1e9).
  vm_compute. reflexivity.
Defined.

Lemma gemvP_in_bounds_witness :
  (exists h',
     gemvP 2 f1 ptrA ptrp f0 ptrAp (2 * 1) 2 heap64_S2 = Ok h'
     /\ length (sel h' ptrAp) = 2 * 1)
  /\ (3 / 2 < 3 - (2 - 1) * (3 / 2)
      /\ gemvP_local 2 (2 - 1) f1 ptrA ptrp f0 ptrAp 3 3 heap64_N3 = Undefined).
Proof.
  pose proof (gemvP_in_bounds 2 (f1 : PrimFloat.float) ptrA ptrp f0 ptrAp
                ltac:(lia)) as [Hdiv Hrem].
  split.
  - apply (Hdiv 1 2 heap64_S2); cbn; lia.
  - apply (Hrem 3 3 heap64_N3); cbn; lia.
Defined.

Lemma conjugate_gradients_max_iters_0_witness :
  (exists res bb,
     conjugate_gradients 2 0 heap64_N3 3 0 tol_1e9 = Ok res
     /\ dotP 2 ptrb ptrb 3 heap64_N3 = Ok bb
     /\ cellx (res_heap res) = replicate 3 f0
     /\ res_num_iters res = 1%Z
     /\ res_stdout res
        = (if 0 =? 0 then Some (DidNotConverge 0 (fsqrt (bb / bb)%sc)) else None))
  /\ (forall bb : R, bb <> 0%R -> fsqrt (bb / bb)%sc = 1%R)
  /\ (forall bb : PrimFloat.float,
        finite_nonzero bb = true -> fsqrt (bb / bb)%sc = PrimFloat.one)
  /\ (forall bb : PrimFloat.float,
        finite_nonzero bb = false -> fsqrt (bb / bb)%sc = PrimFloat.nan).
Proof.
  apply (conjugate_gradients_max_iters_0 2 3 0 heap64_N3 tol_1e9);
    [lia | repeat split].
Defined.

(* ===================================================================== *)
(** * Further facts about the embedding *)

(** ** Loops that end in undefined behaviour *)

Lemma for_loop_defined_or_undefined {St : Type} (n i : nat)
    (body : nat -> St -> outcome St) (s : St) :
  (forall j t, i <= j < i + n -> body j t <> OutOfFuel) ->
  for_loop n i body s <> OutOfFuel.
Proof.
  revert i s. induction n as [|n IH]; intros i s H; [discriminate|].
  rewrite for_loop_unfold. pose proof (H i s ltac:(lia)) as Hb.
  destruct (body i s) as [t| |]; [|discriminate|congruence].
  rewrite bind_Ok. apply IH. intros j u Hj. apply H. lia.
Qed.

Lemma for_each_Undefined {A B : Type} (f : A -> outcome B) (l : list A) (a : A) :
  In a l -> f a = Undefined -> (forall a', In a' l -> f a' <> OutOfFuel) ->
  for_each f l = Undefined.
Proof.
  induction l as [|a' l IH]; intros Hin Ha Hno; [destruct Hin|].
  cbn [for_each]. pose proof (Hno a' (or_introl eq_refl)) as Hn.
  destruct (f a') as [b| |] eqn:E; [|reflexivity|congruence].
  rewrite bind_Ok. destruct Hin as [->|Hin]; [congruence|].
  rewrite IH; [reflexivity|assumption|assumption|].
  intros a'' Hin''. apply Hno. right. assumption.
Qed.

Lemma for_loop_undefined_at {St : Type} (Inv : St -> Prop) (n i j : nat)
    (body : nat -> St -> outcome St) (s : St) :
  i <= j < i + n -> Inv s ->
  (forall j' t, i <= j' < j -> Inv t -> exists t', body j' t = Ok t' /\ Inv t') ->
  (forall t, Inv t -> body j t = Undefined) ->
  for_loop n i body s = Undefined.
Proof.
  intros Hj H0 Hstep Hfail.
  replace n with ((j - i) + S (n - (j - i) - 1)) by lia.
  rewrite for_loop_app.
  destruct (for_loop_inv (fun _ t => Inv t) (j - i) i body s H0) as (t & Hrun & Ht).
  { intros j' u Hj'. apply Hstep. lia. }
  rewrite Hrun, bind_Ok, for_loop_unfold.
  replace (i + (j - i)) with j by lia.
  rewrite (Hfail t Ht). reflexivity.
Qed.

Lemma for_loop_in_order {St : Type} (n i : nat) (body : nat -> St -> outcome St) (s : St) :
  for_loop n i body s = for_in_order (seq i n) body s.
Proof.
  revert i s. induction n as [|n IH]; intros i s; [reflexivity|].
  cbn [seq for_in_order]. rewrite for_loop_unfold.
  destruct (body i s); try reflexivity. rewrite !bind_Ok. apply IH.
Qed.

(** ** The solver when the rows do not divide evenly *)

Section Nondivisible.
Context {F : Type} {SF : Scalar F}.
Implicit Types (h : heap F).

Lemma buf_store_not_OutOfFuel (l : list F) (i : nat) (v : F) :
  buf_store l i v <> OutOfFuel.
Proof. unfold buf_store. destruct (i <? length l); discriminate. Qed.

Lemma gemvP_local_not_OutOfFuel (size_mpi rank : nat) (alpha : F) (A x : ptr) (beta : F)
    (y : ptr) (num_rows num_cols : nat) h :
  0 < size_mpi -> rank < size_mpi ->
  num_rows * num_cols <= length (sel h A) ->
  num_cols <= length (sel h x) ->
  num_rows <= length (sel h y) ->
  gemvP_local size_mpi rank alpha A x beta y num_rows num_cols h <> OutOfFuel.
Proof.
  intros HP Hr HA Hx Hy. unfold gemvP_local, for_range.
  apply for_loop_defined_or_undefined. intros j t Hj.
  assert (Hjn : j < num_rows).
  { pose proof (Nat.Div0.mul_div_le num_rows size_mpi).
    destruct (Nat.eqb_spec rank (size_mpi - 1)); nia. }
  rewrite gemvP_row_spec by nia. apply buf_store_not_OutOfFuel.
Qed.

Lemma gemvP_undefined (size_mpi : nat) (alpha : F) (A x : ptr) (beta : F) (y : ptr)
    (num_rows num_cols : nat) h :
  0 < size_mpi -> num_rows mod size_mpi <> 0 ->
  num_rows * num_cols <= length (sel h A) ->
  num_cols <= length (sel h x) ->
  num_rows <= length (sel h y) ->
  gemvP size_mpi alpha A x beta y num_rows num_cols h = Undefined.
Proof.
  intros HP Hmod HA Hx Hy. unfold gemvP.
  rewrite (for_each_Undefined _ _ (size_mpi - 1)); [reflexivity| | |].
  - apply in_seq. lia.
  - apply gemvP_local_overflow; assumption.
  - intros q Hq. apply in_seq in Hq. apply gemvP_local_not_OutOfFuel; lia.
Qed.

Lemma conjugate_gradients_not_multiple (size_mpi size rank : nat) h
    (max_iters : Z) (rel_error : F) :
  0 < size_mpi -> size mod size_mpi <> 0 -> heap_ok size h -> (1 <= max_iters)%Z ->
  conjugate_gradients size_mpi rank h size max_iters rel_error = Undefined.
Proof.
  intros HP Hmod Hok Hmax.
  pose proof (cg_init_ok _ _ Hok) as Hok0.
  pose proof Hok0 as (HA & Hb & Hx & Hr & Hp & HAp).
  apply (conjugate_gradients_loop_undefined size_mpi rank h (cg_init_val size h) size
           max_iters rel_error
           (vdotP size_mpi (cellb h) (cellb h) size)).
  - apply cg_init_spec, Hok.
  - apply dotP_spec; cbn [sel]; lia.
  - destruct (Z.to_nat max_iters) as [|fuel] eqn:E; [lia|].
    cbn [cg_loop]. destruct (Z.leb_spec 1 max_iters); [|lia].
    unfold cg_body. rewrite gemvP_undefined by (cbn [sel]; lia). reflexivity.
Qed.

End Nondivisible.

(** ** Runs of the solver, for every [max_iters] below [INT_MAX] *)

Section SolverRunsAny.
Context {F : Type} {SF : Scalar F}.
Implicit Types (h : heap F).

Lemma conjugate_gradients_total (size_mpi k rank : nat) h
    (max_iters : Z) (rel_error : F) :
  0 < size_mpi -> heap_ok (size_mpi * k) h -> (max_iters < INT_MAX)%Z ->
  exists res,
    conjugate_gradients size_mpi rank h (size_mpi * k) max_iters rel_error = Ok res
    /\ heap_ok (size_mpi * k) (res_heap res).
Proof.
  intros HP Hok Hmax. unfold conjugate_gradients.
  rewrite cg_init_spec by assumption. ok_step.
  pose proof (cg_init_ok _ _ Hok) as Hok0.
  rewrite dotP_spec by (destruct Hok0 as (_ & Hb & _); cbn [sel]; lia). ok_step.
  set (h0 := cg_init_val (size_mpi * k) h) in *.
  set (bb := vdotP size_mpi (sel h0 ptrb) (sel h0 ptrb) (size_mpi * k)).
  destruct (cg_loop_runs size_mpi k max_iters bb rel_error HP Hmax
              (Z.to_nat max_iters) 1%Z h0 bb Hok0 ltac:(lia))
    as (n' & h' & rr' & Hrun & Hok' & _).
  rewrite Hrun. ok_step. eexists. split; [reflexivity|]. assumption.
Qed.

(** The loop stops in the first iteration that takes the [break]. *)
Lemma cg_loop_first_break (size_mpi k : nat) (max_iters : Z) (bb rel_error : F) :
  0 < size_mpi -> (max_iters < INT_MAX)%Z ->
  forall (fuel : nat) (num_iters : Z) h rr,
    heap_ok (size_mpi * k) h ->
    Z.to_nat (max_iters + 1 - num_iters) <= fuel ->
    exists n' h' rr',
      cg_loop fuel size_mpi (size_mpi * k) max_iters bb rel_error num_iters h rr
      = Ok (n', h', rr')
      /\ heap_ok (size_mpi * k) h'
      /\ ((num_iters <= n' <= max_iters)%Z
          /\ (exists h1 rr1,
                cg_no_break size_mpi (size_mpi * k) bb rel_error
                  (Z.to_nat (n' - num_iters)) h rr h1 rr1
                /\ cg_body size_mpi (size_mpi * k) bb rel_error h1 rr1
                   = Ok (true, h', rr'))
          /\ (fsqrt (rr' / bb) <? rel_error)%sc = true
          \/ n' = Z.max num_iters (max_iters + 1)
             /\ cg_no_break size_mpi (size_mpi * k) bb rel_error
                  (Z.to_nat (max_iters + 1 - num_iters)) h rr h' rr'
             /\ ((num_iters <= max_iters)%Z ->
                 (fsqrt (rr' / bb) <? rel_error)%sc = false)).
Proof.
  intros HP Hmax. induction fuel as [|fuel IH]; intros num_iters h rr Hok Hfuel.
  - cbn. destruct (Z.leb_spec num_iters max_iters); [lia|].
    exists num_iters, h, rr. split; [reflexivity|]. split; [assumption|].
    right. split; [lia|]. split; [|lia].
    replace (Z.to_nat (max_iters + 1 - num_iters)) with 0 by lia. constructor.
  - cbn [cg_loop]. destruct (Z.leb_spec num_iters max_iters).
    2:{ exists num_iters, h, rr. split; [reflexivity|]. split; [assumption|].
        right. split; [lia|]. split; [|lia].
        replace (Z.to_nat (max_iters + 1 - num_iters)) with 0 by lia. constructor. }
    pose proof (cg_body_spec size_mpi k bb rel_error h rr HP Hok) as Hbody.
    rewrite Hbody. ok_step.
    pose proof (cg_body_val_test size_mpi (size_mpi * k) bb rel_error h rr) as Ht.
    pose proof (cg_body_val_ok size_mpi (size_mpi * k) bb rel_error h rr Hok) as Hok'.
    destruct (cg_body_val size_mpi (size_mpi * k) bb rel_error h rr)
      as [[brk h1] rr1].
    cbn [fst snd] in Hok'. destruct Ht as (Ht & _ & _).
    destruct brk.
    + exists num_iters, h1, rr1. split; [reflexivity|]. split; [assumption|].
      left. split; [lia|]. split; [|assumption].
      exists h, rr. rewrite Z.sub_diag. split; [constructor|exact Hbody].
    + rewrite int_incr_lt by lia. ok_step.
      destruct (IH (num_iters + 1)%Z h1 rr1 Hok' ltac:(lia))
        as (n' & h' & rr' & Hrun & Hok'' & Hcase).
      exists n', h', rr'. split; [exact Hrun|]. split; [assumption|].
      destruct Hcase as [(Hn & (h2 & rr2 & Hnb & Hlast) & Hconv)|(Hn & Hnb & Hno)].
      * left. split; [lia|]. split; [|assumption].
        exists h2, rr2. split; [|exact Hlast].
        replace (Z.to_nat (n' - num_iters))
          with (S (Z.to_nat (n' - (num_iters + 1)))) by lia.
        econstructor; eassumption.
      * right. split; [lia|]. split.
        -- replace (Z.to_nat (max_iters + 1 - num_iters))
             with (S (Z.to_nat (max_iters + 1 - (num_iters + 1)))) by lia.
           econstructor; eassumption.
        -- intros _. destruct (Z.leb_spec (num_iters + 1) max_iters) as [Hle|Hgt].
           ++ apply Hno, Hle.
           ++ replace (Z.to_nat (max_iters + 1 - (num_iters + 1))) with 0 in Hnb by lia.
              inversion Hnb; subst. exact Ht.
Qed.

(** An invariant of the loop *)
Lemma cg_loop_invariant (Inv : heap F -> F -> Prop)
    (size_mpi k : nat) (max_iters : Z) (bb rel_error : F) :
  0 < size_mpi ->
  (forall h rr, heap_ok (size_mpi * k) h -> Inv h rr ->
     let '(_, h', rr') := cg_body_val size_mpi (size_mpi * k) bb rel_error h rr in
     Inv h' rr') ->
  forall (fuel : nat) (num_iters : Z) h rr n' h' rr',
    heap_ok (size_mpi * k) h -> Inv h rr ->
    cg_loop fuel size_mpi (size_mpi * k) max_iters bb rel_error num_iters h rr
    = Ok (n', h', rr') ->
    Inv h' rr'.
Proof.
  intros HP Hstep. induction fuel as [|fuel IH];
    intros num_iters h rr n' h' rr' Hok HI Hrun; cbn [cg_loop] in Hrun;
    destruct (num_iters <=? max_iters)%Z; try discriminate;
    try (inversion Hrun; subst; assumption).
  rewrite cg_body_spec in Hrun by assumption. rewrite bind_Ok in Hrun.
  pose proof (Hstep h rr Hok HI) as HI'.
  pose proof (cg_body_val_ok size_mpi (size_mpi * k) bb rel_error h rr Hok) as Hok'.
  destruct (cg_body_val size_mpi (size_mpi * k) bb rel_error h rr) as [[brk h1] rr1].
  cbn [fst snd] in Hok'. destruct brk.
  - inversion Hrun; subst. assumption.
  - ok_inv Hrun. eapply IH; eassumption.
Qed.


End SolverRunsAny.

(** ** The length of the arrays *)

Section Lengths.
Context {F : Type} {SF : Scalar F}.
Implicit Types (h : heap F) (l : list F).

Lemma buf_load_ge l (i : nat) : length l <= i -> buf_load l i = Undefined.
Proof. intros H. unfold buf_load. rewrite lookup_ge_None_2 by assumption. reflexivity. Qed.

Lemma load_ge h (a : ptr) (i : nat) : length (sel h a) <= i -> load h a i = Undefined.
Proof. apply buf_load_ge. Qed.

Lemma length_sel_store h (a : ptr) (i : nat) (v : F) h' (q : ptr) :
  store h a i v = Ok h' -> length (sel h' q) = length (sel h q).
Proof.
  unfold store, buf_store. destruct (i <? length (sel h a)); [|discriminate].
  cbn. intros H. inversion H; subst. destruct (decide (a = q)) as [->|Hne].
  - rewrite sel_upd_eq. apply length_insert.
  - rewrite sel_upd_ne by assumption. reflexivity.
Qed.

Lemma axpbyP_length (alpha : F) (x : ptr) (beta : F) (y : ptr) (size : nat) h h' (q : ptr) :
  axpbyP alpha x beta y size h = Ok h' -> length (sel h' q) = length (sel h q).
Proof.
  unfold axpbyP, for_range.
  apply (for_loop_preserves (fun t => length (sel t q) = length (sel h q)));
    [reflexivity|].
  intros j t t' Ht Hb. do 2 ok_inv Hb.
  rewrite <- Ht. eapply length_sel_store. eassumption.
Qed.

Lemma cg_init_length (size : nat) h h' (q : ptr) :
  cg_init size h = Ok h' -> length (sel h' q) = length (sel h q).
Proof.
  unfold cg_init, for_range.
  apply (for_loop_preserves (fun t => length (sel t q) = length (sel h q)));
    [reflexivity|].
  intros j t t' Ht Hb. do 4 ok_inv Hb.
  rewrite <- Ht.
  rewrite (length_sel_store _ _ _ _ _ q Hb).
  rewrite (length_sel_store _ _ _ _ _ q Hv1).
  apply (length_sel_store _ _ _ _ _ q Hv).
Qed.

Lemma cg_body_length_x (size_mpi size : nat) (bb rel_error : F) h rr brk h' rr' :
  cg_body size_mpi size bb rel_error h rr = Ok (brk, h', rr') ->
  length (cellx h') = length (cellx h).
Proof.
  unfold cg_body. intros H. do 5 ok_inv H.
  pose proof (gemvP_frame _ _ _ _ _ _ _ _ _ _ Hv ptrx) as W1.
  pose proof (axpbyP_length _ _ _ _ _ _ _ ptrx Hv1) as W2.
  pose proof (axpbyP_length _ _ _ _ _ _ _ ptrx Hv2) as W3.
  cbn [sel] in *.
  rewrite W1 in W2 by (cbn; intros [E|[]]; discriminate).
  destruct (fsqrt _ <? rel_error)%sc.
  - inversion H; subst. congruence.
  - ok_inv H. inversion H; subst.
    pose proof (axpbyP_length _ _ _ _ _ _ _ ptrx Hv4) as W4. cbn [sel] in W4.
    congruence.
Qed.

Lemma cg_loop_length_x (size_mpi size : nat) (max_iters : Z) (bb rel_error : F) fuel :
  forall num_iters h rr n' h' rr',
    cg_loop fuel size_mpi size max_iters bb rel_error num_iters h rr
    = Ok (n', h', rr') ->
    length (cellx h') = length (cellx h).
Proof.
  induction fuel as [|fuel IH]; intros num_iters h rr n' h' rr' H; cbn in H;
    destruct (num_iters <=? max_iters)%Z; try discriminate;
    try (inversion H; subst; reflexivity).
  ok_inv H. destruct v as [[brk h1] rr1].
  pose proof (cg_body_length_x _ _ _ _ _ _ _ _ _ Hv) as W.
  destruct brk.
  - inversion H; subst. exact W.
  - ok_inv H. rewrite <- W. eapply IH; eassumption.
Qed.

Lemma conjugate_gradients_length_x (size_mpi rank : nat) h (size : nat)
    (max_iters : Z) (rel_error : F) res :
  conjugate_gradients size_mpi rank h size max_iters rel_error = Ok res ->
  length (cellx (res_heap res)) = length (cellx h).
Proof.
  unfold conjugate_gradients. intros H. do 3 ok_inv H.
  destruct v1 as [[n' h'] rr']. inversion H; subst. cbn [res_heap].
  rewrite (cg_loop_length_x _ _ _ _ _ _ _ _ _ _ _ _ Hv1).
  apply (cg_init_length _ _ _ ptrx Hv).
Qed.

End Lengths.

(** ** Linear algebra over the reals *)

Section ExactLinear.
Local Open Scope R_scope.
Implicit Types (x y p l : list R) (h : heap R).

Lemma inner_vadd_vscale l x p (a : R) :
  length x = length p ->
  inner l (vadd x (vscale a p)) = inner l x + a * inner l p.
Proof.
  revert x p. induction l as [|c l IH]; intros [|b x] [|d p] Hlen;
    try discriminate; try (unfold inner; cbn; lra).
  unfold vadd, vscale in *. cbn [map zip_with]. rewrite !inner_cons.
  rewrite IH by (cbn in Hlen; lia). lra.
Qed.

Lemma inner_vscale_r l x (a : R) : inner l (vscale a x) = a * inner l x.
Proof.
  revert x. induction l as [|c l IH]; intros [|b x];
    try (unfold inner; cbn; lra).
  unfold vscale in *. cbn [map]. rewrite !inner_cons, IH. lra.
Qed.

Lemma inner_zero_r l (n : nat) : inner l (replicate n 0) = 0.
Proof.
  revert n. induction l as [|c l IH]; intros [|n]; try reflexivity.
  cbn [replicate]. rewrite inner_cons, IH. lra.
Qed.

Lemma zip_with_map_same {A : Type} (g : R -> R -> R) (f1 f2 : A -> R) (l : list A) :
  zip_with g (map f1 l) (map f2 l) = map (fun a => g (f1 a) (f2 a)) l.
Proof. induction l as [|a l IH]; [reflexivity|]. cbn. rewrite IH. reflexivity. Qed.

Lemma matvec_linear (N : nat) (A : list R) x p (a : R) :
  length x = length p ->
  matvec N A (vadd x (vscale a p))
  = vadd (matvec N A x) (vscale a (matvec N A p)).
Proof.
  intros Hlen. unfold matvec, vadd at 2, vscale at 2.
  rewrite map_map, zip_with_map_same.
  apply map_ext. intros r. apply inner_vadd_vscale, Hlen.
Qed.

Lemma matvec_zero (N : nat) (A : list R) (n : nat) :
  matvec N A (replicate n 0) = replicate N 0.
Proof.
  unfold matvec. rewrite (map_ext _ (fun _ => 0)) by (intros; apply inner_zero_r).
  generalize 0%nat. induction N as [|N IH]; intros lo; [reflexivity|].
  cbn. rewrite IH. reflexivity.
Qed.

Lemma vsub_zero x : vsub x (replicate (length x) 0) = x.
Proof.
  induction x as [|a x IH]; [reflexivity|].
  cbn [length replicate]. unfold vsub in *. cbn [zip_with]. rewrite IH.
  f_equal. lra.
Qed.

Lemma vsub_vsub (b u v : list R) :
  vsub (vsub b u) v = vsub b (vadd u v).
Proof.
  revert u v. induction b as [|c b IH]; intros [|d u] [|e v]; try reflexivity.
  unfold vsub, vadd in *. cbn [zip_with]. rewrite IH. f_equal. lra.
Qed.

Lemma vadd_zero_l x : vadd (replicate (length x) 0) x = x.
Proof.
  induction x as [|a x IH]; [reflexivity|].
  cbn [length replicate]. unfold vadd in *. cbn [zip_with]. rewrite IH.
  f_equal. lra.
Qed.

Lemma vsub_self_scaled x (a lambda : R) :
  a * lambda = 1 -> vsub x (vscale a (vscale lambda x)) = replicate (length x) 0.
Proof.
  intros Hal. induction x as [|c x IH]; [reflexivity|].
  cbn [length replicate]. unfold vsub, vscale in *. cbn [map zip_with].
  rewrite IH. f_equal.
  replace (a * (lambda * c)) with (a * lambda * c) by ring. rewrite Hal. ring.
Qed.

Lemma sum_f_scale (a : R) (f : nat -> R) (lo n : nat) :
  sum_f (fun c => a * f c) lo n = a * sum_f f lo n.
Proof.
  revert lo. induction n as [|n IH]; intros lo.
  - unfold sum_f. cbn. lra.
  - rewrite !sum_f_S, IH. lra.
Qed.

Lemma gemv_serial_row_exact (alpha beta : R) (A x y : list R) (N r : nat) :
  gemv_serial_row alpha A x beta y N r = gemv_row alpha A x beta y N r.
Proof.
  unfold gemv_serial_row, gemv_row. rewrite !accum_sum0.
  rewrite (sum_f_ext _ (fun c => alpha * (A !!! (r * N + c)%nat * x !!! c)))
    by (intros; cbn; ring).
  rewrite sum_f_scale. reflexivity.
Qed.

End ExactLinear.

(** ** The square root in binary64 *)

Section Binary64Sqrt.
Import SpecFloat.




End Binary64Sqrt.

(** ** The serial kernels *)

Section SerialFacts.
Context {F : Type} {SF : Scalar F}.
Implicit Types (h : heap F) (x y : ptr) (l : list F).

Lemma map_lookup_total_seq l : map (fun i => l !!! i) (seq 0 (length l)) = l.
Proof.
  apply list_eq. intros i. rewrite list_lookup_fmap.
  destruct (Nat.lt_ge_cases i (length l)) as [Hi|Hi].
  - rewrite (lookup_seq_lt 0 _ i Hi). cbn.
    symmetry. apply list_lookup_lookup_total_lt, Hi.
  - rewrite (lookup_seq_ge 0 _ i Hi), (lookup_ge_None_2 l i Hi). reflexivity.
Qed.

Lemma axpby_after_nil (alpha beta : F) lx ly : axpby_after alpha lx beta ly [] = ly.
Proof.
  unfold axpby_after.
  transitivity (map (fun i => ly !!! i) (seq 0 (length ly)));
    [|apply map_lookup_total_seq].
  apply map_ext. intros i. reflexivity.
Qed.

Lemma length_axpby_after (alpha beta : F) lx ly done :
  length (axpby_after alpha lx beta ly done) = length ly.
Proof. unfold axpby_after. rewrite length_map, length_seq. reflexivity. Qed.

Lemma axpby_after_ext (alpha beta : F) lx ly d1 d2 :
  (forall i, i ∈ d1 <-> i ∈ d2) ->
  axpby_after alpha lx beta ly d1 = axpby_after alpha lx beta ly d2.
Proof.
  intros H. unfold axpby_after. apply map_ext. intros i.
  rewrite (bool_decide_ext _ _ (H i)). reflexivity.
Qed.

Lemma lookup_axpby_after (alpha beta : F) lx ly done (i : nat) :
  i < length ly ->
  axpby_after alpha lx beta ly done !! i
  = Some (if bool_decide (i ∈ done)
          then (alpha * (lx !!! i) + beta * (ly !!! i))%sc
          else ly !!! i).
Proof. intros Hi. unfold axpby_after. rewrite lookup_map_seq by assumption. reflexivity. Qed.

Lemma axpby_after_insert (alpha beta : F) lx ly done (i : nat) :
  i < length ly ->
  <[i := (alpha * (lx !!! i) + beta * (ly !!! i))%sc]> (axpby_after alpha lx beta ly done)
  = axpby_after alpha lx beta ly (i :: done).
Proof.
  intros Hi. apply list_eq. intros j.
  destruct (Nat.lt_ge_cases j (length ly)) as [Hj|Hj].
  - rewrite (lookup_axpby_after _ _ _ _ (i :: done) j Hj).
    destruct (Nat.eq_dec i j) as [->|Hne].
    + rewrite list_lookup_insert_eq by (rewrite length_axpby_after; assumption).
      rewrite bool_decide_eq_true_2 by (left). reflexivity.
    + rewrite list_lookup_insert_ne by assumption.
      rewrite lookup_axpby_after by assumption.
      rewrite (bool_decide_ext (j ∈ i :: done) (j ∈ done)); [reflexivity|].
      rewrite elem_of_cons. split; [intros [->|H]; [congruence|exact H]|auto].
  - rewrite !lookup_ge_None_2;
      rewrite ?length_insert, ?length_axpby_after; auto.
Qed.

Lemma axpby_after_seq (alpha beta : F) lx ly (size i : nat) :
  i < length ly ->
  axpby_after alpha lx beta ly (seq 0 size) !!! i
  = if i <? size then (alpha * (lx !!! i) + beta * (ly !!! i))%sc else ly !!! i.
Proof.
  intros Hi. apply list_lookup_total_correct.
  rewrite lookup_axpby_after by assumption. f_equal.
  destruct (Nat.ltb_spec i size).
  - rewrite bool_decide_eq_true_2; [reflexivity|]. apply elem_of_seq. lia.
  - rewrite bool_decide_eq_false_2; [reflexivity|]. rewrite elem_of_seq. lia.
Qed.

Lemma axpby_iteration_unfold (alpha : F) x (beta : F) y (i : nat) h :
  axpby_iteration alpha x beta y i h
  = (xi ← load h x i; yi ← load h y i; store h y i (alpha * xi + beta * yi)%sc).
Proof. reflexivity. Qed.

(** The iterations of [axpby] in any order, each at most once. *)
Lemma axpby_in_order (alpha : F) x (beta : F) y h (order : list nat) :
  forall done,
    NoDup order ->
    (forall i, i ∈ order -> i < length (sel h x) /\ i < length (sel h y) /\ i ∉ done) ->
    for_in_order order (axpby_iteration alpha x beta y)
      (upd h y (axpby_after alpha (sel h x) beta (sel h y) done))
    = Ok (upd h y (axpby_after alpha (sel h x) beta (sel h y) (order ++ done))).
Proof.
  induction order as [|i order IH]; intros done Hnd Hin; [reflexivity|].
  apply NoDup_cons in Hnd as [Hi Hnd].
  destruct (Hin i ltac:(left)) as (Hix & Hiy & Hid).
  cbn [for_in_order]. rewrite axpby_iteration_unfold.
  assert (Hx : load (upd h y (axpby_after alpha (sel h x) beta (sel h y) done)) x i
               = Ok (sel h x !!! i)).
  { destruct (decide (y = x)) as [->|Hne].
    - unfold load. rewrite sel_upd_eq. unfold buf_load.
      rewrite lookup_axpby_after by assumption.
      rewrite bool_decide_eq_false_2 by assumption. reflexivity.
    - rewrite load_lt by (rewrite sel_upd_ne by assumption; assumption).
      rewrite sel_upd_ne by assumption. reflexivity. }
  rewrite Hx. ok_step.
  unfold load at 1. rewrite sel_upd_eq. unfold buf_load.
  rewrite lookup_axpby_after by assumption.
  rewrite bool_decide_eq_false_2 by assumption. ok_step.
  rewrite store_lt by (rewrite sel_upd_eq, length_axpby_after; assumption).
  ok_step. rewrite sel_upd_eq, upd_upd, axpby_after_insert by assumption.
  rewrite IH.
  - f_equal. f_equal. apply axpby_after_ext. intros j.
    cbn [app]. repeat (rewrite elem_of_app || rewrite elem_of_cons). tauto.
  - assumption.
  - intros j Hj. destruct (Hin j ltac:(right; assumption)) as (Hjx & Hjy & Hjd).
    repeat split; try assumption. rewrite elem_of_cons. intros [->|H]; auto.
Qed.

Lemma axpby_in_bounds (alpha : F) x (beta : F) y (size : nat) h (order : list nat) :
  Permutation order (seq 0 size) ->
  size <= length (sel h x) -> size <= length (sel h y) ->
  for_in_order order (axpby_iteration alpha x beta y) h
  = Ok (upd h y (axpby_after alpha (sel h x) beta (sel h y) (seq 0 size))).
Proof.
  intros Hl Hx Hy.
  rewrite <- (upd_sel h y) at 1.
  rewrite <- (axpby_after_nil alpha beta (sel h x) (sel h y)) at 1.
  rewrite axpby_in_order.
  - do 2 f_equal. apply axpby_after_ext. intros i.
    rewrite app_nil_r, Hl. reflexivity.
  - rewrite Hl. apply NoDup_seq.
  - intros i Hi. rewrite Hl in Hi. apply elem_of_seq in Hi.
    repeat split; try lia. apply not_elem_of_nil.
Qed.

Lemma axpby_serial (alpha : F) x (beta : F) y (size : nat) h :
  size <= length (sel h x) -> size <= length (sel h y) ->
  axpby alpha x beta y size h
  = Ok (upd h y (axpby_after alpha (sel h x) beta (sel h y) (seq 0 size))).
Proof.
  intros Hx Hy. unfold axpby, for_range. rewrite Nat.sub_0_r, for_loop_in_order.
  apply axpby_in_bounds; [reflexivity|assumption..].
Qed.

Lemma axpby_undefined (alpha : F) x (beta : F) y (size : nat) h :
  length (sel h x) < size \/ length (sel h y) < size ->
  axpby alpha x beta y size h = Undefined.
Proof.
  intros Hlen. unfold axpby, for_range. rewrite Nat.sub_0_r.
  apply (for_loop_undefined_at
           (fun t => length (sel t x) = length (sel h x)
                     /\ length (sel t y) = length (sel h y))
           size 0 (length (sel h x) `min` length (sel h y))); [lia|auto| |].
  - intros j t Hj (Ex & Ey). rewrite axpby_iteration_unfold.
    rewrite (load_lt t x) by lia. ok_step.
    rewrite (load_lt t y) by lia. ok_step.
    rewrite store_lt by lia. eexists. split; [reflexivity|].
    split.
    + rewrite <- Ex. eapply length_sel_store. apply store_lt. lia.
    + rewrite <- Ey. eapply length_sel_store. apply store_lt. lia.
  - intros t (Ex & Ey). rewrite axpby_iteration_unfold.
    destruct (Nat.le_gt_cases (length (sel h x)) (length (sel h y))) as [Hle|Hgt].
    + rewrite (load_ge t x) by lia. reflexivity.
    + rewrite (load_lt t x) by lia. ok_step.
      rewrite (load_ge t y) by lia. reflexivity.
Qed.

(** The iterations of [axpby] in any order, one of them out of bounds. *)
Lemma axpby_in_order_undefined (alpha : F) x (beta : F) y (nx ny i : nat)
    (order : list nat) :
  i ∈ order -> nx <= i \/ ny <= i ->
  forall h,
    length (sel h x) = nx -> length (sel h y) = ny ->
    for_in_order order (axpby_iteration alpha x beta y) h = Undefined.
Proof.
  intros Hin Hi. induction order as [|j order IH]; intros h Hx Hy.
  { apply elem_of_nil in Hin. contradiction. }
  cbn [for_in_order]. rewrite axpby_iteration_unfold.
  destruct (Nat.le_gt_cases nx j) as [Hjx|Hjx].
  { rewrite (load_ge h x) by lia. reflexivity. }
  rewrite (load_lt h x) by lia. ok_step.
  destruct (Nat.le_gt_cases ny j) as [Hjy|Hjy].
  { rewrite (load_ge h y) by lia. reflexivity. }
  rewrite (load_lt h y) by lia. ok_step.
  rewrite store_lt by lia. ok_step.
  apply elem_of_cons in Hin as [->|Hin]; [lia|].
  apply IH; [assumption| |].
  - rewrite <- Hx. eapply length_sel_store. apply store_lt. lia.
  - rewrite <- Hy. eapply length_sel_store. apply store_lt. lia.
Qed.

Lemma dot_undefined x y (size : nat) h :
  length (sel h x) < size \/ length (sel h y) < size ->
  dot x y size h = Undefined.
Proof.
  intros Hlen. unfold dot, for_range. rewrite Nat.sub_0_r.
  apply (for_loop_undefined_at (fun _ => True) size 0
           (length (sel h x) `min` length (sel h y))); [lia|exact I| |].
  - intros j t Hj _. rewrite !load_lt by lia. eexists. split; [reflexivity|exact I].
  - intros t _.
    destruct (Nat.le_gt_cases (length (sel h x)) (length (sel h y))) as [Hle|Hgt].
    + rewrite (load_ge h x) by lia. reflexivity.
    + rewrite (load_lt h x) by lia. ok_step.
      rewrite (load_ge h y) by lia. reflexivity.
Qed.

Lemma gemv_spec (alpha : F) (A x : ptr) (beta : F) y (num_rows num_cols : nat) h :
  A <> y -> x <> y ->
  num_rows * num_cols <= length (sel h A) ->
  num_cols <= length (sel h x) ->
  num_rows <= length (sel h y) ->
  gemv alpha A x beta y num_rows num_cols h
  = Ok (upd h y
          (map (gemv_serial_row alpha (sel h A) (sel h x) beta (sel h y) num_cols)
               (seq 0 num_rows)
           ++ drop num_rows (sel h y))).
Proof.
  intros HAy Hxy HA Hx Hy. unfold gemv, for_range. rewrite Nat.sub_0_r.
  set (g := gemv_serial_row alpha (sel h A) (sel h x) beta (sel h y) num_cols).
  set (new := map g (seq 0 num_rows) ++ drop num_rows (sel h y)).
  assert (Hlen : length new = length (sel h y)).
  { unfold new. rewrite length_app, length_map, length_seq, length_drop. lia. }
  destruct (for_loop_inv
              (fun j t => t = upd h y (take j new ++ drop j (sel h y)))
              num_rows 0
              (fun r h0 =>
                 y_val ← for_loop (num_cols - 0) 0
                           (fun c y_val =>
                              a ← load h0 A (r * num_cols + c);
                              xc ← load h0 x c;
                              Ok (y_val + alpha * a * xc)%sc)
                           f0;
                 yr ← load h0 y r;
                 store h0 y r (beta * yr + y_val)%sc) h)
    as (h' & Hrun & Hinv).
  - rewrite take_0, drop_0, app_nil_l, upd_sel. reflexivity.
  - intros j t Hj ->. rewrite Nat.sub_0_r.
    rewrite (for_loop_accum
               (fun c => alpha * (sel h A !!! (j * num_cols + c)%nat) * (sel h x !!! c))%sc).
    2:{ intros c t Hc.
        rewrite (load_lt _ A) by (rewrite sel_upd_ne by congruence; nia). ok_step.
        rewrite (load_lt _ x) by (rewrite sel_upd_ne by congruence; lia).
        rewrite !sel_upd_ne by congruence. reflexivity. }
    ok_step.
    rewrite (load_lt _ y) by (rewrite sel_upd_eq, length_take_drop by assumption; lia).
    ok_step.
    rewrite store_lt by (rewrite sel_upd_eq, length_take_drop by assumption; lia).
    eexists; split; [reflexivity|].
    rewrite !sel_upd_eq, upd_upd.
    rewrite lookup_total_take_drop by lia.
    rewrite (insert_take_drop new (sel h y) j); [reflexivity| |lia].
    unfold new. rewrite lookup_app_l by (rewrite length_map, length_seq; lia).
    rewrite lookup_map_seq by lia. reflexivity.
  - rewrite Hrun, Hinv. cbn [plus]. do 2 f_equal.
    unfold new. rewrite take_app_length' by (rewrite length_map, length_seq; reflexivity).
    reflexivity.
Qed.

End SerialFacts.

(** ** The encoding of binary64 *)

Section Binary64BitsFacts.
Import SpecFloat.
Local Open Scope Z_scope.

Lemma digits2_pos_bounds (m : positive) :
  2 ^ (Z.pos (digits2_pos m) - 1) <= Z.pos m < 2 ^ Z.pos (digits2_pos m).
Proof.
  induction m as [m IH|m IH|]; cbn [digits2_pos].
  - rewrite Pos2Z.inj_succ, Z.pow_succ_r by lia.
    replace (Z.succ (Z.pos (digits2_pos m)) - 1)
      with (Z.succ (Z.pos (digits2_pos m) - 1)) by lia.
    rewrite Z.pow_succ_r by lia. lia.
  - rewrite Pos2Z.inj_succ, Z.pow_succ_r by lia.
    replace (Z.succ (Z.pos (digits2_pos m)) - 1)
      with (Z.succ (Z.pos (digits2_pos m) - 1)) by lia.
    rewrite Z.pow_succ_r by lia. lia.
  - cbn. lia.
Qed.

(** A finite binary64 number is subnormal, with exponent -1074 and a
    significand below 2^52, or normal, with a significand of 53 bits. *)
Lemma bounded_cases (m : positive) (e : Z) :
  bounded FloatOps.prec FloatOps.emax m e = true ->
  (Z.pos m < 2 ^ 52 /\ e = -1074)
  \/ (2 ^ 52 <= Z.pos m < 2 ^ 53 /\ -1074 <= e <= 971).
Proof.
  unfold bounded, canonical_mantissa, fexp, emin.
  change FloatOps.prec with 53. change FloatOps.emax with 1024.
  intros H. apply andb_prop in H as [Hc He].
  apply Z.eqb_eq in Hc. apply Z.leb_le in He.
  pose proof (digits2_pos_bounds m) as [Hlo Hhi].
  set (d := Z.pos (digits2_pos m)) in *.
  assert (Hd : 0 < d) by (unfold d; lia).
  destruct (Z.le_gt_cases d 52) as [Hd52|Hd52].
  - left. split; [|lia].
    eapply Z.lt_le_trans; [exact Hhi|]. apply Z.pow_le_mono_r; lia.
  - destruct (Z.le_gt_cases d 53) as [Hd53|Hd53].
    + right. replace d with 53 in * by lia. split; [|lia].
      change (53 - 1) with 52 in Hlo. lia.
    + exfalso. lia.
Qed.

Lemma decode_fields (s : bool) (e m : Z) :
  0 <= e < 2 ^ 11 -> 0 <= m < 2 ^ 52 ->
  let b := sign_bit s + e * 2 ^ 52 + m in
  Z.testbit b 63 = s /\ (b / 2 ^ 52) mod 2 ^ 11 = e /\ b mod 2 ^ 52 = m
  /\ 0 <= b < 2 ^ 64.
Proof.
  intros He Hm b.
  change (2 ^ 11) with 2048 in *. change (2 ^ 52) with 4503599627370496 in *.
  assert (Hdiv : b / 4503599627370496 = (if s then 2048 else 0) + e).
  { symmetry. apply (Z.div_unique b 4503599627370496 _ m); [lia|].
    unfold b, sign_bit. change (2 ^ 63) with 9223372036854775808.
    change (2 ^ 52) with 4503599627370496. destruct s; lia. }
  assert (Hmod : b mod 4503599627370496 = m).
  { symmetry. apply (Z.mod_unique b 4503599627370496 ((if s then 2048 else 0) + e) m);
      [lia|].
    unfold b, sign_bit. change (2 ^ 63) with 9223372036854775808.
    change (2 ^ 52) with 4503599627370496. destruct s; lia. }
  split; [|split; [|split]].
  - apply Bool.eq_true_iff_eq. rewrite Z.testbit_true by lia.
    change (2 ^ 63) with 9223372036854775808.
    assert (Hq : b / 9223372036854775808 = if s then 1 else 0).
    { symmetry.
      apply (Z.div_unique b 9223372036854775808 _ (e * 4503599627370496 + m)); [lia|].
      unfold b, sign_bit. change (2 ^ 63) with 9223372036854775808.
      change (2 ^ 52) with 4503599627370496. destruct s; lia. }
    rewrite Hq.
    destruct s; [change (1 mod 2) with 1 | change (0 mod 2) with 0];
      split; congruence.
  - rewrite Hdiv. destruct s.
    + symmetry. apply (Z.mod_unique _ 2048 1 e); lia.
    + apply Z.mod_small. lia.
  - exact Hmod.
  - unfold b, sign_bit. change (2 ^ 63) with 9223372036854775808.
    change (2 ^ 64) with 18446744073709551616.
    change (2 ^ 52) with 4503599627370496. destruct s; lia.
Qed.

Lemma sf_of_bits_of_sf (x : spec_float) :
  valid_binary FloatOps.prec FloatOps.emax x = true ->
  sf_of_bits (bits_of_sf x) = x.
Proof.
  destruct x as [s|s| |s m e]; cbn [valid_binary]; intros Hv.
  - destruct s; vm_compute; reflexivity.
  - destruct s; vm_compute; reflexivity.
  - vm_compute. reflexivity.
  - unfold bits_of_sf.
    destruct (bounded_cases m e Hv) as [(Hm & ->)|(Hm & He)].
    + destruct (Z.ltb_spec (Z.pos m) (2 ^ 52)); [|lia].
      destruct (decode_fields s 0 (Z.pos m)) as (Hs & Hexp & Hman & _);
        [change (2 ^ 11) with 2048; lia | lia |].
      rewrite Z.mul_0_l, Z.add_0_r in Hs, Hexp, Hman.
      unfold sf_of_bits. rewrite Hs, Hexp, Hman. cbn [Z.eqb].
      destruct (Z.eqb_spec (Z.pos m) 0); [lia|]. reflexivity.
    + destruct (Z.ltb_spec (Z.pos m) (2 ^ 52)); [lia|].
      destruct (decode_fields s (e + 1075) (Z.pos m - 2 ^ 52)) as (Hs & Hexp & Hman & _);
        [change (2 ^ 11) with 2048; lia
        | change (2 ^ 53) with (2 * 2 ^ 52) in Hm; lia |].
      unfold sf_of_bits. rewrite Hs, Hexp, Hman.
      destruct (Z.eqb_spec (e + 1075) 0); [lia|].
      destruct (Z.eqb_spec (e + 1075) 2047); [lia|].
      f_equal; [|lia].
      replace (Z.pos m - 2 ^ 52 + 2 ^ 52) with (Z.pos m) by lia. reflexivity.
Qed.

Lemma bits_of_sf_range (x : spec_float) :
  valid_binary FloatOps.prec FloatOps.emax x = true ->
  0 <= bits_of_sf x < 2 ^ 64.
Proof.
  destruct x as [s|s| |s m e]; cbn [valid_binary]; intros Hv.
  - destruct s; vm_compute; split; congruence.
  - destruct s; vm_compute; split; congruence.
  - vm_compute; split; congruence.
  - unfold bits_of_sf.
    destruct (bounded_cases m e Hv) as [(Hm & ->)|(Hm & He)].
    + destruct (Z.ltb_spec (Z.pos m) (2 ^ 52)); [|lia].
      destruct (decode_fields s 0 (Z.pos m)) as (_ & _ & _ & Hr);
        [change (2 ^ 11) with 2048; lia | lia |].
      rewrite Z.mul_0_l, Z.add_0_r in Hr. exact Hr.
    + destruct (Z.ltb_spec (Z.pos m) (2 ^ 52)); [lia|].
      apply (decode_fields s (e + 1075) (Z.pos m - 2 ^ 52));
        [change (2 ^ 11) with 2048; lia
        | change (2 ^ 53) with (2 * 2 ^ 52) in Hm; lia].
Qed.

Lemma double_of_bits_of_double (d : PrimFloat.float) :
  double_of_bits (bits_of_double d) = d.
Proof.
  unfold double_of_bits, bits_of_double.
  rewrite sf_of_bits_of_sf by apply FloatAxioms.Prim2SF_valid.
  apply FloatAxioms.SF2Prim_Prim2SF.
Qed.

Lemma bits_of_double_range (d : PrimFloat.float) : 0 <= bits_of_double d < 2 ^ 64.
Proof. apply bits_of_sf_range, FloatAxioms.Prim2SF_valid. Qed.

End Binary64BitsFacts.

(** The encoding on some doubles: 1.0, -2.0, the least positive double,
    the greatest double, infinity and pi. *)
Remark bits_of_double_examples :
  map bits_of_double
    [PrimFloat.one; PrimFloat.opp PrimFloat.two;
     double_of_bits 1; double_of_bits 0x7FEFFFFFFFFFFFFF;
     PrimFloat.infinity; double_of_bits 0x400921FB54442D18]
  = [0x3FF0000000000000; 0xC000000000000000; 1; 0x7FEFFFFFFFFFFFFF;
     0x7FF0000000000000; 0x400921FB54442D18]%Z.
Proof. vm_compute. reflexivity. Qed.

(** ** Files *)

Section FilesFacts.
Local Open Scope Z_scope.

Lemma length_bytes_of_size_t (n : Z) : length (bytes_of_size_t n) = 8%nat.
Proof. apply LittleEndianList.length_le_split. Qed.

Lemma length_bytes_of_double (d : PrimFloat.float) : length (bytes_of_double d) = 8%nat.
Proof. apply LittleEndianList.length_le_split. Qed.

Lemma length_doubles_bytes (l : list PrimFloat.float) :
  length (concat (map bytes_of_double l)) = (8 * length l)%nat.
Proof.
  induction l as [|d l IH]; [reflexivity|].
  cbn [map concat length]. rewrite length_app, length_bytes_of_double, IH. lia.
Qed.

Lemma size_t_of_bytes_of_size_t (n : Z) :
  0 <= n < 2 ^ 64 -> size_t_of_bytes (bytes_of_size_t n) = n.
Proof.
  intros Hn. unfold size_t_of_bytes, bytes_of_size_t.
  rewrite LittleEndianList.le_combine_split. apply Z.mod_small. exact Hn.
Qed.

Lemma size_t_of_bytes_range (bs : list Init.Byte.byte) :
  (length bs <= 8)%nat -> 0 <= size_t_of_bytes bs < 2 ^ 64.
Proof.
  intros Hlen. unfold size_t_of_bytes.
  pose proof (LittleEndianList.le_combine_bound bs) as [H0 H1].
  split; [exact H0|].
  eapply Z.lt_le_trans; [exact H1|]. apply Z.pow_le_mono_r; lia.
Qed.

Lemma size_t_mul_1_r (n : Z) : 0 <= n < 2 ^ 64 -> size_t_mul n 1 = n.
Proof. intros H. unfold size_t_mul. rewrite Z.mul_1_r. apply Z.mod_small, H. Qed.

Lemma double_of_bytes_of_double (d : PrimFloat.float) :
  double_of_bytes (bytes_of_double d) = d.
Proof.
  unfold double_of_bytes, bytes_of_double.
  rewrite LittleEndianList.le_combine_split.
  rewrite Z.mod_small by apply bits_of_double_range.
  apply double_of_bits_of_double.
Qed.

Lemma fread_size_t_app (n : Z) (rest : list Init.Byte.byte) :
  0 <= n < 2 ^ 64 -> fread_size_t (bytes_of_size_t n ++ rest) = Ok (n, rest).
Proof.
  intros Hn. unfold fread_size_t.
  rewrite length_app, length_bytes_of_size_t. cbn [Nat.leb plus].
  rewrite (take_app_length' _ _ 8), (drop_app_length' _ _ 8)
    by (symmetry; apply length_bytes_of_size_t).
  rewrite size_t_of_bytes_of_size_t by assumption. reflexivity.
Qed.

Lemma fread_size_t_short (rest : list Init.Byte.byte) :
  (length rest < 8)%nat -> fread_size_t rest = Undefined.
Proof.
  intros H. unfold fread_size_t. destruct (Nat.leb_spec 8 (length rest)); [lia|reflexivity].
Qed.

Lemma fread_size_t_long (rest : list Init.Byte.byte) :
  (8 <= length rest)%nat ->
  fread_size_t rest = Ok (size_t_of_bytes (take 8 rest), drop 8 rest).
Proof.
  intros H. unfold fread_size_t. destruct (Nat.leb_spec 8 (length rest)); [reflexivity|lia].
Qed.

Lemma length_fread_doubles (rest : list Init.Byte.byte) (buf : list PrimFloat.float) :
  length (fread_doubles rest buf) = length buf.
Proof.
  revert rest. induction buf as [|d buf IH]; intros rest; [reflexivity|].
  cbn [fread_doubles]. destruct (8 <=? length rest)%nat.
  - cbn [length]. rewrite IH. reflexivity.
  - destruct rest; reflexivity.
Qed.

(** Reading back what [fwrite] wrote for the doubles [l]; what follows in
    the file is not read. *)
Lemma fread_doubles_written (l buf : list PrimFloat.float) (rest : list Init.Byte.byte) :
  length buf = length l ->
  fread_doubles (concat (map bytes_of_double l) ++ rest) buf = l.
Proof.
  revert buf. induction l as [|d l IH]; intros [|b buf] Hlen; try discriminate;
    [reflexivity|].
  cbn [map concat fread_doubles]. rewrite <- !app_assoc.
  rewrite length_app, length_bytes_of_double. cbn [Nat.leb plus].
  rewrite (take_app_length' _ _ 8), (drop_app_length' _ _ 8)
    by (symmetry; apply length_bytes_of_double).
  rewrite double_of_bytes_of_double, IH by (cbn in Hlen; lia). reflexivity.
Qed.

(** The elements that the file has in full. *)
Lemma fread_doubles_lookup_read (rest : list Init.Byte.byte) (buf : list PrimFloat.float) (i : nat) :
  (i < length buf)%nat -> (8 * (i + 1) <= length rest)%nat ->
  fread_doubles rest buf !! i = Some (double_of_bytes (take 8 (drop (8 * i) rest))).
Proof.
  revert rest i. induction buf as [|d buf IH]; intros rest i Hi Hlen; [cbn in Hi; lia|].
  cbn [fread_doubles]. destruct (Nat.leb_spec 8 (length rest)); [|lia].
  destruct i as [|i]; [reflexivity|].
  cbn [lookup list_lookup]. rewrite IH by (cbn in Hi; rewrite ?length_drop; lia).
  rewrite drop_drop. do 4 f_equal. lia.
Qed.

(** The elements that lie wholly after the end of the file. *)
Lemma fread_doubles_lookup_fresh (rest : list Init.Byte.byte) (buf : list PrimFloat.float) (i : nat) :
  (length rest <= 8 * i)%nat ->
  fread_doubles rest buf !! i = buf !! i.
Proof.
  revert rest i. induction buf as [|d buf IH]; intros rest i Hlen; [reflexivity|].
  cbn [fread_doubles]. destruct (Nat.leb_spec 8 (length rest)).
  - destruct i as [|i]; [lia|]. cbn [lookup list_lookup].
    apply IH. rewrite length_drop. lia.
  - destruct rest as [|b rest]; [reflexivity|].
    destruct i as [|i]; [cbn in Hlen; lia|]. reflexivity.
Qed.

Lemma lookup_new_double_array {F : Type} (fresh : nat -> F) (n i : nat) :
  (i < n)%nat -> new_double_array fresh n !! i = Some (fresh i).
Proof. intros Hi. unfold new_double_array. rewrite lookup_map_seq by assumption. reflexivity. Qed.

Lemma length_new_double_array {F : Type} (fresh : nat -> F) (n : nat) :
  length (new_double_array fresh n) = n.
Proof. unfold new_double_array. rewrite length_map, length_seq. reflexivity. Qed.

(** The three outcomes of [read_matrix_from_file], by the file. *)
Lemma read_matrix_from_file_by_file (fs : file_system) (fresh : nat -> PrimFloat.float)
    (filename : string) :
  read_matrix_from_file fs fresh filename
  = match fs_files fs !! filename with
    | None => Ok ([fprintf stderr "Cannot open output file\n" []], None)
    | Some contents =>
        if (length contents <? 16)%nat then Undefined
        else
          let num_rows := size_t_of_bytes (take 8 contents) in
          let num_cols := size_t_of_bytes (take 8 (drop 8 contents)) in
          Ok ([], Some (fread_doubles (drop 16 contents)
                          (new_double_array fresh
                             (Z.to_nat (size_t_mul num_rows num_cols))),
                        num_rows, num_cols))
    end.
Proof.
  unfold read_matrix_from_file. destruct (fs_files fs !! filename) as [contents|];
    [|reflexivity].
  destruct (Nat.ltb_spec (length contents) 16) as [Hlt|Hge].
  - destruct (Nat.lt_ge_cases (length contents) 8) as [H8|H8].
    + rewrite fread_size_t_short by assumption. reflexivity.
    + rewrite fread_size_t_long by assumption. ok_step.
      rewrite fread_size_t_short by (rewrite length_drop; lia). reflexivity.
  - rewrite fread_size_t_long by lia. ok_step.
    rewrite fread_size_t_long by (rewrite length_drop; lia). ok_step.
    rewrite drop_drop. reflexivity.
Qed.

Lemma read_matrix_from_file_Some (fs : file_system) (fresh : nat -> PrimFloat.float)
    (filename : string) out matrix (num_rows num_cols : Z) :
  read_matrix_from_file fs fresh filename = Ok (out, Some (matrix, num_rows, num_cols)) ->
  out = [] /\ 0 <= num_rows < 2 ^ 64 /\ 0 <= num_cols < 2 ^ 64
  /\ length matrix = Z.to_nat (size_t_mul num_rows num_cols)
  /\ exists contents,
       fs_files fs !! filename = Some contents /\ (16 <= length contents)%nat
       /\ num_rows = size_t_of_bytes (take 8 contents)
       /\ num_cols = size_t_of_bytes (take 8 (drop 8 contents)).
Proof.
  rewrite read_matrix_from_file_by_file.
  destruct (fs_files fs !! filename) as [contents|]; [|discriminate].
  destruct (Nat.ltb_spec (length contents) 16) as [Hlt|Hge]; [discriminate|].
  cbv zeta. intros H. inversion H; subst. clear H.
  split; [reflexivity|].
  split; [apply size_t_of_bytes_range; rewrite length_take; lia|].
  split; [apply size_t_of_bytes_range; rewrite length_take; lia|].
  split; [rewrite length_fread_doubles, length_new_double_array; reflexivity|].
  exists contents. auto.
Qed.

Lemma read_matrix_from_file_None (fs : file_system) (fresh : nat -> PrimFloat.float)
    (filename : string) out :
  read_matrix_from_file fs fresh filename = Ok (out, None) ->
  fs_files fs !! filename = None.
Proof.
  rewrite read_matrix_from_file_by_file.
  destruct (fs_files fs !! filename) as [contents|]; [|reflexivity].
  destruct (length contents <? 16)%nat; discriminate.
Qed.

Lemma write_matrix_to_file_writes (fs : file_system) (filename : string)
    (matrix : list PrimFloat.float) (num_rows num_cols : Z) :
  fs_writable fs filename = true ->
  (Z.to_nat (size_t_mul num_rows num_cols) <= length matrix)%nat ->
  write_matrix_to_file fs filename matrix num_rows num_cols
  = Ok ([], true,
        mkFS (<[filename := bytes_of_size_t num_rows ++ bytes_of_size_t num_cols
                            ++ concat (map bytes_of_double
                                         (take (Z.to_nat (size_t_mul num_rows num_cols))
                                            matrix))]>
                (fs_files fs))
             (fs_writable fs)).
Proof.
  intros Hw Hlen. unfold write_matrix_to_file. rewrite Hw.
  destruct (Nat.leb_spec (Z.to_nat (size_t_mul num_rows num_cols)) (length matrix));
    [reflexivity|lia].
Qed.

Lemma read_matrix_from_file_written (files : gmap string (list Init.Byte.byte))
    (writable : string -> bool) (fresh : nat -> PrimFloat.float)
    (filename : string) (l : list PrimFloat.float) (num_rows num_cols : Z) :
  0 <= num_rows < 2 ^ 64 -> 0 <= num_cols < 2 ^ 64 ->
  length l = Z.to_nat (size_t_mul num_rows num_cols) ->
  read_matrix_from_file
    (mkFS (<[filename := bytes_of_size_t num_rows ++ bytes_of_size_t num_cols
                         ++ concat (map bytes_of_double l)]> files) writable)
    fresh filename
  = Ok ([], Some (l, num_rows, num_cols)).
Proof.
  intros Hr Hc Hlen. unfold read_matrix_from_file. cbn [fs_files].
  rewrite lookup_insert_eq.
  rewrite fread_size_t_app by assumption. ok_step.
  rewrite fread_size_t_app by assumption. ok_step.
  rewrite <- (app_nil_r (concat _)).
  rewrite fread_doubles_written by (rewrite length_new_double_array; lia).
  reflexivity.
Qed.

Lemma write_matrix_to_file_false (fs : file_system) (filename : string)
    (matrix : list PrimFloat.float) (num_rows num_cols : Z) out fs' :
  write_matrix_to_file fs filename matrix num_rows num_cols = Ok (out, false, fs') ->
  fs_writable fs filename = false /\ fs' = fs
  /\ out = [fprintf stderr "Cannot open output file\n" []].
Proof.
  unfold write_matrix_to_file. destruct (fs_writable fs filename).
  - destruct (_ <=? _)%nat; discriminate.
  - intros H. inversion H; subst. auto.
Qed.

Lemma write_matrix_to_file_true (fs : file_system) (filename : string)
    (matrix : list PrimFloat.float) (num_rows num_cols : Z) out fs' :
  write_matrix_to_file fs filename matrix num_rows num_cols = Ok (out, true, fs') ->
  fs_writable fs filename = true
  /\ (Z.to_nat (size_t_mul num_rows num_cols) <= length matrix)%nat.
Proof.
  unfold write_matrix_to_file. destruct (fs_writable fs filename); [|discriminate].
  destruct (Nat.leb_spec (Z.to_nat (size_t_mul num_rows num_cols)) (length matrix));
    [auto|discriminate].
Qed.

End FilesFacts.

(** ** [print_matrix] *)

Section PrintMatrixFacts.
Context {F : Type} {SF : Scalar F}.

Lemma print_matrix_inner (matrix : list F) (num_cols r : nat) (out : list (output F)) :
  r * num_cols + num_cols <= length matrix ->
  for_loop num_cols 0
    (fun c out =>
       val ← buf_load matrix (r * num_cols + c);
       Ok (out ++ [printf "%+6.3f " [arg_f val]]))
    out
  = Ok (out ++ map (fun c => printf "%+6.3f " [arg_f (matrix !!! (r * num_cols + c)%nat)])
                   (seq 0 num_cols)).
Proof.
  intros Hlen.
  destruct (for_loop_inv
              (fun j t => t = out ++ map (fun c => printf "%+6.3f "
                                            [arg_f (matrix !!! (r * num_cols + c)%nat)])
                                         (seq 0 j))
              num_cols 0
              (fun c out =>
                 val ← buf_load matrix (r * num_cols + c);
                 Ok (out ++ [printf "%+6.3f " [arg_f val]]))
              out)
    as (t & Hrun & Ht).
  - cbn. rewrite app_nil_r. reflexivity.
  - intros j t Hj ->. rewrite buf_load_lt by lia. ok_step.
    eexists. split; [reflexivity|].
    rewrite seq_S, map_app, app_assoc. reflexivity.
  - rewrite Hrun, Ht. reflexivity.
Qed.

Lemma print_matrix_in_bounds (matrix : list F) (num_rows num_cols : nat) (file : FILE) :
  num_rows * num_cols <= length matrix ->
  print_matrix matrix num_rows num_cols file
  = Ok (fprintf file "%zu %zu\n"
          [arg_zu (Z.of_nat num_rows); arg_zu (Z.of_nat num_cols)]
        :: concat (map (print_matrix_row matrix num_cols) (seq 0 num_rows))).
Proof using SF.
  intros Hlen. unfold print_matrix, for_range. rewrite Nat.sub_0_r.
  set (hd := fprintf file "%zu %zu\n" _).
  destruct (for_loop_inv
              (fun j t => t = hd :: concat (map (print_matrix_row matrix num_cols)
                                              (seq 0 j)))
              num_rows 0
              (fun r out =>
                 out ← for_loop (num_cols - 0) 0
                         (fun c out =>
                            val ← buf_load matrix (r * num_cols + c);
                            Ok (out ++ [printf "%+6.3f " [arg_f val]]))
                         out;
                 Ok (out ++ [printf "\n" []]))
              [hd])
    as (t & Hrun & Ht).
  - reflexivity.
  - intros j t Hj ->. rewrite Nat.sub_0_r.
    rewrite print_matrix_inner by nia. ok_step.
    eexists. split; [reflexivity|].
    rewrite seq_S, map_app, concat_app. cbn [map concat plus].
    rewrite app_nil_r. unfold print_matrix_row.
    rewrite <- !app_assoc. reflexivity.
  - rewrite Hrun, Ht. reflexivity.
Qed.

Lemma print_matrix_out_of_bounds (matrix : list F) (num_rows num_cols : nat) (file : FILE) :
  length matrix < num_rows * num_cols ->
  print_matrix matrix num_rows num_cols file = Undefined.
Proof using SF.
  intros Hlen. unfold print_matrix, for_range. rewrite Nat.sub_0_r.
  assert (Hc : 0 < num_cols) by nia.
  set (r0 := length matrix / num_cols).
  pose proof (Nat.div_mod_eq (length matrix) num_cols) as Hdm.
  pose proof (Nat.mod_upper_bound (length matrix) num_cols ltac:(lia)) as Hmod.
  fold r0 in Hdm.
  assert (Hr0 : r0 < num_rows) by nia.
  apply (for_loop_undefined_at (fun _ => True) num_rows 0 r0); [lia|exact I| |].
  - intros r t Hr _. rewrite Nat.sub_0_r.
    rewrite print_matrix_inner by nia. ok_step.
    eexists. split; [reflexivity|exact I].
  - intros t _. rewrite Nat.sub_0_r.
    rewrite (for_loop_undefined_at (fun _ => True) num_cols 0
               (length matrix mod num_cols)); [reflexivity|lia|exact I| |].
    + intros c u Hcu _. rewrite buf_load_lt by nia. ok_step.
      eexists. split; [reflexivity|exact I].
    + intros u _. rewrite buf_load_ge by nia. reflexivity.
Qed.

End PrintMatrixFacts.

(** ** The driver *)

Lemma MPI_Bcast_whole {F : Type} (rank : nat) (root_buf buf : list F) (count : Z) :
  length root_buf = Z.to_nat count ->
  length buf = length root_buf ->
  (rank = 0%nat -> buf = root_buf) ->
  MPI_Bcast rank root_buf count buf
  = if (count <=? INT_MAX)%Z then Ok root_buf else Undefined.
Proof.
  intros Hc Hlen H0. unfold MPI_Bcast. rewrite Hlen, Hc, Nat.leb_refl.
  destruct (count <=? INT_MAX)%Z; [|reflexivity]. cbn [andb].
  destruct (Nat.eqb_spec rank 0) as [->|Hne].
  - rewrite H0 by reflexivity. reflexivity.
  - rewrite take_ge, drop_ge, app_nil_r by lia. reflexivity.
Qed.

Section MainFacts.
Local Open Scope Z_scope.
Variable atoi : string -> Z.
Variable atof : string -> PrimFloat.float.

(** What [main_input] returns, by the two files. *)
Lemma main_input_cases (fs : file_system) (fresh : nat -> nat -> PrimFloat.float)
    (fm fr fo : string) (max_iters : Z) (rel_error : PrimFloat.float) out input :
  main_input fs fresh fm fr fo max_iters rel_error = Ok (out, input) ->
  match input with
  | inl code =>
      (code = 1 /\ fs_files fs !! fm = None)
      \/ (code = 2 /\ fs_files fs !! fm <> None /\ fs_files fs !! fr = None)
      \/ exists cm cr,
           fs_files fs !! fm = Some cm /\ fs_files fs !! fr = Some cr
           /\ (16 <= length cm)%nat /\ (16 <= length cr)%nat
           /\ ((code = 3 /\ (header cm).1 <> (header cm).2)
               \/ (code = 4 /\ (header cm).1 = (header cm).2
                   /\ (header cr).1 <> (header cm).1)
               \/ (code = 5 /\ (header cm).1 = (header cm).2
                   /\ (header cr).1 = (header cm).1 /\ (header cr).2 <> 1))
  | inr (matrix, rhs, matrix_rows, matrix_cols, size) =>
      matrix_rows = size /\ matrix_cols = size /\ 0 <= size < 2 ^ 64
      /\ read_matrix_from_file fs (fresh 0%nat) fm = Ok ([], Some (matrix, size, size))
      /\ read_matrix_from_file fs (fresh 1%nat) fr = Ok ([], Some (rhs, size, 1))
      /\ length matrix = Z.to_nat (size_t_mul size size)
      /\ length rhs = Z.to_nat size
  end.
Proof.
  unfold main_input. intros H. ok_inv H. destruct v as [o1 [[[matrix mr] mc]|]].
  2:{ inversion H; subst out input. left. split; [reflexivity|].
      eapply read_matrix_from_file_None; eassumption. }
  destruct (read_matrix_from_file_Some _ _ _ _ _ _ _ Hv)
    as (-> & Hmr & Hmc & Hlm & cm & Hcm & Hlcm & Emr & Emc).
  ok_inv H. destruct v as [o2 [[[rhs rr] rc]|]].
  2:{ inversion H; subst out input. right. left. split; [reflexivity|].
      split; [congruence|]. eapply read_matrix_from_file_None; eassumption. }
  destruct (read_matrix_from_file_Some _ _ _ _ _ _ _ Hv0)
    as (-> & Hrr & Hrc & Hlr & cr & Hcr & Hlcr & Err & Erc).
  destruct (Z.eqb_spec mr mc) as [Esq|Esq]; cbn [negb] in H.
  2:{ inversion H; subst out input. right. right. exists cm, cr.
      unfold header. cbn [fst snd]. rewrite <- Emr, <- Emc.
      repeat split; try assumption. left. auto. }
  destruct (Z.eqb_spec rr mr) as [Erows|Erows]; cbn [negb] in H.
  2:{ inversion H; subst out input. right. right. exists cm, cr.
      unfold header. cbn [fst snd]. rewrite <- Emr, <- Emc, <- Err.
      repeat split; try assumption. right. left. auto. }
  destruct (Z.eqb_spec rc 1) as [Ecols|Ecols]; cbn [negb] in H.
  2:{ inversion H; subst out input. right. right. exists cm, cr.
      unfold header. cbn [fst snd]. rewrite <- Emr, <- Emc, <- Err, <- Erc.
      repeat split; try assumption. right. right. auto. }
  clear Emr Emc Err Erc. subst mc rr rc. inversion H; subst out input. clear H.
  rewrite size_t_mul_1_r in Hlr by assumption.
  repeat split; try assumption; try lia.
Qed.

Lemma main_input_valid (fs : file_system) (fresh : nat -> nat -> PrimFloat.float)
    (fm fr fo : string) (max_iters : Z) (rel_error : PrimFloat.float)
    out matrix rhs mr mc size :
  main_input fs fresh fm fr fo max_iters rel_error
  = Ok (out, inr (matrix, rhs, mr, mc, size)) ->
  valid_input fs fm fr size.
Proof.
  intros H. destruct (main_input_cases _ _ _ _ _ _ _ _ _ H)
    as (-> & -> & Hs & Hm & Hr & _).
  destruct (read_matrix_from_file_Some _ _ _ _ _ _ _ Hm)
    as (_ & _ & _ & _ & cm & Hcm & Hlcm & E1 & E2).
  destruct (read_matrix_from_file_Some _ _ _ _ _ _ _ Hr)
    as (_ & _ & _ & _ & cr & Hcr & Hlcr & E3 & E4).
  exists cm, cr. unfold header. rewrite <- E1, <- E2, <- E3, <- E4. auto 10.
Qed.

Lemma main_input_of_valid (fs : file_system) (fresh : nat -> nat -> PrimFloat.float)
    (fm fr fo : string) (max_iters : Z) (rel_error : PrimFloat.float) (n : Z) :
  valid_input fs fm fr n ->
  exists out matrix rhs,
    main_input fs fresh fm fr fo max_iters rel_error
    = Ok (out, inr (matrix, rhs, n, n, n)).
Proof.
  intros (cm & cr & Hcm & Hcr & Hlcm & Hlcr & Hhm & Hhr).
  unfold header in Hhm, Hhr. injection Hhm as E1 E2. injection Hhr as E3 E4.
  unfold main_input. rewrite !read_matrix_from_file_by_file, Hcm, Hcr.
  destruct (Nat.ltb_spec (length cm) 16); [lia|].
  destruct (Nat.ltb_spec (length cr) 16); [lia|].
  cbv zeta. rewrite !bind_Ok. cbv beta iota zeta.
  rewrite E1, E2, E3, E4, !Z.eqb_refl. cbn [negb].
  do 3 eexists. reflexivity.
Qed.

Lemma counts_fit_int (n : Z) :
  0 <= n -> n * n <= INT_MAX ->
  negb ((size_t_mul n n <=? INT_MAX) && (n <=? INT_MAX)) = false
  /\ size_t_mul n n = n * n.
Proof.
  intros H0 Hn. unfold INT_MAX in *.
  assert (E : size_t_mul n n = n * n).
  { unfold size_t_mul. apply Z.mod_small.
    change (2 ^ 64) with 18446744073709551616. nia. }
  split; [|exact E]. rewrite E.
  destruct (Z.leb_spec (n * n) 2147483647); [|lia].
  destruct (Z.leb_spec n 2147483647); [reflexivity|nia].
Qed.

Lemma heap_ok_main (matrix rhs : list PrimFloat.float)
    (fresh : nat -> nat -> PrimFloat.float) (n : Z) :
  0 <= n -> n * n <= INT_MAX ->
  length matrix = Z.to_nat (size_t_mul n n) -> length rhs = Z.to_nat n ->
  heap_ok (Z.to_nat n)
    (mkHeap matrix rhs (new_double_array (fresh 4%nat) (Z.to_nat n))
       (new_double_array (fresh 5%nat) (Z.to_nat n))
       (new_double_array (fresh 6%nat) (Z.to_nat n))
       (new_double_array (fresh 7%nat) (Z.to_nat n))).
Proof.
  intros H0 Hn Hm Hr. unfold heap_ok. cbn [cellA cellb cellx cellr cellp cellAp].
  rewrite !length_new_double_array. repeat split; try assumption.
  rewrite Hm. destruct (counts_fit_int n H0 Hn) as (_ & ->).
  apply Z2Nat.inj_mul; lia.
Qed.

(** The run of [main] once the input is accepted. *)
Lemma main_after_input (size_mpi rank : nat) (argv : list string) (fs : file_system)
    (fresh : nat -> nat -> PrimFloat.float) (finish : Z)
    (fm fr fo : string) (max_iters : Z) (rel_error : PrimFloat.float)
    out matrix rhs mr mc size :
  command_line atoi atof argv = (fm, fr, fo, max_iters, rel_error) ->
  main_input fs fresh fm fr fo max_iters rel_error
  = Ok (out, inr (matrix, rhs, mr, mc, size)) ->
  main atoi atof size_mpi rank argv fs fresh finish
  = (let n := Z.to_nat size in
     if negb ((size_t_mul size size <=? INT_MAX) && (size <=? INT_MAX)) then Undefined else
     res ← conjugate_gradients size_mpi rank
             (mkHeap matrix rhs (new_double_array (fresh 4%nat) n)
                (new_double_array (fresh 5%nat) n) (new_double_array (fresh 6%nat) n)
                (new_double_array (fresh 7%nat) n))
             n max_iters rel_error;
     if (rank =? 0)%nat then
       let out := out ++ match res_stdout res with
                         | Some m => [message_output m]
                         | None => []
                         end
                      ++ [cout_cpu_time (finish - 0);
                          printf "\n\nWriting solution to file ...\n" []] in
       '(out_write, success_write_sol, fs') ←
         write_matrix_to_file fs fo (cellx (res_heap res)) size 1;
       if success_write_sol : bool then
         Ok (mkMain (Exit 0)
               ((out ++ out_write)
                ++ [printf "\nDone\n" []; printf "Finished successfully\n" []]) fs')
       else
         Ok (mkMain (Exit 6)
               ((out ++ out_write) ++ [fprintf stderr "Failed to save solution\n" []]) fs')
     else Ok (mkMain (Exit 0) [] fs)).
Proof.
  intros Hcl Hin. unfold main. rewrite Hcl, Hin. ok_step.
  destruct (main_input_cases _ _ _ _ _ _ _ _ _ Hin)
    as (-> & -> & Hs & Hm & Hr & Hlm & Hlr).
  rewrite (MPI_Bcast_whole rank matrix).
  2:{ exact Hlm. }
  2:{ destruct (rank =? 0)%nat; [reflexivity|].
      rewrite length_new_double_array. congruence. }
  2:{ intros ->. reflexivity. }
  destruct (size_t_mul size size <=? INT_MAX); [|reflexivity]. ok_step.
  rewrite (MPI_Bcast_whole rank rhs).
  2:{ exact Hlr. }
  2:{ destruct (rank =? 0)%nat; [reflexivity|].
      rewrite length_new_double_array. congruence. }
  2:{ intros ->. reflexivity. }
  destruct (size <=? INT_MAX); [|reflexivity]. ok_step. reflexivity.
Qed.

End MainFacts.

(** [main] on scenario S1, on rank 0 of one participant. *)
Remark main_S1 :
  main atoi0 atof0 1 0 ["cg"%string] fs_S1 fresh7 12345 = Ok main_result_S1.
Proof. vm_compute. reflexivity. Qed.

(** In binary64 [gemv] and [gemvP] round differently: with [alpha = 0.1]
    on [A = [[3]]], [x = [3]], the one computes [(0.1 * 3) * 3] and the
    other [0.1 * (3 * 3)]. *)
Remark gemv_gemvP_binary64 :
  match gemv tenth ptrA ptrb f0 ptrx 1 1 heap64_G1,
        gemvP 1 tenth ptrA ptrb f0 ptrx 1 1 heap64_G1 with
  | Ok h1, Ok h2 => PrimFloat.eqb (cellx h1 !!! 0) (cellx h2 !!! 0)
  | _, _ => true
  end = false.
Proof. vm_compute. reflexivity. Qed.

(* ===================================================================== *)
(** * Further properties *)

(** ** The solver *)

Section SolverProperties.
Context {F : Type} {SF : Scalar F}.
Implicit Types (h : heap F).

(** X1 (the solver, lines 143-188).  On arrays of the sizes of [main],
    with [size] a multiple of the number of participants, and for every
    [max_iters] below [INT_MAX], negative ones included, the solver
    returns, in either arithmetic, and the loop stops in the first
    iteration that takes the [break].  Either [num_iters <= max_iters]:
    the [num_iters - 1] runs of the body before did not take the
    [break], run number [num_iters] took it, with
    [sqrt(rr / bb) < rel_error], the memory at the return is what that
    run left, and rank 0 reports convergence in [num_iters] iterations.
    Or [num_iters = max(1, max_iters + 1)]: the body was run [max_iters]
    times (not at all when [max_iters <= 0]) and no run took the
    [break], the memory at the return is what the last run left, and
    rank 0 reports no convergence in [max_iters] iterations.  Only rank
    0 prints. *)
Theorem conjugate_gradients_returns (size_mpi k rank : nat) h
    (max_iters : Z) (rel_error : F) :
  0 < size_mpi -> heap_ok (size_mpi * k) h -> (max_iters < INT_MAX)%Z ->
  exists res h0 bb rr,
    conjugate_gradients size_mpi rank h (size_mpi * k) max_iters rel_error = Ok res
    /\ cg_init (size_mpi * k) h = Ok h0
    /\ dotP size_mpi ptrb ptrb (size_mpi * k) h0 = Ok bb
    /\ heap_ok (size_mpi * k) (res_heap res)
    /\ (1 <= res_num_iters res <= Z.max 1 (max_iters + 1))%Z
    /\ (rank <> 0 -> res_stdout res = None)
    /\ ((res_num_iters res <= max_iters)%Z
        /\ (exists h1 rr1,
              cg_no_break size_mpi (size_mpi * k) bb rel_error
                (Z.to_nat (res_num_iters res - 1)) h0 bb h1 rr1
              /\ cg_body size_mpi (size_mpi * k) bb rel_error h1 rr1
                 = Ok (true, res_heap res, rr))
        /\ (fsqrt (rr / bb) <? rel_error)%sc = true
        /\ (rank = 0 ->
            res_stdout res
            = Some (Converged (res_num_iters res) (fsqrt (rr / bb)%sc)))
        \/ res_num_iters res = Z.max 1 (max_iters + 1)
           /\ cg_no_break size_mpi (size_mpi * k) bb rel_error
                (Z.to_nat max_iters) h0 bb (res_heap res) rr
           /\ ((1 <= max_iters)%Z -> (fsqrt (rr / bb) <? rel_error)%sc = false)
           /\ (rank = 0 ->
               res_stdout res
               = Some (DidNotConverge max_iters (fsqrt (rr / bb)%sc)))).
Proof.
  intros HP Hok Hmax. unfold conjugate_gradients.
  rewrite cg_init_spec by assumption. ok_step.
  pose proof (cg_init_ok _ _ Hok) as Hok0.
  assert (Hbb : dotP size_mpi ptrb ptrb (size_mpi * k) (cg_init_val (size_mpi * k) h)
                = Ok (vdotP size_mpi (sel (cg_init_val (size_mpi * k) h) ptrb)
                        (sel (cg_init_val (size_mpi * k) h) ptrb) (size_mpi * k))).
  { apply dotP_spec; [assumption| |]; destruct Hok0 as (_ & Hb & _); cbn [sel]; lia. }
  rewrite Hbb. ok_step.
  set (h0 := cg_init_val (size_mpi * k) h) in *.
  set (bb := vdotP size_mpi (sel h0 ptrb) (sel h0 ptrb) (size_mpi * k)) in *.
  destruct (cg_loop_first_break size_mpi k max_iters bb rel_error HP Hmax
              (Z.to_nat max_iters) 1%Z h0 bb Hok0 ltac:(lia))
    as (n' & h' & rr' & Hrun & Hok' & Hcase).
  rewrite Hrun. ok_step. exists (mkResult h' n'
    (if rank =? 0
     then Some (if (n' <=? max_iters)%Z then Converged n' (fsqrt (rr' / bb)%sc)
                else DidNotConverge max_iters (fsqrt (rr' / bb)%sc))
     else None)), h0, bb, rr'.
  split; [reflexivity|]. split; [reflexivity|]. split; [exact Hbb|].
  cbn [res_heap res_num_iters res_stdout]. split; [assumption|].
  split; [destruct Hcase as [(Hn & _)|(Hn & _)]; lia|].
  split.
  { intros Hr. destruct (Nat.eqb_spec rank 0); [contradiction|reflexivity]. }
  destruct Hcase as [(Hn & Htrace & Hconv)|(Hn & Htrace & Hno)].
  - left. split; [lia|]. split; [exact Htrace|]. split; [assumption|].
    intros ->. cbn [Nat.eqb]. destruct (Z.leb_spec n' max_iters); [reflexivity|lia].
  - right. split; [lia|]. split.
    + replace (Z.to_nat max_iters) with (Z.to_nat (max_iters + 1 - 1)) by lia.
      exact Htrace.
    + split; [intros; apply Hno; lia|].
      intros ->. cbn [Nat.eqb]. destruct (Z.leb_spec n' max_iters); [lia|reflexivity].
Qed.

(** X2 (the solver, lines 163-164, with gemvP, lines 102-117).  On arrays
    of the sizes of [main], when [size] is not a multiple of the number
    of participants: with [max_iters >= 1] the first [gemvP] writes past
    the end of [local_y] on the last rank, and the run of the solver has
    no result; with [max_iters <= 0] no [gemvP] is called and the solver
    returns with [x] the zero vector. *)
Theorem conjugate_gradients_needs_multiple (size_mpi size rank : nat) h
    (max_iters : Z) (rel_error : F) :
  0 < size_mpi -> size mod size_mpi <> 0 -> heap_ok size h ->
  ((1 <= max_iters)%Z ->
   conjugate_gradients size_mpi rank h size max_iters rel_error = Undefined)
  /\ ((max_iters <= 0)%Z ->
      exists res,
        conjugate_gradients size_mpi rank h size max_iters rel_error = Ok res
        /\ cellx (res_heap res) = replicate size f0
        /\ res_num_iters res = 1%Z).
Proof.
  intros HP Hmod Hok. split; intros Hmax.
  - apply conjugate_gradients_not_multiple; assumption.
  - pose proof (cg_init_ok _ _ Hok) as Hok0.
    pose proof Hok0 as (HA & Hb & Hx & Hr & Hp & HAp).
    unfold conjugate_gradients.
    rewrite cg_init_spec by assumption. ok_step.
    rewrite dotP_spec by (cbn [sel]; lia). ok_step.
    assert (Hloop : forall fuel bb rr,
               cg_loop fuel size_mpi size max_iters bb rel_error 1
                 (cg_init_val size h) rr = Ok (1%Z, cg_init_val size h, rr)).
    { intros [|fuel] bb rr; cbn [cg_loop];
        destruct (Z.leb_spec 1 max_iters); try lia; reflexivity. }
    rewrite Hloop. ok_step. eexists. split; [reflexivity|]. split; reflexivity.
Qed.

End SolverProperties.

Lemma conjugate_gradients_returns_witness :
  exists res h0 bb rr,
    conjugate_gradients 2 0 heap64_S2 (2 * 1) 10 tol_1e9 = Ok res
    /\ cg_init (2 * 1) heap64_S2 = Ok h0
    /\ dotP 2 ptrb ptrb (2 * 1) h0 = Ok bb
    /\ heap_ok (2 * 1) (res_heap res)
    /\ (1 <= res_num_iters res <= Z.max 1 (10 + 1))%Z
    /\ (0 <> 0 -> res_stdout res = None)
    /\ ((res_num_iters res <= 10)%Z
        /\ (exists h1 rr1,
              cg_no_break 2 (2 * 1) bb tol_1e9
                (Z.to_nat (res_num_iters res - 1)) h0 bb h1 rr1
              /\ cg_body 2 (2 * 1) bb tol_1e9 h1 rr1
                 = Ok (true, res_heap res, rr))
        /\ (fsqrt (rr / bb) <? tol_1e9)%sc = true
        /\ (0 = 0 ->
            res_stdout res
            = Some (Converged (res_num_iters res) (fsqrt (rr / bb)%sc)))
        \/ res_num_iters res = Z.max 1 (10 + 1)
           /\ cg_no_break 2 (2 * 1) bb tol_1e9
                (Z.to_nat 10) h0 bb (res_heap res) rr
           /\ ((1 <= 10)%Z -> (fsqrt (rr / bb) <? tol_1e9)%sc = false)
           /\ (0 = 0 ->
               res_stdout res
               = Some (DidNotConverge 10 (fsqrt (rr / bb)%sc)))).
Proof.
  apply (conjugate_gradients_returns 2 1 0 heap64_S2 10 tol_1e9);
    [lia | repeat split | unfold INT_MAX; lia].
Defined.

Lemma conjugate_gradients_needs_multiple_witness :
  ((1 <= 10)%Z -> conjugate_gradients 2 0 heap64_N3 3 10 tol_1e9 = Undefined)
  /\ ((10 <= 0)%Z ->
      exists res,
        conjugate_gradients 2 0 heap64_N3 3 10 tol_1e9 = Ok res
        /\ cellx (res_heap res) = replicate 3 f0
        /\ res_num_iters res = 1%Z).
Proof.
  apply (conjugate_gradients_needs_multiple 2 3 0 heap64_N3 10 tol_1e9);
    [lia | cbn; lia | repeat split].
Defined.

Section ExactProperties.
Local Open Scope R_scope.
Implicit Types (h : heap R).

(** X3 (the solver, lines 153-187).  In exact arithmetic, on arrays of the
    sizes of [main] and with [N] a multiple of the number of
    participants: the array [r] that the loop updates by
    [r = r - alpha * Ap] is the residual [b - A x] of the [x] returned,
    for every matrix and every number of iterations, and the relative
    error that rank 0 prints is [sqrt((b - A x).(b - A x) / b.b)]. *)
Theorem cg_residual (size_mpi k rank : nat) h (max_iters : Z) (rel_tol : R) :
  (0 < size_mpi)%nat -> heap_ok (size_mpi * k) h -> (max_iters < INT_MAX)%Z ->
  exists res,
    conjugate_gradients size_mpi rank h (size_mpi * k) max_iters rel_tol = Ok res
    /\ let r := vsub (cellb h)
                  (matvec (size_mpi * k) (cellA h) (cellx (res_heap res))) in
       cellr (res_heap res) = r
       /\ res_stdout res
          = if rank =? 0
            then Some ((if (res_num_iters res <=? max_iters)%Z
                        then Converged (res_num_iters res)
                        else DidNotConverge max_iters)
                         (sqrt (inner r r / inner (cellb h) (cellb h))))
            else None.
Proof.
  intros HP Hok Hmax. unfold conjugate_gradients.
  rewrite cg_init_spec by assumption. ok_step.
  pose proof (cg_init_ok _ _ Hok) as Hok0.
  pose proof Hok as (HA & Hb & Hx & Hr & Hp & HAp).
  rewrite dotP_spec by (cbn [sel cg_init_val cellb]; lia). ok_step.
  cbn [sel cg_init_val cellb]. rewrite (vdotP_inner _ _ _ _ HP Hb Hb).
  set (N := (size_mpi * k)%nat) in *.
  set (bb := inner (cellb h) (cellb h)).
  set (h0 := cg_init_val N h) in *.
  destruct (cg_loop_runs size_mpi k max_iters bb rel_tol HP Hmax
              (Z.to_nat max_iters) 1%Z h0 bb Hok0 ltac:(lia))
    as (n' & h' & rr' & Hrun & Hok' & _).
  fold N in Hrun. rewrite Hrun. ok_step.
  set (Inv := fun (h1 : heap R) (rr1 : R) =>
                cellA h1 = cellA h /\ cellb h1 = cellb h
                /\ cellr h1 = vsub (cellb h) (matvec N (cellA h) (cellx h1))
                /\ rr1 = inner (cellr h1) (cellr h1)).
  assert (Hstep : forall h1 rr1, heap_ok N h1 -> Inv h1 rr1 ->
            let '(_, h2, rr2) := cg_body_val size_mpi N bb rel_tol h1 rr1 in
            Inv h2 rr2).
  { intros h1 rr1 Hok1 (EA & Eb & Er & Err).
    rewrite cg_body_val_exact by assumption.
    pose proof Hok1 as (HA1 & Hb1 & Hx1 & Hr1 & Hp1 & HAp1).
    unfold spec_iteration.
    set (alpha := rr1 / inner (cellp h1) (matvec N (cellA h1) (cellp h1))).
    assert (Hnew : vsub (cellr h1) (vscale alpha (matvec N (cellA h1) (cellp h1)))
                   = vsub (cellb h)
                       (matvec N (cellA h) (vadd (cellx h1) (vscale alpha (cellp h1))))).
    { rewrite Er, vsub_vsub, matvec_linear, EA by congruence. reflexivity. }
    destruct (Rlt_dec _ _); unfold Inv; cbn [cellA cellb cellx cellr];
      rewrite Hnew; auto. }
  assert (Hinit : Inv h0 bb).
  { unfold Inv, h0, cg_init_val. cbn [cellA cellb cellx cellr].
    change (@f0 R exact) with 0. rewrite matvec_zero.
    pose proof (vsub_zero (cellb h)) as Ez. rewrite Hb in Ez. rewrite Ez. auto. }
  destruct (cg_loop_invariant Inv size_mpi k max_iters bb rel_tol HP Hstep
              _ _ _ _ _ _ _ Hok0 Hinit Hrun) as (EA & Eb & Er & Err).
  eexists. split; [reflexivity|]. cbn [res_heap res_num_iters res_stdout].
  split; [exact Er|]. rewrite <- Er, <- Err.
  destruct (rank =? 0)%nat; [|reflexivity].
  destruct (n' <=? max_iters)%Z; reflexivity.
Qed.

(** X4 (the solver, lines 153-187).  In exact arithmetic, when the
    right-hand side is an eigenvector of the matrix, [A b = lambda b]
    with [lambda <> 0] and [b <> 0], for every [rel_tol > 0] and
    [max_iters >= 1]: the first iteration has [alpha = 1 / lambda], and
    the solver returns in it with [x = b / lambda], the residual zero,
    and rank 0 reporting convergence in 1 iteration with relative
    error 0. *)
Theorem cg_eigenvector (size_mpi k rank : nat) h (max_iters : Z) (rel_tol lambda : R) :
  (0 < size_mpi)%nat -> heap_ok (size_mpi * k) h ->
  matvec (size_mpi * k) (cellA h) (cellb h) = vscale lambda (cellb h) ->
  lambda <> 0 ->
  cellb h <> replicate (size_mpi * k) 0 ->
  0 < rel_tol -> (1 <= max_iters)%Z ->
  conjugate_gradients size_mpi rank h (size_mpi * k) max_iters rel_tol
  = Ok (mkResult
          (mkHeap (cellA h) (cellb h) (vscale (/ lambda) (cellb h))
             (replicate (size_mpi * k) 0) (cellb h) (vscale lambda (cellb h)))
          1
          (if rank =? 0 then Some (Converged 1 0) else None)).
Proof.
  intros HP Hok Heig Hl Hnz Htol Hmax.
  pose proof Hok as (_ & Hb & _).
  assert (Hbb : 0 < inner (cellb h) (cellb h)).
  { apply nonzero_inner_pos. rewrite Hb. exact Hnz. }
  unfold conjugate_gradients.
  rewrite cg_init_spec by assumption. ok_step.
  pose proof (cg_init_ok _ _ Hok) as Hok0.
  rewrite dotP_spec by (cbn [sel cg_init_val cellb]; lia). ok_step.
  cbn [sel cg_init_val cellb].
  rewrite (vdotP_inner _ _ _ _ HP Hb Hb).
  set (bb := inner (cellb h) (cellb h)) in *.
  destruct (Z.to_nat max_iters) as [|fuel] eqn:Efuel; [lia|].
  cbn [cg_loop]. destruct (Z.leb_spec 1 max_iters); [|lia].
  rewrite cg_body_spec, cg_body_val_exact by assumption. ok_step.
  unfold spec_iteration, cg_init_val. cbn [cellA cellb cellx cellr cellp cellAp].
  rewrite Heig, inner_vscale_r. fold bb.
  replace (bb / (lambda * bb)) with (/ lambda) by (field; lra).
  pose proof (vadd_zero_l (vscale (/ lambda) (cellb h))) as E1.
  pose proof (vsub_self_scaled (cellb h) (/ lambda) lambda ltac:(field; lra)) as E2.
  rewrite length_vscale, Hb in E1. rewrite Hb in E2.
  change (@f0 R exact) with 0.
  rewrite E1, E2, inner_zero.
  replace (0 / bb) with 0 by (field; lra).
  rewrite sqrt_0.
  destruct (Rlt_dec 0 rel_tol) as [_|Hn]; [|contradiction].
  ok_step. cbn [res_heap].
  destruct (Z.leb_spec 1 max_iters); [|lia].
  change (fsqrt (0 / bb)%sc) with (sqrt (0 / bb)).
  replace (0 / bb) with 0 by (field; lra). rewrite sqrt_0. reflexivity.
Qed.

(** X9 (gemv, lines 86-95, against gemvP, lines 97-120).  In exact
    arithmetic, for [y] an array other than [A] and [x], and [N] a
    multiple of the number of participants: the serial [gemv], which
    adds up [alpha * A[r,c] * x[c]], and the distributed [gemvP], which
    multiplies the sum of [A[r,c] * x[c]] by [alpha], leave the same
    memory, with [y = alpha * A x + beta * y_old]. *)
Theorem gemv_gemvP_exact (size_mpi k : nat) (alpha beta : R) (A x y : ptr) h :
  (0 < size_mpi)%nat -> A <> y -> x <> y ->
  length (sel h A) = (size_mpi * k * (size_mpi * k))%nat ->
  length (sel h x) = (size_mpi * k)%nat ->
  length (sel h y) = (size_mpi * k)%nat ->
  gemv alpha A x beta y (size_mpi * k) (size_mpi * k) h
  = gemvP size_mpi alpha A x beta y (size_mpi * k) (size_mpi * k) h
  /\ gemv alpha A x beta y (size_mpi * k) (size_mpi * k) h
     = Ok (upd h y (zip_with (fun ax yi => alpha * ax + beta * yi)
                      (matvec (size_mpi * k) (sel h A) (sel h x)) (sel h y))).
Proof.
  intros HP HAy Hxy HA Hx Hy.
  assert (Hg : gemv alpha A x beta y (size_mpi * k) (size_mpi * k) h
               = Ok (upd h y (vgemv alpha (sel h A) (sel h x) beta (sel h y)
                                (size_mpi * k) (size_mpi * k)))).
  { rewrite gemv_spec by (try assumption; lia). do 2 f_equal.
    rewrite drop_ge, app_nil_r by lia. unfold vgemv.
    apply map_ext. intros r. apply gemv_serial_row_exact. }
  split.
  - rewrite Hg, gemvP_spec by lia. reflexivity.
  - rewrite Hg, vgemv_exact by assumption. reflexivity.
Qed.

End ExactProperties.

Lemma cg_residual_witness :
  exists res,
    conjugate_gradients 2 0 heapR_S2 (2 * 1) 10 (1 / 2)%R = Ok res
    /\ let r := vsub (cellb heapR_S2)
                  (matvec (2 * 1) (cellA heapR_S2) (cellx (res_heap res))) in
       cellr (res_heap res) = r
       /\ res_stdout res
          = if 0 =? 0
            then Some ((if (res_num_iters res <=? 10)%Z
                        then Converged (res_num_iters res)
                        else DidNotConverge 10)
                         (sqrt (inner r r / inner (cellb heapR_S2) (cellb heapR_S2))))
            else None.
Proof.
  apply (cg_residual 2 1 0 heapR_S2 10 (1 / 2)%R);
    [lia | repeat split | unfold INT_MAX; lia].
Defined.

Lemma cg_eigenvector_witness :
  conjugate_gradients 2 0 heapR_E2 (2 * 1) 10 (1 / 2)%R
  = Ok (mkResult
          (mkHeap (cellA heapR_E2) (cellb heapR_E2) (vscale (/ 3) (cellb heapR_E2))
             (replicate (2 * 1) 0%R) (cellb heapR_E2) (vscale 3 (cellb heapR_E2)))
          1
          (if 0 =? 0 then Some (Converged 1 0%R) else None)).
Proof.
  apply (cg_eigenvector 2 1 0 heapR_E2 10 (1 / 2)%R 3%R);
    [lia | repeat split | | lra | | lra | lia].
  - cbn. unfold inner. cbn. repeat f_equal; lra.
  - cbn. intros H. inversion H. lra.
Defined.

Lemma gemv_gemvP_exact_witness :
  gemv 2%R ptrA ptrb 3%R ptrx (2 * 1) (2 * 1) heapR_S2
  = gemvP 2 2%R ptrA ptrb 3%R ptrx (2 * 1) (2 * 1) heapR_S2
  /\ gemv 2%R ptrA ptrb 3%R ptrx (2 * 1) (2 * 1) heapR_S2
     = Ok (upd heapR_S2 ptrx
             (zip_with (fun ax yi => (2 * ax + 3 * yi)%R)
                (matvec (2 * 1) (sel heapR_S2 ptrA) (sel heapR_S2 ptrb))
                (sel heapR_S2 ptrx))).
Proof.
  apply (gemv_gemvP_exact 2 1 2%R 3%R ptrA ptrb ptrx heapR_S2);
    [lia | discriminate | discriminate | reflexivity ..].
Defined.





(** ** The serial kernels *)

Section SerialProperties.
Context {F : Type} {SF : Scalar F}.
Implicit Types (h : heap F) (x y : ptr).

(** X6 (dot, lines 64-70).  In either arithmetic, the serial [dot]
    returns exactly when [size] is at most the length of both arrays,
    and its value is then the sum of the products [x[i] * y[i]], added
    in index order from 0.0; with a shorter array it reads past its
    end. *)
Theorem dot_returns_iff x y (size : nat) h :
  (size <= length (sel h x) /\ size <= length (sel h y) ->
   dot x y size h = Ok (vdot (sel h x) (sel h y) size))
  /\ ((exists v, dot x y size h = Ok v)
      <-> size <= length (sel h x) /\ size <= length (sel h y))
  /\ (length (sel h x) < size \/ length (sel h y) < size ->
      dot x y size h = Undefined).
Proof.
  split; [|split; [split|]].
  - intros (Hx & Hy). apply dot_spec; assumption.
  - intros (v & Hrun).
    destruct (Nat.le_gt_cases size (length (sel h x))) as [Hx|Hx];
      [destruct (Nat.le_gt_cases size (length (sel h y))) as [Hy|Hy]|];
      [auto| |]; rewrite dot_undefined in Hrun by lia; discriminate.
  - intros (Hx & Hy). eexists. apply dot_spec; assumption.
  - apply dot_undefined.
Qed.

(** X7 (axpby, lines 72-77, and axpbyP, lines 79-84).  In either
    arithmetic, for [size] at most the length of both arrays, also when
    [x] and [y] are the same array: the serial loop, and the parallel
    loop with its iterations run in any order, leave the same memory;
    only [y] is written, it keeps its length, its first [size] elements
    are [alpha * x[i] + beta * y[i]] of the old values and the others
    are as they were. *)
Theorem axpbyP_any_order (alpha : F) x (beta : F) y (size : nat) h (order : list nat) :
  Permutation order (seq 0 size) ->
  size <= length (sel h x) -> size <= length (sel h y) ->
  exists h',
    axpby alpha x beta y size h = Ok h'
    /\ axpbyP alpha x beta y size h = Ok h'
    /\ for_in_order order (axpby_iteration alpha x beta y) h = Ok h'
    /\ writes_only [y] h h'
    /\ length (sel h' y) = length (sel h y)
    /\ forall i, i < length (sel h y) ->
         sel h' y !!! i
         = if i <? size
           then (alpha * (sel h x !!! i) + beta * (sel h y !!! i))%sc
           else sel h y !!! i.
Proof.
  intros Hperm Hx Hy.
  pose proof (axpby_serial alpha x beta y size h Hx Hy) as Hser.
  eexists. split; [exact Hser|]. split; [exact Hser|].
  split; [apply axpby_in_bounds; assumption|].
  split; [apply writes_only_upd; left; reflexivity|].
  rewrite sel_upd_eq. split; [apply length_axpby_after|].
  intros i Hi. apply axpby_after_seq, Hi.
Qed.

(** X8 (axpby, lines 72-77, and the loop of axpbyP, lines 79-84).  The
    serial loop returns exactly when [size] is at most the length of
    both arrays.  When one of them is shorter, the serial loop, and the
    parallel loop in whatever order its iterations are run, reads or
    writes past the end of it. *)
Theorem axpby_returns_iff (alpha : F) x (beta : F) y (size : nat) h :
  ((exists h', axpby alpha x beta y size h = Ok h')
   <-> size <= length (sel h x) /\ size <= length (sel h y))
  /\ (length (sel h x) < size \/ length (sel h y) < size ->
      axpby alpha x beta y size h = Undefined
      /\ forall order,
           Permutation order (seq 0 size) ->
           for_in_order order (axpby_iteration alpha x beta y) h = Undefined).
Proof.
  split; [split|].
  - intros (h' & Hrun).
    destruct (Nat.le_gt_cases size (length (sel h x))) as [Hx|Hx];
      [destruct (Nat.le_gt_cases size (length (sel h y))) as [Hy|Hy]|];
      [auto| |]; rewrite axpby_undefined in Hrun by lia; discriminate.
  - intros (Hx & Hy).
    eexists. apply axpby_serial; assumption.
  - intros Hlen. split; [apply axpby_undefined, Hlen|].
    intros order Hperm.
    apply (axpby_in_order_undefined alpha x beta y
             (length (sel h x)) (length (sel h y))
             (length (sel h x) `min` length (sel h y)));
      [|lia|reflexivity..].
    rewrite Hperm. apply elem_of_seq. lia.
Qed.

End SerialProperties.

Lemma axpbyP_any_order_witness :
  exists h',
    axpby f1 ptrb f1 ptrx 2 heap64_S2 = Ok h'
    /\ axpbyP f1 ptrb f1 ptrx 2 heap64_S2 = Ok h'
    /\ for_in_order [1; 0] (axpby_iteration f1 ptrb f1 ptrx) heap64_S2 = Ok h'
    /\ writes_only [ptrx] heap64_S2 h'
    /\ length (sel h' ptrx) = length (sel heap64_S2 ptrx)
    /\ forall i, i < length (sel heap64_S2 ptrx) ->
         sel h' ptrx !!! i
         = if i <? 2
           then (f1 * (sel heap64_S2 ptrb !!! i) + f1 * (sel heap64_S2 ptrx !!! i))%sc
           else sel heap64_S2 ptrx !!! i.
Proof.
  apply (axpbyP_any_order f1 ptrb f1 ptrx 2 heap64_S2 [1; 0]);
    [apply Permutation_swap | cbn; lia | cbn; lia].
Defined.

(** ** Files *)

Section FileProperties.
Local Open Scope Z_scope.

(** X10 (write_matrix_to_file, lines 36-50, then read_matrix_from_file,
    lines 11-34).  When the file can be opened for writing and the array
    holds the [num_rows * num_cols] elements (the product taken on
    [size_t]), writing returns [true], and reading the file back returns
    [true] with the same [num_rows] and [num_cols] and the same elements,
    NaN and the infinities included; no other file changes. *)
Theorem write_read_matrix (fs : file_system) (fresh : nat -> PrimFloat.float)
    (filename : string) (matrix : list PrimFloat.float) (num_rows num_cols : Z) :
  fs_writable fs filename = true ->
  0 <= num_rows < 2 ^ 64 -> 0 <= num_cols < 2 ^ 64 ->
  (Z.to_nat (size_t_mul num_rows num_cols) <= length matrix)%nat ->
  exists fs',
    write_matrix_to_file fs filename matrix num_rows num_cols = Ok ([], true, fs')
    /\ read_matrix_from_file fs' fresh filename
       = Ok ([], Some (take (Z.to_nat (size_t_mul num_rows num_cols)) matrix,
                       num_rows, num_cols))
    /\ (forall other, other <> filename ->
          fs_files fs' !! other = fs_files fs !! other)
    /\ fs_writable fs' = fs_writable fs.
Proof.
  intros Hw Hr Hc Hlen.
  eexists. split; [apply write_matrix_to_file_writes; assumption|].
  split; [|split; [|reflexivity]].
  - apply read_matrix_from_file_written; try assumption.
    rewrite length_take. lia.
  - intros other Hne. cbn [fs_files]. apply lookup_insert_ne. congruence.
Qed.

(** X11 (read_matrix_from_file, lines 11-34).  The function returns
    [false], after printing "Cannot open output file" on [stderr],
    exactly when the file does not exist.  With a file of fewer than 16
    bytes the sizes are not read in full and line 24 multiplies
    indeterminate values.  With a longer file whose two sizes have a
    product, on [size_t], of at most [INT_MAX] elements (what [main] can
    broadcast, and what line 24 is taken to allocate), it returns
    [true], with the two sizes of the header and an array of their
    product: the number of bytes that follow the header is not
    checked. *)
Theorem read_matrix_from_file_returns (fs : file_system) (fresh : nat -> PrimFloat.float)
    (filename : string) :
  (fs_files fs !! filename = None
   <-> read_matrix_from_file fs fresh filename
       = Ok ([fprintf stderr "Cannot open output file\n" []], None))
  /\ ((exists contents,
         fs_files fs !! filename = Some contents /\ (length contents < 16)%nat)
      <-> read_matrix_from_file fs fresh filename = Undefined)
  /\ (forall contents,
        fs_files fs !! filename = Some contents -> (16 <= length contents)%nat ->
        size_t_mul (header contents).1 (header contents).2 <= INT_MAX ->
        exists matrix,
          read_matrix_from_file fs fresh filename
          = Ok ([], Some (matrix, (header contents).1, (header contents).2))
          /\ length matrix
             = Z.to_nat (size_t_mul (header contents).1 (header contents).2)).
Proof.
  rewrite read_matrix_from_file_by_file.
  destruct (fs_files fs !! filename) as [contents|] eqn:E.
  - destruct (Nat.ltb_spec (length contents) 16) as [Hlt|Hge].
    + split; [split; discriminate|]. split.
      * split; [reflexivity|]. intros _. exists contents. auto.
      * intros c Hc. inversion Hc; subst. lia.
    + split; [split; discriminate|]. split.
      * split; [|discriminate]. intros (c & Hc & Hlen). inversion Hc; subst. lia.
      * intros c Hc _ _. inversion Hc; subst. eexists. split; [reflexivity|].
        rewrite length_fread_doubles, length_new_double_array. reflexivity.
  - split; [split; reflexivity|]. split.
    + split; [|discriminate]. intros (c & Hc & _). discriminate.
    + intros c Hc. discriminate.
Qed.

(** X12 (read_matrix_from_file, lines 24-25).  Of the array returned, an
    element that the file holds in full is the double of its 8 bytes;
    an element that lies after the end of the file is what the fresh
    array held: a file that is cut short gives an array whose tail is
    not initialised. *)
Theorem read_matrix_from_file_elements (fs : file_system) (fresh : nat -> PrimFloat.float)
    (filename : string) (contents : list Init.Byte.byte)
    (matrix : list PrimFloat.float) (num_rows num_cols : Z) (i : nat) :
  fs_files fs !! filename = Some contents ->
  read_matrix_from_file fs fresh filename = Ok ([], Some (matrix, num_rows, num_cols)) ->
  (i < length matrix)%nat ->
  ((16 + 8 * (i + 1) <= length contents)%nat ->
   matrix !! i = Some (double_of_bytes (take 8 (drop (16 + 8 * i) contents))))
  /\ ((length contents <= 16 + 8 * i)%nat -> matrix !! i = Some (fresh i)).
Proof.
  intros Hfile Hread Hi. rewrite read_matrix_from_file_by_file, Hfile in Hread.
  destruct (Nat.ltb_spec (length contents) 16) as [Hlt|Hge]; [discriminate|].
  cbv zeta in Hread. inversion Hread as [[Hm Hr Hc]]. clear Hread.
  rewrite <- Hm in Hi. rewrite length_fread_doubles, length_new_double_array in Hi.
  split; intros Hlen.
  - rewrite fread_doubles_lookup_read
      by (rewrite ?length_new_double_array, ?length_drop; lia).
    rewrite drop_drop. reflexivity.
  - rewrite fread_doubles_lookup_fresh by (rewrite length_drop; lia).
    apply lookup_new_double_array, Hi.
Qed.

End FileProperties.

Lemma write_read_matrix_witness :
  exists fs',
    write_matrix_to_file fs_S1 "io/sol.bin" [PrimFloat.one; PrimFloat.nan; PrimFloat.infinity] 3 1
    = Ok ([], true, fs')
    /\ read_matrix_from_file fs' (fresh7 0) "io/sol.bin"
       = Ok ([], Some (take (Z.to_nat (size_t_mul 3 1))
                         [PrimFloat.one; PrimFloat.nan; PrimFloat.infinity],
                       3%Z, 1%Z))
    /\ (forall other, other <> "io/sol.bin"%string ->
          fs_files fs' !! other = fs_files fs_S1 !! other)
    /\ fs_writable fs' = fs_writable fs_S1.
Proof.
  apply (write_read_matrix fs_S1 (fresh7 0) "io/sol.bin"
           [PrimFloat.one; PrimFloat.nan; PrimFloat.infinity] 3 1).
  - reflexivity.
  - vm_compute. split; congruence.
  - vm_compute. split; congruence.
  - vm_compute. lia.
Defined.

Lemma read_matrix_from_file_elements_witness :
  ((16 + 8 * (1 + 1) <= length rhs_file_short) ->
   rhs_read_short !! 1
   = Some (double_of_bytes (take 8 (drop (16 + 8 * 1) rhs_file_short))))
  /\ (length rhs_file_short <= 16 + 8 * 1 ->
      rhs_read_short !! 1 = Some (fresh7 1 1)).
Proof.
  apply (read_matrix_from_file_elements fs_short (fresh7 1) "io/rhs.bin" rhs_file_short
           rhs_read_short 2 1 1).
  - vm_compute. reflexivity.
  - vm_compute. reflexivity.
  - cbn. lia.
Defined.

(** ** The driver *)

Section MainProperties.
Local Open Scope Z_scope.
Variable atoi : string -> Z.
Variable atof : string -> PrimFloat.float.

(** X13 (main on rank 0, lines 217-300).  When [main] returns on rank 0,
    the value returned tells the input: 1 when the matrix file does not
    exist; 2 when the right-hand-side file does not; 3 when the matrix
    is not square; 4 when the right-hand side has another number of rows
    than the matrix; 5 when it has not one column; in these cases no
    file is written.  Otherwise the headers are those of an [n * n]
    matrix and an [n * 1] right-hand side, and the value is 6 when the
    solution file cannot be opened, with no file written, and 0 when it
    can. *)
Theorem main_exit_codes (size_mpi : nat) (argv : list string) (fs : file_system)
    (fresh : nat -> nat -> PrimFloat.float) (finish : Z)
    (fm fr fo : string) (max_iters : Z) (rel_error : PrimFloat.float) res :
  command_line atoi atof argv = (fm, fr, fo, max_iters, rel_error) ->
  main atoi atof size_mpi 0 argv fs fresh finish = Ok res ->
  exists code,
    main_status res = Exit code
    /\ ((input_error fs fm fr code /\ main_files res = fs)
        \/ ((exists n, valid_input fs fm fr n)
            /\ ((code = 6 /\ fs_writable fs fo = false /\ main_files res = fs)
                \/ (code = 0 /\ fs_writable fs fo = true)))).
Proof.
  intros Hcl Hrun.
  destruct (main_input fs fresh fm fr fo max_iters rel_error)
    as [[out [code|[[[[matrix rhs] mr] mc] size]]]| |] eqn:Hin;
    try (unfold main in Hrun; rewrite Hcl, Hin in Hrun; discriminate).
  - unfold main in Hrun. rewrite Hcl, Hin in Hrun. rewrite bind_Ok in Hrun.
    cbn [Nat.eqb] in Hrun. inversion Hrun; subst res. cbn [main_status main_files].
    exists code. split; [reflexivity|]. left. split; [|reflexivity].
    exact (main_input_cases _ _ _ _ _ _ _ _ _ Hin).
  - erewrite main_after_input in Hrun by eassumption.
    cbv zeta in Hrun. destruct (negb _); [discriminate|].
    ok_inv Hrun. cbn [Nat.eqb] in Hrun. ok_inv Hrun.
    destruct v0 as [[ow ok] fs'].
    assert (Hvalid : exists n, valid_input fs fm fr n)
      by (exists size; eapply main_input_valid; eassumption).
    destruct ok; inversion Hrun; subst res; cbn [main_status main_files].
    + exists 0. split; [reflexivity|]. right. split; [assumption|]. right.
      split; [reflexivity|]. eapply write_matrix_to_file_true; eassumption.
    + exists 6. split; [reflexivity|]. right. split; [assumption|]. left.
      destruct (write_matrix_to_file_false _ _ _ _ _ _ _ Hv0) as (Hw & -> & _). auto.
Qed.

(** X14 (main on rank 0, lines 217-300).  When [main] returns 0 on rank
    0, the file [output_file_sol] holds the solution: read back by
    [read_matrix_from_file] it is the [size * 1] matrix of the [x] that
    [conjugate_gradients] returns on the matrix and the right-hand side
    read from the two input files; every other file is as it was. *)
Theorem main_writes_solution (size_mpi : nat) (argv : list string) (fs : file_system)
    (fresh : nat -> nat -> PrimFloat.float) (finish : Z)
    (fm fr fo : string) (max_iters : Z) (rel_error : PrimFloat.float) res :
  command_line atoi atof argv = (fm, fr, fo, max_iters, rel_error) ->
  main atoi atof size_mpi 0 argv fs fresh finish = Ok res ->
  main_status res = Exit 0 ->
  exists (size : Z) matrix rhs sres,
    read_matrix_from_file fs (fresh 0%nat) fm = Ok ([], Some (matrix, size, size))
    /\ read_matrix_from_file fs (fresh 1%nat) fr = Ok ([], Some (rhs, size, 1))
    /\ conjugate_gradients size_mpi 0
         (mkHeap matrix rhs
            (new_double_array (fresh 4%nat) (Z.to_nat size))
            (new_double_array (fresh 5%nat) (Z.to_nat size))
            (new_double_array (fresh 6%nat) (Z.to_nat size))
            (new_double_array (fresh 7%nat) (Z.to_nat size)))
         (Z.to_nat size) max_iters rel_error = Ok sres
    /\ (forall fresh',
          read_matrix_from_file (main_files res) fresh' fo
          = Ok ([], Some (cellx (res_heap sres), size, 1)))
    /\ (forall other, other <> fo ->
          fs_files (main_files res) !! other = fs_files fs !! other).
Proof.
  intros Hcl Hrun Hstatus.
  destruct (main_input fs fresh fm fr fo max_iters rel_error)
    as [[out [code|[[[[matrix rhs] mr] mc] size]]]| |] eqn:Hin;
    try (unfold main in Hrun; rewrite Hcl, Hin in Hrun; discriminate).
  - exfalso. pose proof (main_input_cases _ _ _ _ _ _ _ _ _ Hin) as Hc.
    unfold main in Hrun. rewrite Hcl, Hin in Hrun. rewrite bind_Ok in Hrun.
    cbn [Nat.eqb] in Hrun. inversion Hrun; subst res. cbn [main_status] in Hstatus.
    inversion Hstatus; subst code.
    destruct Hc as [(Hc & _)|[(Hc & _)|(cm & cr & _ & _ & _ & _ & Hc)]];
      [lia|lia|]. destruct Hc as [(Hc & _)|[(Hc & _)|(Hc & _)]]; lia.
  - erewrite main_after_input in Hrun by eassumption.
    destruct (main_input_cases _ _ _ _ _ _ _ _ _ Hin)
      as (-> & -> & Hs & Hm & Hr & Hlm & Hlr).
    cbv zeta in Hrun. destruct (negb _); [discriminate|].
    ok_inv Hrun. rename v into sres. cbn [Nat.eqb] in Hrun.
    ok_inv Hrun. destruct v as [[ow ok] fs'].
    destruct ok; inversion Hrun; subst res; cbn [main_status main_files] in *;
      [|discriminate].
    destruct (write_matrix_to_file_true _ _ _ _ _ _ _ Hv0) as (Hw & Hn).
    assert (Hlx : length (cellx (res_heap sres)) = Z.to_nat size).
    { rewrite (conjugate_gradients_length_x _ _ _ _ _ _ _ Hv). cbn [cellx].
      apply length_new_double_array. }
    exists size, matrix, rhs, sres. repeat (split; [assumption|]).
    rewrite write_matrix_to_file_writes in Hv0 by assumption.
    injection Hv0 as <- <-. split.
    + intros fresh'. rewrite size_t_mul_1_r, take_ge by lia.
      apply read_matrix_from_file_written; [assumption|lia|].
      rewrite size_t_mul_1_r by assumption. exact Hlx.
    + intros other Hne. cbn [fs_files]. apply lookup_insert_ne. congruence.
Qed.

(** X15 (main on rank 0, lines 190-300).  When the two input files have
    the headers of an [n * n] matrix and an [n * 1] right-hand side,
    with [n * n] at most [INT_MAX], so that the counts of the two
    [MPI_Bcast] of lines 277-278 fit their [int] parameter, and [n] a
    multiple of the number of participants, [max_iters] is below
    [INT_MAX] and the solution file can be opened: [main] returns 0 on
    rank 0, whatever the input files hold after their headers, and the
    solution file has the header [(n, 1)] and [16 + 8 n] bytes. *)
Theorem main_succeeds (size_mpi k : nat) (argv : list string) (fs : file_system)
    (fresh : nat -> nat -> PrimFloat.float) (finish : Z)
    (fm fr fo : string) (max_iters : Z) (rel_error : PrimFloat.float) (n : Z) :
  command_line atoi atof argv = (fm, fr, fo, max_iters, rel_error) ->
  valid_input fs fm fr n ->
  (0 < size_mpi)%nat -> n * n <= INT_MAX -> Z.to_nat n = (size_mpi * k)%nat ->
  max_iters < INT_MAX ->
  fs_writable fs fo = true ->
  exists res,
    main atoi atof size_mpi 0 argv fs fresh finish = Ok res
    /\ main_status res = Exit 0
    /\ exists contents,
         fs_files (main_files res) !! fo = Some contents
         /\ length contents = (16 + 8 * Z.to_nat n)%nat
         /\ header contents = (n, 1).
Proof.
  intros Hcl Hvalid HP Hn Hk Hmax Hw.
  destruct (main_input_of_valid fs fresh fm fr fo max_iters rel_error n Hvalid)
    as (out & matrix & rhs & Hin).
  erewrite main_after_input by eassumption. cbv zeta.
  destruct (main_input_cases _ _ _ _ _ _ _ _ _ Hin)
    as (_ & _ & Hs & Hm & Hr & Hlm & Hlr).
  destruct (counts_fit_int n ltac:(lia) Hn) as (-> & _).
  pose proof (heap_ok_main matrix rhs fresh n ltac:(lia) Hn Hlm Hlr) as Hok.
  rewrite Hk in *.
  destruct (conjugate_gradients_total size_mpi k 0 _ max_iters rel_error HP Hok Hmax)
    as (sres & Hrun & Hok').
  rewrite Hrun. ok_step. cbn [Nat.eqb].
  unfold write_matrix_to_file. rewrite Hw.
  rewrite size_t_mul_1_r by assumption.
  destruct Hok' as (_ & _ & Hx & _).
  destruct (Nat.leb_spec (Z.to_nat n) (length (cellx (res_heap sres)))); [|lia].
  ok_step. eexists. split; [reflexivity|]. cbn [main_status main_files fs_files].
  split; [reflexivity|]. eexists. split; [apply lookup_insert_eq|]. split.
  - rewrite !length_app, !length_bytes_of_size_t.
    rewrite length_doubles_bytes, length_take. lia.
  - unfold header.
    rewrite (take_app_length' _ _ 8) by (symmetry; apply length_bytes_of_size_t).
    rewrite (drop_app_length' _ _ 8) by (symmetry; apply length_bytes_of_size_t).
    rewrite (take_app_length' _ _ 8) by (symmetry; apply length_bytes_of_size_t).
    rewrite !size_t_of_bytes_of_size_t by lia. reflexivity.
Qed.

(** X16 (main, lines 249-282).  [main] does not compare the size of the
    system with the number of participants: on input that it accepts,
    with [n * n] at most [INT_MAX], [n] not a multiple of the number of
    participants and [max_iters >= 1], the run has no result on any
    rank, by the write past the end of [local_y] in [gemvP]. *)
Theorem main_needs_multiple (size_mpi rank : nat) (argv : list string)
    (fs : file_system) (fresh : nat -> nat -> PrimFloat.float) (finish : Z)
    (fm fr fo : string) (max_iters : Z) (rel_error : PrimFloat.float) (n : Z) :
  command_line atoi atof argv = (fm, fr, fo, max_iters, rel_error) ->
  valid_input fs fm fr n ->
  (0 < size_mpi)%nat -> n * n <= INT_MAX -> (Z.to_nat n mod size_mpi <> 0)%nat ->
  1 <= max_iters ->
  main atoi atof size_mpi rank argv fs fresh finish = Undefined.
Proof.
  intros Hcl Hvalid HP Hn Hmod Hmax.
  destruct (main_input_of_valid fs fresh fm fr fo max_iters rel_error n Hvalid)
    as (out & matrix & rhs & Hin).
  erewrite main_after_input by eassumption. cbv zeta.
  destruct (main_input_cases _ _ _ _ _ _ _ _ _ Hin)
    as (_ & _ & Hs & Hm & Hr & Hlm & Hlr).
  destruct (counts_fit_int n ltac:(lia) Hn) as (-> & _).
  pose proof (heap_ok_main matrix rhs fresh n ltac:(lia) Hn Hlm Hlr) as Hok.
  rewrite (conjugate_gradients_not_multiple size_mpi (Z.to_nat n) rank _
             max_iters rel_error HP Hmod Hok Hmax).
  reflexivity.
Qed.

End MainProperties.

Lemma main_exit_codes_witness :
  exists code,
    main_status main_result_S1 = Exit code
    /\ ((input_error fs_S1 "io/matrix.bin" "io/rhs.bin" code
         /\ main_files main_result_S1 = fs_S1)
        \/ ((exists n, valid_input fs_S1 "io/matrix.bin" "io/rhs.bin" n)
            /\ ((code = 6%Z /\ fs_writable fs_S1 "io/sol.bin" = false
                 /\ main_files main_result_S1 = fs_S1)
                \/ (code = 0%Z /\ fs_writable fs_S1 "io/sol.bin" = true)))).
Proof.
  apply (main_exit_codes atoi0 atof0 1 ["cg"%string] fs_S1 fresh7 12345
           "io/matrix.bin" "io/rhs.bin" "io/sol.bin" 1000 tol_1e9 main_result_S1).
  - reflexivity.
  - vm_compute. reflexivity.
Defined.

Lemma main_writes_solution_witness :
  exists (size : Z) matrix rhs sres,
    read_matrix_from_file fs_S1 (fresh7 0) "io/matrix.bin"
    = Ok ([], Some (matrix, size, size))
    /\ read_matrix_from_file fs_S1 (fresh7 1) "io/rhs.bin"
       = Ok ([], Some (rhs, size, 1%Z))
    /\ conjugate_gradients 1 0
         (mkHeap matrix rhs
            (new_double_array (fresh7 4) (Z.to_nat size))
            (new_double_array (fresh7 5) (Z.to_nat size))
            (new_double_array (fresh7 6) (Z.to_nat size))
            (new_double_array (fresh7 7) (Z.to_nat size)))
         (Z.to_nat size) 1000 tol_1e9 = Ok sres
    /\ (forall fresh',
          read_matrix_from_file (main_files main_result_S1) fresh' "io/sol.bin"
          = Ok ([], Some (cellx (res_heap sres), size, 1%Z)))
    /\ (forall other, other <> "io/sol.bin"%string ->
          fs_files (main_files main_result_S1) !! other = fs_files fs_S1 !! other).
Proof.
  apply (main_writes_solution atoi0 atof0 1 ["cg"%string] fs_S1 fresh7 12345
           "io/matrix.bin" "io/rhs.bin" "io/sol.bin" 1000 tol_1e9 main_result_S1).
  - reflexivity.
  - vm_compute. reflexivity.
  - reflexivity.
Defined.

Lemma main_succeeds_witness :
  exists res,
    main atoi0 atof0 1 0 ["cg"%string] fs_S1 fresh7 12345 = Ok res
    /\ main_status res = Exit 0
    /\ exists contents,
         fs_files (main_files res) !! "io/sol.bin"%string = Some contents
         /\ length contents = 16 + 8 * Z.to_nat 1
         /\ header contents = (1%Z, 1%Z).
Proof.
  apply (main_succeeds atoi0 atof0 1 1 ["cg"%string] fs_S1 fresh7 12345
           "io/matrix.bin" "io/rhs.bin" "io/sol.bin" 1000 tol_1e9 1).
  - reflexivity.
  - exists matrix_file_S1, rhs_file_S1. repeat split; vm_compute; try reflexivity; lia.
  - lia.
  - unfold INT_MAX. lia.
  - reflexivity.
  - reflexivity.
  - reflexivity.
Defined.

Lemma main_needs_multiple_witness :
  main atoi0 atof0 2 1 ["cg"%string] fs_N3 fresh7 12345 = Undefined.
Proof.
  apply (main_needs_multiple atoi0 atof0 2 1 ["cg"%string] fs_N3 fresh7 12345
           "io/matrix.bin" "io/rhs.bin" "io/sol.bin" 1000 tol_1e9 3).
  - reflexivity.
  - eexists. eexists. repeat split; try (vm_compute; reflexivity); vm_compute; lia.
  - lia.
  - unfold INT_MAX. lia.
  - vm_compute. lia.
  - lia.
Defined.

(** ** [print_matrix] *)

Section PrintMatrixProperties.
Context {F : Type} {SF : Scalar F}.

(** X18 (print_matrix, lines 52-61).  The function returns exactly when
    the array holds [num_rows * num_cols] elements, and reads past its
    end otherwise.  Only the line with the two sizes goes to [file]: the
    elements, row by row, each row ended by a newline, always go to
    [stdout], in [num_rows * (num_cols + 1)] calls of [printf]. *)
Theorem print_matrix_prints (matrix : list F) (num_rows num_cols : nat) (file : FILE) :
  ((exists out, print_matrix matrix num_rows num_cols file = Ok out)
   <-> num_rows * num_cols <= length matrix)
  /\ (length matrix < num_rows * num_cols ->
      print_matrix matrix num_rows num_cols file = Undefined)
  /\ (num_rows * num_cols <= length matrix ->
      exists body,
        print_matrix matrix num_rows num_cols file
        = Ok (fprintf file "%zu %zu\n"
                [arg_zu (Z.of_nat num_rows); arg_zu (Z.of_nat num_cols)] :: body)
        /\ body = concat (map (print_matrix_row matrix num_cols) (seq 0 num_rows))
        /\ Forall (fun o => exists format args, o = fprintf stdout format args) body
        /\ length body = num_rows * (num_cols + 1)).
Proof using SF.
  split; [split|split].
  - intros (out & Hrun).
    destruct (Nat.le_gt_cases (num_rows * num_cols) (length matrix)) as [H|H];
      [exact H|].
    rewrite print_matrix_out_of_bounds in Hrun by assumption. discriminate.
  - intros H. eexists. apply print_matrix_in_bounds, H.
  - apply print_matrix_out_of_bounds.
  - intros H. eexists. split; [apply print_matrix_in_bounds, H|].
    split; [reflexivity|]. split.
    + apply Forall_concat, Forall_forall. intros l Hl.
      apply list_elem_of_fmap in Hl as (r & -> & _).
      unfold print_matrix_row. apply Forall_app. split.
      * apply Forall_forall. intros o Ho.
        apply list_elem_of_fmap in Ho as (c & -> & _). eauto.
      * apply Forall_cons. split; [eauto|apply Forall_nil; exact I].
    + generalize 0 at 1. induction num_rows as [|n IH]; intros lo; [reflexivity|].
      cbn [seq map concat]. rewrite length_app, IH by nia.
      unfold print_matrix_row. rewrite length_app, length_map, length_seq.
      cbn [length]. lia.
Qed.

End PrintMatrixProperties.
